(** * cheroot.connections: the ConnectionManager, embedded and verified

    The development follows [src/cheroot/connections.py].  The manager is a
    Python object mutated in place; here its fields, the heap of
    [HTTPConnection] objects it refers to, the bytes in flight on the control
    socket pair and a log of the calls made on external objects form one
    [state], threaded through a small state-and-exception monad.

    External collaborators (the selector's [select], [accept], the TLS
    adapter's [wrap], [os.fstat], the clock) are inputs of the operations
    that call them.  Python 3 semantics are modelled ([socket.error] is
    [OSError], [socket.timeout] a subclass of it).  Timestamps are rationals:
    the rounding of the float subtraction [time.time() - timeout] is not
    modelled.  The control socket pair is modelled while open: [send]
    delivers its byte, [recv] on an empty channel never returns. *)

From Stdlib Require Import ZArith QArith List String Ascii Lia DecimalString.
From Stdlib.Strings Require Import Byte.
From stdpp Require Import base option list gmap fin_maps.

Local Open Scope Z_scope.

(** ** Exceptions and the monad *)

(** [ex.args[0]] of a socket error: an errno or a message string. *)
Inductive err_arg :=
  | Errno (n : Z)
  | ErrMsg (s : string).

Inductive exn :=
  | IndexError
  | KeyError
  | ValueError
  | UnicodeEncodeError
  | NoSSLError
  | SocketError (is_timeout : bool) (arg0 : err_arg)
  | OtherError.

(** What a call does: return, raise, or (a [recv] on an empty blocking
    socket) never come back. *)
Inductive outcome (A : Type) :=
  | Return (a : A)
  | Raise (e : exn)
  | Blocked.
Arguments Return {A} a.
Arguments Raise {A} e.
Arguments Blocked {A}.

Global Instance err_arg_eq_dec : EqDecision err_arg.
Proof. solve_decision. Defined.
Global Instance exn_eq_dec : EqDecision exn.
Proof. solve_decision. Defined.

(** ** Data *)

(** Identity of an [HTTPConnection] object. *)
Definition conn_ref := nat.

(** The [data] attached to a selector registration: the server object, the
    receive end of the control pair, or a connection. *)
Inductive key_data :=
  | DServer
  | DCtrlRx
  | DConn (c : conn_ref).

Global Instance key_data_eq_dec : EqDecision key_data.
Proof. solve_decision. Defined.

(** [selectors.SelectorKey], the fields the manager reads. *)
Record SelectorKey := { key_fd : Z; key_data_of : key_data }.

Record socket_obj := {
  sock_fileno : Z;
  sock_has_settimeout : bool;
}.

Inductive makefile_kind := MakeFile | AdapterMakefile.

Definition ssl_env_t := list (string * string).

(** Python text: a sequence of code points. *)
Definition pystr := list N.

Record HTTPConnection := {
  conn_socket : socket_obj;
  conn_makefile : makefile_kind;
  last_used : Q;
  rfile_has_data : bool;
  conn_closed : bool;
  remote_addr : option pystr;
  remote_port : option Z;
  ssl_env : option ssl_env_t;
}.

Inductive bind_addr_t :=
  | BindPath (p : pystr)
  | BindInet (host : pystr) (port : Z).

Record Stats := {
  stats_Enabled : bool;
  stats_Accepts : Z;
  stats_Socket_Errors : Z;
}.

(** [self.server], the configuration the manager reads; [ssl_adapter] says
    whether an adapter is set, what its [wrap] does is an input of the
    acceptance. *)
Record HTTPServer := {
  server_fileno : Z;
  timeout : Q;
  ssl_adapter : bool;
  keep_alive_conn_limit : option Z;
  protocol : pystr;
  bind_addr : bind_addr_t;
}.

(** Calls made on external objects, oldest first. *)
Inductive event :=
  | EvSelect
  | EvRegister (fd : Z) (d : key_data)
  | EvUnregister (fd : Z)
  | EvCtrlSend (b : byte)
  | EvCtrlRecv
  | EvConnClose (c : conn_ref)
  | EvSockWrite (s : socket_obj) (payload : list byte)
  | EvSetTimeout (s : socket_obj) (t : Q)
  | EvCtrlTxClose
  | EvCtrlRxClose
  | EvSelectorClose.

Record state := {
  _readable_conns : list conn_ref;
  _put_q : list conn_ref;
  _selector : gmap Z key_data;
  _num_conns : Z;
  ctrl_chan : list byte;
  heap : conn_ref -> HTTPConnection;
  next_ref : conn_ref;
  stats : Stats;
  log : list event;
}.

Definition M (A : Type) : Type := state -> outcome A * state.

Definition ret {A} (a : A) : M A := fun st => (Return a, st).

Definition raise {A} (e : exn) : M A := fun st => (Raise e, st).

Definition bind {A B} (m : M A) (k : A -> M B) : M B :=
  fun st =>
    match m st with
    | (Return a, st') => k a st'
    | (Raise e, st') => (Raise e, st')
    | (Blocked, st') => (Blocked, st')
    end.

(** [try: m except <the exceptions h answers>: ...]. *)
Definition catch {A} (m : M A) (h : exn -> option (M A)) : M A :=
  fun st =>
    match m st with
    | (Raise e, st') =>
        match h e with
        | Some k => k st'
        | None => (Raise e, st')
        end
    | r => r
    end.

Notation "'let!' x ':=' m 'in' k" := (bind m (fun x => k))
  (at level 10, x name, m at level 100, k at level 200).
Notation "m >> k" := (bind m (fun _ => k))
  (at level 80, right associativity).

Definition modify (f : state -> state) : M unit := fun st => (Return tt, f st).

Definition emit (e : event) (st : state) : state :=
  {| _readable_conns := _readable_conns st; _put_q := _put_q st;
     _selector := _selector st; _num_conns := _num_conns st;
     ctrl_chan := ctrl_chan st; heap := heap st; next_ref := next_ref st;
     stats := stats st; log := log st ++ [e] |}.

Definition set_readable (l : list conn_ref) (st : state) : state :=
  {| _readable_conns := l; _put_q := _put_q st;
     _selector := _selector st; _num_conns := _num_conns st;
     ctrl_chan := ctrl_chan st; heap := heap st; next_ref := next_ref st;
     stats := stats st; log := log st |}.

Definition set_put_q (l : list conn_ref) (st : state) : state :=
  {| _readable_conns := _readable_conns st; _put_q := l;
     _selector := _selector st; _num_conns := _num_conns st;
     ctrl_chan := ctrl_chan st; heap := heap st; next_ref := next_ref st;
     stats := stats st; log := log st |}.

Definition set_selector (m : gmap Z key_data) (st : state) : state :=
  {| _readable_conns := _readable_conns st; _put_q := _put_q st;
     _selector := m; _num_conns := _num_conns st;
     ctrl_chan := ctrl_chan st; heap := heap st; next_ref := next_ref st;
     stats := stats st; log := log st |}.

Definition set_num_conns (n : Z) (st : state) : state :=
  {| _readable_conns := _readable_conns st; _put_q := _put_q st;
     _selector := _selector st; _num_conns := n;
     ctrl_chan := ctrl_chan st; heap := heap st; next_ref := next_ref st;
     stats := stats st; log := log st |}.

Definition set_ctrl_chan (l : list byte) (st : state) : state :=
  {| _readable_conns := _readable_conns st; _put_q := _put_q st;
     _selector := _selector st; _num_conns := _num_conns st;
     ctrl_chan := l; heap := heap st; next_ref := next_ref st;
     stats := stats st; log := log st |}.

Definition set_heap (h : conn_ref -> HTTPConnection) (st : state) : state :=
  {| _readable_conns := _readable_conns st; _put_q := _put_q st;
     _selector := _selector st; _num_conns := _num_conns st;
     ctrl_chan := ctrl_chan st; heap := h; next_ref := next_ref st;
     stats := stats st; log := log st |}.

Definition set_next_ref (n : conn_ref) (st : state) : state :=
  {| _readable_conns := _readable_conns st; _put_q := _put_q st;
     _selector := _selector st; _num_conns := _num_conns st;
     ctrl_chan := ctrl_chan st; heap := heap st; next_ref := n;
     stats := stats st; log := log st |}.

Definition set_stats (s : Stats) (st : state) : state :=
  {| _readable_conns := _readable_conns st; _put_q := _put_q st;
     _selector := _selector st; _num_conns := _num_conns st;
     ctrl_chan := ctrl_chan st; heap := heap st; next_ref := next_ref st;
     stats := s; log := log st |}.

(** In-place update of one object of the heap. *)
Definition heap_update (c : conn_ref) (f : HTTPConnection -> HTTPConnection)
    (h : conn_ref -> HTTPConnection) : conn_ref -> HTTPConnection :=
  fun c' => if Nat.eqb c' c then f (h c') else h c'.

Definition with_last_used (t : Q) (o : HTTPConnection) : HTTPConnection :=
  {| conn_socket := conn_socket o; conn_makefile := conn_makefile o;
     last_used := t; rfile_has_data := rfile_has_data o;
     conn_closed := conn_closed o; remote_addr := remote_addr o;
     remote_port := remote_port o; ssl_env := ssl_env o |}.

Definition with_closed (o : HTTPConnection) : HTTPConnection :=
  {| conn_socket := conn_socket o; conn_makefile := conn_makefile o;
     last_used := last_used o; rfile_has_data := rfile_has_data o;
     conn_closed := true; remote_addr := remote_addr o;
     remote_port := remote_port o; ssl_env := ssl_env o |}.

(** [conn.socket.fileno()]: -1 once the socket is closed. *)
Definition conn_fileno (o : HTTPConnection) : Z :=
  if conn_closed o then -1 else sock_fileno (conn_socket o).

(** ** The selector and the control socket pair *)

(** [selector.register(fd, EVENT_READ, data=d)]: [ValueError] on an invalid
    descriptor, [KeyError] on one that is registered already. *)
Definition selector_register (fd : Z) (d : key_data) : M unit :=
  fun st =>
    if fd <? 0 then (Raise ValueError, st)
    else match _selector st !! fd with
         | Some _ => (Raise KeyError, st)
         | None =>
             (Return tt,
              emit (EvRegister fd d) (set_selector (<[fd := d]> (_selector st)) st))
         end.

(** [selector.unregister(fd)]: [KeyError] when [fd] is not registered. *)
Definition selector_unregister (fd : Z) : M unit :=
  fun st =>
    match _selector st !! fd with
    | None => (Raise KeyError, st)
    | Some _ =>
        (Return tt,
         emit (EvUnregister fd) (set_selector (delete fd (_selector st)) st))
    end.

Definition _CTRL_MSG_PUT : list byte := [x50].

(** [self._ctrl_tx.send(msg)]. *)
Definition ctrl_send (msg : list byte) : M unit :=
  modify (fun st =>
    fold_left (fun s b => emit (EvCtrlSend b) s) msg
      (set_ctrl_chan (ctrl_chan st ++ msg) st)).

(** [self._ctrl_rx.recv(1)]. *)
Definition ctrl_recv1 : M (list byte) :=
  fun st =>
    match ctrl_chan st with
    | [] => (Blocked, st)
    | b :: rest => (Return [b], emit EvCtrlRecv (set_ctrl_chan rest st))
    end.

Fixpoint bytes_eqb (a b : list byte) : bool :=
  match a, b with
  | [], [] => true
  | x :: a', y :: b' => Byte.eqb x y && bytes_eqb a' b'
  | _, _ => false
  end.

(** [conn.close()]. *)
Definition conn_close (conn : conn_ref) : M unit :=
  modify (fun st =>
    emit (EvConnClose conn) (set_heap (heap_update conn with_closed (heap st)) st)).

Fixpoint for_each {A} (l : list A) (body : A -> M unit) : M unit :=
  match l with
  | [] => ret tt
  | x :: rest => body x >> for_each rest body
  end.

(** ** The manager *)

(** The fields as [__init__] first sets them; [h] and [n] are the objects
    that exist already. *)
Definition empty_state (h : conn_ref -> HTTPConnection) (n : conn_ref)
    (s : Stats) : state :=
  {| _readable_conns := []; _put_q := []; _selector := ∅; _num_conns := 0;
     ctrl_chan := []; heap := h; next_ref := n; stats := s; log := [] |}.

Definition __init__ (server : HTTPServer) (ctrl_rx_fileno : Z) : M unit :=
  selector_register (server_fileno server) DServer >>
  selector_register ctrl_rx_fileno DCtrlRx.

Definition _pop_readable_conn : M conn_ref :=
  fun st =>
    match _readable_conns st with
    | [] => (Raise IndexError, st)
    | conn :: rest =>
        (Return conn, set_num_conns (_num_conns st - 1) (set_readable rest st))
    end.

Definition _remove_conn (sock_fd : Z) (conn : conn_ref) : M unit :=
  selector_unregister sock_fd >>
  conn_close conn >>
  modify (fun st => set_num_conns (_num_conns st - 1) st).

Definition put (conn : conn_ref) (now : Q) : M unit :=
  modify (fun st => set_num_conns (_num_conns st + 1) st) >>
  modify (fun st => set_heap (heap_update conn (with_last_used now) (heap st)) st) >>
  let! has_data := (fun st => (Return (rfile_has_data (heap st conn)), st)) in
  if has_data : bool then
    modify (fun st => set_readable (_readable_conns st ++ [conn]) st)
  else
    modify (fun st => set_put_q (_put_q st ++ [conn]) st) >>
    ctrl_send _CTRL_MSG_PUT.

Definition selector_conn (kv : Z * key_data) : option (Z * conn_ref) :=
  match kv.2 with
  | DConn conn => Some (kv.1, conn)
  | DServer | DCtrlRx => None
  end.

(** The entries of [self._selector.get_map()] that are connections.  The
    order of enumeration is the map's, not the dictionary's; nothing proved
    below depends on it. *)
Definition _get_selector_conns (st : state) : list (Z * conn_ref) :=
  omap selector_conn (map_to_list (_selector st)).

Definition Qltb (a b : Q) : bool := negb (Qle_bool b a).

Definition timed_out_connections (threshold : Q) (st : state)
    : list (Z * conn_ref) :=
  List.filter (fun fc => Qltb (last_used (heap st fc.2)) threshold)
    (_get_selector_conns st).

Definition expire (server : HTTPServer) (now : Q) : M unit :=
  fun st =>
    let threshold := (now - timeout server)%Q in
    for_each (timed_out_connections threshold st)
      (fun fc => _remove_conn fc.1 fc.2) st.

Definition _process_ctrl_msg : M unit :=
  let! msg := ctrl_recv1 in
  if bytes_eqb msg _CTRL_MSG_PUT then
    let! conn := (fun st =>
                  match _put_q st with
                  | [] => (Raise IndexError, st)
                  | conn :: rest => (Return conn, set_put_q rest st)
                  end) in
    let! fd := (fun st => (Return (conn_fileno (heap st conn)), st)) in
    selector_register fd (DConn conn)
  else ret tt.

(** [os.fstat] failing on a descriptor is an input. *)
Definition _remove_invalid_sockets (fstat_fails : Z -> bool) : M unit :=
  fun st =>
    let invalid_conns :=
      List.filter (fun fc => fstat_fails fc.1) (_get_selector_conns st) in
    for_each invalid_conns (fun fc => _remove_conn fc.1 fc.2) st.

Definition can_add_keepalive_connection (server : HTTPServer) (st : state)
    : bool :=
  match keep_alive_conn_limit server with
  | None => true
  | Some ka_limit => _num_conns st <? ka_limit
  end.

Definition close : M unit :=
  (fun st => for_each (_readable_conns st) conn_close st) >>
  modify (set_readable []) >>
  (fun st => for_each (_get_selector_conns st) (fun fc => conn_close fc.2) st) >>
  modify (emit EvCtrlTxClose) >>
  modify (emit EvCtrlRxClose) >>
  modify (fun st => emit EvSelectorClose (set_selector ∅ st)).

(** ** The acceptance pipeline *)

Definition pystr_of_string (s : string) : pystr :=
  List.map N_of_ascii (list_ascii_of_string s).

(** [str(n)] for a length. *)
Definition py_str_of_nat (n : nat) : pystr :=
  pystr_of_string (NilZero.string_of_uint (Nat.to_uint n)).

(** [text.encode('ISO-8859-1')]: one byte per code point, [None] (a
    [UnicodeEncodeError]) when a code point is above 255. *)
Fixpoint encode_latin1 (text : pystr) : option (list byte) :=
  match text with
  | [] => Some []
  | cp :: rest =>
      match Byte.of_N cp, encode_latin1 rest with
      | Some b, Some bs => Some (b :: bs)
      | _, _ => None
      end
  end.

Definition crlf : string := String "013" (String "010" EmptyString).

Definition no_ssl_text : string :=
  "The client sent a plain HTTP request, but "
  ++ "this server only speaks HTTPS on this port.".

Definition no_ssl_msg : pystr := pystr_of_string no_ssl_text.

Definition no_ssl_buf (server : HTTPServer) : list pystr :=
  [ protocol server ++ pystr_of_string (" 400 Bad Request" ++ crlf);
    pystr_of_string "Content-Length: " ++ py_str_of_nat (length no_ssl_msg)
      ++ pystr_of_string crlf;
    pystr_of_string ("Content-Type: text/plain" ++ crlf ++ crlf);
    no_ssl_msg ].

(** The constants of [cheroot.errors] the manager tests membership in; the
    module is not part of this file's source, so they are parameters. *)
Record errors_module := {
  socket_error_eintr : list err_arg;
  socket_errors_nonblocking : list err_arg;
  socket_errors_to_ignore : list err_arg;
}.

(** [x in l] on a Python list. *)
Definition py_in (x : err_arg) (l : list err_arg) : bool :=
  existsb (fun y => bool_decide (x = y)) l.

(** What the external calls of one acceptance do. *)
Record accept_env := {
  accept_result : outcome (socket_obj * option (pystr * Z));
  inherit_result : outcome unit;
  settimeout_result : outcome unit;
  wrap_result : outcome (option socket_obj * ssl_env_t);
  write_result : outcome unit;
  settimeout2_result : outcome unit;
  getsockname_len : outcome nat;
  factory_last_used : Q;
  factory_has_data : bool;
}.

Definition lift {A} (o : outcome A) : M A := fun st => (o, st).

Definition incr_Accepts (s : Stats) : Stats :=
  {| stats_Enabled := stats_Enabled s; stats_Accepts := stats_Accepts s + 1;
     stats_Socket_Errors := stats_Socket_Errors s |}.

Definition incr_Socket_Errors (s : Stats) : Stats :=
  {| stats_Enabled := stats_Enabled s; stats_Accepts := stats_Accepts s;
     stats_Socket_Errors := stats_Socket_Errors s + 1 |}.

(** [if hasattr(s, 'settimeout'): s.settimeout(t)]. *)
Definition settimeout (s : socket_obj) (t : Q) (o : outcome unit) : M unit :=
  if sock_has_settimeout s then lift o >> modify (emit (EvSetTimeout s t))
  else ret tt.

(** [self.server.ConnectionClass(self.server, s, mf)]: a new object. *)
Definition ConnectionClass (s : socket_obj) (mf : makefile_kind)
    (env : accept_env) : M conn_ref :=
  fun st =>
    let conn := next_ref st in
    let obj := {| conn_socket := s; conn_makefile := mf;
                  last_used := factory_last_used env;
                  rfile_has_data := factory_has_data env;
                  conn_closed := false; remote_addr := None;
                  remote_port := None; ssl_env := None |} in
    (Return conn,
     set_next_ref (S conn) (set_heap (heap_update conn (fun _ => obj) (heap st)) st)).

Definition with_remote (a : pystr) (p : Z) (o : HTTPConnection) : HTTPConnection :=
  {| conn_socket := conn_socket o; conn_makefile := conn_makefile o;
     last_used := last_used o; rfile_has_data := rfile_has_data o;
     conn_closed := conn_closed o; remote_addr := Some a;
     remote_port := Some p; ssl_env := ssl_env o |}.

Definition with_ssl_env (e : ssl_env_t) (o : HTTPConnection) : HTTPConnection :=
  {| conn_socket := conn_socket o; conn_makefile := conn_makefile o;
     last_used := last_used o; rfile_has_data := rfile_has_data o;
     conn_closed := conn_closed o; remote_addr := remote_addr o;
     remote_port := remote_port o; ssl_env := Some e |}.

Section Acceptance.

Variable errors : errors_module.
Variable server : HTTPServer.

(** The [except errors.NoSSLError] block, up to its [return]. *)
Definition send_no_ssl_response (s : socket_obj) (env : accept_env) : M unit :=
  catch
    (match encode_latin1 (concat (no_ssl_buf server)) with
     | None => raise UnicodeEncodeError
     | Some payload =>
         lift (write_result env) >> modify (emit (EvSockWrite s payload))
     end)
    (fun ex =>
       match ex with
       | SocketError _ arg0 =>
           if py_in arg0 (socket_errors_to_ignore errors) then Some (ret tt)
           else None
       | _ => None
       end).

(** The body of the [try]. *)
Definition _from_server_socket_body (env : accept_env) : M (option conn_ref) :=
  let! sa := lift (accept_result env) in
  let s := sa.1 in
  let addr := sa.2 in
  modify (fun st =>
    if stats_Enabled (stats st) then set_stats (incr_Accepts (stats st)) st
    else st) >>
  lift (inherit_result env) >>
  settimeout s (timeout server) (settimeout_result env) >>
  let! wrapped :=
    (if ssl_adapter server then
       catch
         (let! w := lift (wrap_result env) in ret (Some w))
         (fun ex =>
            match ex with
            | NoSSLError => Some (send_no_ssl_response s env >> ret None)
            | _ => None
            end)
     else ret (Some (Some s, []))) in
  match wrapped with
  | None => ret None
  | Some (None, _) => ret None
  | Some (Some s', ssl_env') =>
      (if ssl_adapter server then
         settimeout s' (timeout server) (settimeout2_result env)
       else ret tt) >>
      let mf := if ssl_adapter server then AdapterMakefile else MakeFile in
      let! conn := ConnectionClass s' mf env in
      match bind_addr server with
      | BindPath _ => ret tt
      | BindInet _ _ =>
          let! addr' :=
            (match addr with
             | Some a => ret a
             | None =>
                 let! n := lift (getsockname_len env) in
                 if Nat.eqb n 2 then ret (pystr_of_string "0.0.0.0", 0)
                 else ret (pystr_of_string "::", 0)
             end) in
          modify (fun st =>
            set_heap (heap_update conn (with_remote addr'.1 addr'.2) (heap st)) st)
      end >>
      modify (fun st =>
        set_heap (heap_update conn (with_ssl_env ssl_env') (heap st)) st) >>
      ret (Some conn)
  end.

Definition _from_server_socket (env : accept_env) : M (option conn_ref) :=
  catch (_from_server_socket_body env)
    (fun ex =>
       match ex with
       | SocketError true _ => Some (ret None)
       | SocketError false arg0 =>
           Some
             (modify (fun st =>
                if stats_Enabled (stats st)
                then set_stats (incr_Socket_Errors (stats st)) st
                else st) >>
              if py_in arg0 (socket_error_eintr errors) then ret None
              else if py_in arg0 (socket_errors_nonblocking errors) then ret None
              else if py_in arg0 (socket_errors_to_ignore errors) then ret None
              else raise ex)
       | _ => None
       end).

(** What the external calls of one [get_conn] do. *)
Record get_conn_env := {
  select_result : outcome (list SelectorKey);
  fstat_fails : Z -> bool;
  accept_calls : accept_env;
}.

(** The [for key in rlist] loop; [Some r] when it ran into [return r]. *)
Fixpoint get_conn_loop (env : get_conn_env) (rlist : list SelectorKey)
    : M (option (option conn_ref)) :=
  match rlist with
  | [] => ret None
  | key :: rest =>
      match key_data_of key with
      | DCtrlRx => _process_ctrl_msg >> get_conn_loop env rest
      | DServer =>
          let! r := _from_server_socket (accept_calls env) in ret (Some r)
      | DConn conn =>
          selector_unregister (key_fd key) >>
          modify (fun st => set_readable (_readable_conns st ++ [conn]) st) >>
          get_conn_loop env rest
      end
  end.

(** [get_conn] from the [select] call on. *)
Definition get_conn_select (env : get_conn_env) : M (option conn_ref) :=
  let! selected :=
    catch
      (modify (emit EvSelect) >>
       let! rlist := lift (select_result env) in ret (Some rlist))
      (fun ex =>
         match ex with
         | SocketError _ _ =>
             Some (_remove_invalid_sockets (fstat_fails env) >> ret None)
         | _ => None
         end) in
  match selected with
  | None => ret None
  | Some rlist =>
      let! returned := get_conn_loop env rlist in
      match returned with
      | Some r => ret r
      | None =>
          catch (let! conn := _pop_readable_conn in ret (Some conn))
            (fun ex => match ex with IndexError => Some (ret None) | _ => None end)
      end
  end.

Definition get_conn (env : get_conn_env) : M (option conn_ref) :=
  catch (let! conn := _pop_readable_conn in ret (Some conn))
    (fun ex =>
       match ex with
       | IndexError => Some (get_conn_select env)
       | _ => None
       end).

End Acceptance.

(** ** Operations as steps, and the predicates the theorems use *)

Inductive op :=
  | OpPut (conn : conn_ref) (now : Q)
  | OpGetConn (env : get_conn_env)
  | OpExpire (now : Q)
  | OpPopReadable
  | OpRemoveConn (sock_fd : Z) (conn : conn_ref)
  | OpProcessCtrlMsg.

(** The state an operation leaves behind, however it ends. *)
Definition run_op (errors : errors_module) (server : HTTPServer) (o : op)
    (st : state) : state :=
  match o with
  | OpPut conn now => (put conn now st).2
  | OpGetConn env => (get_conn errors server env st).2
  | OpExpire now => (expire server now st).2
  | OpPopReadable => (_pop_readable_conn st).2
  | OpRemoveConn sock_fd conn => (_remove_conn sock_fd conn st).2
  | OpProcessCtrlMsg => (_process_ctrl_msg st).2
  end.

(** The three placements of the comment in [__init__]. *)
Definition managed_count (st : state) : Z :=
  Z.of_nat (length (_readable_conns st) + length (_put_q st)
            + length (_get_selector_conns st)).

Definition count_ok (st : state) : Prop := _num_conns st = managed_count st.

(** Descriptors of the connections waiting in [_put_q]. *)
Definition pending_fds (st : state) : list Z :=
  List.map (fun conn => conn_fileno (heap st conn)) (_put_q st).

(** Every connection waiting in [_put_q] can be registered: its descriptor
    is valid, not registered, and no other waiting connection has it. *)
Definition put_q_registrable (st : state) : bool :=
  bool_decide (NoDup (pending_fds st))
  && forallb (fun fd => (0 <=? fd) && bool_decide (_selector st !! fd = None))
       (pending_fds st).

(** A key as [select] reports it: the registration of its descriptor. *)
Definition key_registered (st : state) (key : SelectorKey) : bool :=
  bool_decide (_selector st !! key_fd key = Some (key_data_of key)).

Definition select_sound (st : state) (env : get_conn_env) : bool :=
  match select_result env with
  | Return rlist => forallb (key_registered st) rlist
  | _ => true
  end.

(** [sock_fd] is not the registration of the listener or of the control
    pair. *)
Definition not_reserved (st : state) (sock_fd : Z) : bool :=
  match _selector st !! sock_fd with
  | Some DServer | Some DCtrlRx => false
  | _ => true
  end.


(** One [PUT] byte in flight per connection waiting in [_put_q]. *)
Definition ctrl_in_sync (st : state) : Prop :=
  ctrl_chan st = concat (List.map (fun _ => _CTRL_MSG_PUT) (_put_q st)).

(** The fields of the manager proper. *)
Definition same_manager (st st' : state) : Prop :=
  _readable_conns st' = _readable_conns st
  /\ _put_q st' = _put_q st
  /\ _selector st' = _selector st
  /\ _num_conns st' = _num_conns st
  /\ ctrl_chan st' = ctrl_chan st.

Definition keeps_manager {A} (m : M A) : Prop :=
  forall st, same_manager st (m st).2.

(** The state once one byte has been received. *)
Definition after_recv (rest : list byte) (st : state) : state :=
  emit EvCtrlRecv (set_ctrl_chan rest st).

(** A key of the batch during the loop: still the registration of its
    descriptor, or unregistered by an earlier iteration. *)
Definition key_consistent (st : state) (key : SelectorKey) : Prop :=
  _selector st !! key_fd key = Some (key_data_of key)
  \/ (_selector st !! key_fd key = None /\ key_fd key ∉ pending_fds st).

(** ** The states the manager goes through *)

(** The caller's side of [put] for a connection without buffered input: an
    existing, open object that the manager does not hold, whose descriptor
    the manager does not use. *)
Definition put_fresh (st : state) (conn : conn_ref) : bool :=
  (conn <? next_ref st)%nat
  && (0 <=? conn_fileno (heap st conn))
  && bool_decide (_selector st !! conn_fileno (heap st conn) = None)
  && bool_decide (conn_fileno (heap st conn) ∉ pending_fds st)
  && forallb (fun fc => negb (Nat.eqb fc.2 conn)) (_get_selector_conns st).

(** The public operations, called as the server calls them. *)
Definition caller_ok (o : op) (st : state) : bool :=
  match o with
  | OpPut conn _ => rfile_has_data (heap st conn) || put_fresh st conn
  | OpGetConn env => select_sound st env
  | OpExpire _ => true
  | OpPopReadable | OpRemoveConn _ _ | OpProcessCtrlMsg => false
  end.

Inductive reachable (errors : errors_module) (server : HTTPServer)
    : state -> Prop :=
  | reachable_init h n s ctrl_rx_fileno st :
      __init__ server ctrl_rx_fileno (empty_state h n s) = (Return tt, st) ->
      reachable errors server st
  | reachable_step o st :
      reachable errors server st -> caller_ok o st = true ->
      reachable errors server (run_op errors server o st).

(** What holds of every such state. *)
Definition manager_inv (st : state) : Prop :=
  count_ok st
  /\ ctrl_in_sync st
  /\ put_q_registrable st = true
  /\ Forall (fun c => (c < next_ref st)%nat) (_put_q st)
  /\ (forall fd c, _selector st !! fd = Some (DConn c) -> c ∉ _put_q st).

(** ** A readiness batch *)

Definition key_conn (key : SelectorKey) : option conn_ref :=
  match key_data_of key with
  | DConn conn => Some conn
  | DServer | DCtrlRx => None
  end.

(** The client connections of a batch, in the batch's order. *)
Definition batch_conns (keys : list SelectorKey) : list conn_ref :=
  omap key_conn keys.

Definition is_listener_key (key : SelectorKey) : bool :=
  match key_data_of key with DServer => true | _ => false end.

Definition is_ctrl_key (key : SelectorKey) : bool :=
  match key_data_of key with DCtrlRx => true | _ => false end.

(** What [select] guarantees of the entries [pre] it reports ahead of the
    listening socket: no descriptor twice, each entry a registration, and a
    control entry only for a byte in flight.  The last two conjuncts are the
    state's own invariants. *)
Definition batch_ok (st : state) (pre : list SelectorKey) : bool :=
  forallb (fun key => negb (is_listener_key key)) pre
  && bool_decide (NoDup (key_fd <$> pre))
  && forallb (key_registered st) pre
  && (length (List.filter is_ctrl_key pre) <=? length (_put_q st))%nat
  && put_q_registrable st
  && bytes_eqb (ctrl_chan st) (concat (List.map (fun _ => _CTRL_MSG_PUT) (_put_q st))).

(** ** The classification of the specification, to compare the code with *)

(** What the caller of the accept path sees when an exception [ex] comes up
    in it, in the specification's words: a timeout, an interrupted call, a
    retry condition and a peer-already-closed condition give no connection
    and no exception; any other error propagates. *)
Definition spec_accept_outcome (errors : errors_module) (ex : exn)
    : outcome (option conn_ref) :=
  match ex with
  | SocketError true _ => Return None
  | SocketError false arg0 =>
      if py_in arg0 (socket_error_eintr errors)
         || py_in arg0 (socket_errors_nonblocking errors)
         || py_in arg0 (socket_errors_to_ignore errors)
      then Return None
      else Raise ex
  | _ => Raise ex
  end.

(** What becomes of the ready client connections of a batch [keys] with
    the listening socket in it, in the specification's words: each one is
    unregistered and queued onto the readable queue. *)
Definition spec_ready_clients_queued (keys : list SelectorKey)
    (r : outcome (option conn_ref) * state) : Prop :=
  forall key conn,
    key ∈ keys -> key_data_of key = DConn conn ->
    _selector r.2 !! key_fd key = None /\ conn ∈ _readable_conns r.2.

Definition bytes_of_string (s : string) : list byte :=
  List.map byte_of_ascii (list_ascii_of_string s).

(** The synthetic response in the specification's words:
    ["<protocol> 400 Bad Request\r\nContent-Length: <n>\r\nContent-Type:
    text/plain\r\n\r\n<message>"], one byte per character, [<n>] the
    length of the message in decimal. *)
Definition spec_400_response (protocol_bytes : list byte) (message : string)
    : list byte :=
  protocol_bytes
  ++ bytes_of_string (" 400 Bad Request" ++ crlf ++ "Content-Length: ")
  ++ bytes_of_string (NilZero.string_of_uint (Nat.to_uint (String.length message)))
  ++ bytes_of_string (crlf ++ "Content-Type: text/plain" ++ crlf ++ crlf)
  ++ bytes_of_string message.

(** ** Socket inheritance (POSIX) *)

(** The descriptor flags the kernel keeps, per open descriptor. *)
Definition fd_flags := gmap Z Z.

(** The range of a C [int], which [fcntl.fcntl] converts its descriptor
    to. *)
Definition C_INT_MIN : Z := - 2 ^ 31.
Definition C_INT_MAX : Z := 2 ^ 31 - 1.

(** [prevent_socket_inheritance(sock)] where [fcntl] is available, [fd]
    being [sock.fileno()]: read the flags with [F_GETFD], write them back or-ed
    with [FD_CLOEXEC].  [fcntl.fcntl] raises [OverflowError] ([OtherError]
    here) on a descriptor that is no C [int], [ValueError] on a negative one
    (the [fileno()] of a closed socket is -1), and [OSError] ([EBADF], 9) on
    one that is not open; the first call raising, nothing is written.  The
    value of [FD_CLOEXEC] is the platform's, a parameter here. *)
Definition prevent_socket_inheritance (FD_CLOEXEC : Z) (fd : Z) (t : fd_flags)
    : outcome unit * fd_flags :=
  if (fd <? C_INT_MIN) || (C_INT_MAX <? fd) then (Raise OtherError, t)
  else if fd <? 0 then (Raise ValueError, t)
  else match t !! fd with
       | None => (Raise (SocketError false (Errno 9)), t)
       | Some old_flags => (Return tt, <[fd := Z.lor old_flags FD_CLOEXEC]> t)
       end.

(** ** Who holds a connection *)

(** Every connection the manager holds, once per placement. *)
Definition placements (st : state) : list conn_ref :=
  _readable_conns st ++ _put_q st ++ (_get_selector_conns st).*2.

(** The caller of [put] hands over an existing connection that the manager
    does not hold. *)
Definition put_unowned (st : state) (conn : conn_ref) : bool :=
  (conn <? next_ref st)%nat && bool_decide (conn ∉ placements st).

Definition owner_ok (o : op) (st : state) : bool :=
  caller_ok o st
  && match o with
     | OpPut conn _ => put_unowned st conn
     | _ => true
     end.

Inductive reachable_owned (errors : errors_module) (server : HTTPServer)
    : state -> Prop :=
  | reachable_owned_init h n s ctrl_rx_fileno st :
      __init__ server ctrl_rx_fileno (empty_state h n s) = (Return tt, st) ->
      reachable_owned errors server st
  | reachable_owned_step o st :
      reachable_owned errors server st -> owner_ok o st = true ->
      reachable_owned errors server (run_op errors server o st).

Definition owned_once (st : state) : Prop :=
  NoDup (placements st)
  /\ Forall (fun c => (c < next_ref st)%nat) (placements st).

(** The same, said of the three structures one by one: no connection twice
    in the queues, none both queued and registered, none registered under
    two descriptors, and every one an existing object. *)
Definition held_apart (st : state) : Prop :=
  NoDup (_readable_conns st ++ _put_q st)
  /\ (forall fd c, _selector st !! fd = Some (DConn c) ->
                   c ∉ _readable_conns st ++ _put_q st)
  /\ (forall fd1 fd2 c, _selector st !! fd1 = Some (DConn c) ->
                        _selector st !! fd2 = Some (DConn c) -> fd1 = fd2)
  /\ Forall (fun c => (c < next_ref st)%nat) (_readable_conns st ++ _put_q st)
  /\ (forall fd c, _selector st !! fd = Some (DConn c) -> (c < next_ref st)%nat).

(** ** Sequences of calls *)

(** [put] of each connection of [conns] in turn, all at time [now]. *)
Definition put_each (conns : list conn_ref) (now : Q) (st : state) : state :=
  fold_left (fun s conn => (put conn now s).2) conns st.

(** One [get_conn] per element of [envs]; the results in order. *)
Fixpoint get_conn_each (errors : errors_module) (server : HTTPServer)
    (envs : list get_conn_env) (st : state)
    : list (outcome (option conn_ref)) * state :=
  match envs with
  | [] => ([], st)
  | env :: rest =>
      let r := get_conn errors server env st in
      let rs := get_conn_each errors server rest r.2 in
      (r.1 :: rs.1, rs.2)
  end.

(** ** The connection an acceptance builds *)

(** [addr[0]], [addr[1]] as the acceptance sets them: nothing for a bind
    address that is a path; the peer address; or, without one, the wildcard
    of the family, told by the length [n] of [s.getsockname()]. *)
Definition remote_of (server : HTTPServer) (addr : option (pystr * Z)) (n : nat)
    : option pystr * option Z :=
  match bind_addr server with
  | BindPath _ => (None, None)
  | BindInet _ _ =>
      match addr with
      | Some a => (Some a.1, Some a.2)
      | None =>
          (Some (if Nat.eqb n 2 then pystr_of_string "0.0.0.0"
                 else pystr_of_string "::"), Some 0)
      end
  end.

(** Whether the acceptance asks [s.getsockname()]. *)
Definition asks_sockname (server : HTTPServer) (addr : option (pystr * Z)) : bool :=
  match bind_addr server, addr with
  | BindInet _ _, None => true
  | _, _ => false
  end.

(** Whether the outer handler of the acceptance counts [ex] as a socket
    error. *)
Definition counts_as_socket_error (ex : exn) : bool :=
  match ex with
  | SocketError false _ => true
  | _ => false
  end.

(** ** A concrete manager, for examples *)

Definition example_errors : errors_module :=
  {| socket_error_eintr := [Errno 4];
     socket_errors_nonblocking := [Errno 11];
     socket_errors_to_ignore := [Errno 32; Errno 104; ErrMsg "timed out"] |}.

Definition example_server : HTTPServer :=
  {| server_fileno := 3; timeout := 10%Q; ssl_adapter := false;
     keep_alive_conn_limit := Some 2;
     protocol := pystr_of_string "HTTP/1.1";
     bind_addr := BindInet (pystr_of_string "127.0.0.1") 8080 |}.

Definition example_tls_server : HTTPServer :=
  {| server_fileno := 3; timeout := 10%Q; ssl_adapter := true;
     keep_alive_conn_limit := None;
     protocol := pystr_of_string "HTTP/1.1";
     bind_addr := BindInet (pystr_of_string "127.0.0.1") 8443 |}.

(** Connection [c] has descriptor [10 + c]; the even ones have buffered
    input. *)
Definition example_heap (c : conn_ref) : HTTPConnection :=
  {| conn_socket := {| sock_fileno := 10 + Z.of_nat c;
                       sock_has_settimeout := true |};
     conn_makefile := MakeFile; last_used := 0%Q;
     rfile_has_data := Nat.even c; conn_closed := false;
     remote_addr := None; remote_port := None; ssl_env := None |}.

Definition example_stats : Stats :=
  {| stats_Enabled := true; stats_Accepts := 0; stats_Socket_Errors := 0 |}.

Definition example_init : state :=
  (__init__ example_server 4 (empty_state example_heap 6%nat example_stats)).2.

Definition example_accept_env : accept_env :=
  {| accept_result :=
       Return ({| sock_fileno := 20; sock_has_settimeout := true |}, None);
     inherit_result := Return tt; settimeout_result := Return tt;
     wrap_result := Raise NoSSLError; write_result := Return tt;
     settimeout2_result := Return tt; getsockname_len := Return 2%nat;
     factory_last_used := 0%Q; factory_has_data := false |}.

Definition example_env (rlist : list SelectorKey) : get_conn_env :=
  {| select_result := Return rlist; fstat_fails := fun _ => false;
     accept_calls := example_accept_env |}.

(** Connections 1 and 3 put at time 5 and registered, 5 put at time 7 and
    still waiting in [_put_q]. *)
Definition example_state : state :=
  let ctrl := example_env [ {| key_fd := 4; key_data_of := DCtrlRx |} ] in
  let run (o : op) := run_op example_errors example_server o in
  let st1 := run (OpPut 1%nat 5%Q) example_init in
  let st2 := run (OpPut 3%nat 5%Q) st1 in
  let st3 := run (OpGetConn ctrl) st2 in
  let st4 := run (OpGetConn ctrl) st3 in
  run (OpPut 5%nat 7%Q) st4.

(** [m] keeps the property [P] of the state, however it ends. *)
Definition preserves (P : state -> Prop) {A} (m : M A) : Prop :=
  forall st, P st -> P (m st).2.

(** A triple for the monad: from a state satisfying [P], [m] returns [a]
    in a state satisfying [Q a], or ends otherwise in a state satisfying
    [E]. *)
Definition hoare {A} (P : state -> Prop) (m : M A) (Q : A -> state -> Prop)
    (E : state -> Prop) : Prop :=
  forall st, P st ->
    match (m st).1 with
    | Return a => Q a (m st).2
    | Raise _ | Blocked => E (m st).2
    end.

(** What an acceptance started in [st0] may have changed: not the manager's
    fields, and in the heap only objects created since. *)
Definition accept_frame (st0 st : state) : Prop :=
  same_manager st0 st
  /\ (next_ref st0 <= next_ref st)%nat
  /\ (forall c, (c < next_ref st0)%nat -> heap st c = heap st0 c).

(** * Proofs *)

(** ** Registrations and the list of client connections *)

Lemma selector_conns_insert (sel : gmap Z key_data) fd d :
  sel !! fd = None ->
  omap selector_conn (map_to_list (<[fd := d]> sel))
  ≡ₚ match d with DConn c => [(fd, c)] | _ => [] end
     ++ omap selector_conn (map_to_list sel).
Proof.
  intros Hfree. rewrite (map_to_list_insert sel fd d Hfree).
  destruct d; reflexivity.
Qed.

Lemma selector_conns_delete (sel : gmap Z key_data) fd d :
  sel !! fd = Some d ->
  omap selector_conn (map_to_list sel)
  ≡ₚ match d with DConn c => [(fd, c)] | _ => [] end
     ++ omap selector_conn (map_to_list (delete fd sel)).
Proof.
  intros Hreg. rewrite <- (map_to_list_delete sel fd d Hreg).
  destruct d; reflexivity.
Qed.

Lemma elem_of_selector_conns (sel : gmap Z key_data) fd c :
  (fd, c) ∈ omap selector_conn (map_to_list sel) <-> sel !! fd = Some (DConn c).
Proof.
  rewrite list_elem_of_omap. split.
  - intros [[fd' d] [Hin Hsel]]. apply elem_of_map_to_list in Hin.
    unfold selector_conn in Hsel. simpl in Hsel.
    destruct d; inversion Hsel; subst; exact Hin.
  - intros Hreg. exists (fd, DConn c). split; [|reflexivity].
    apply elem_of_map_to_list. exact Hreg.
Qed.

Lemma selector_conn_fst kv fc : selector_conn kv = Some fc -> fc.1 = kv.1.
Proof.
  destruct kv as [fd d]. unfold selector_conn. simpl.
  destruct d; intros H; inversion H; reflexivity.
Qed.

Lemma NoDup_fst_selector_conns (sel : gmap Z key_data) :
  NoDup (omap selector_conn (map_to_list sel)).*1.
Proof.
  pose proof (NoDup_fst_map_to_list sel) as Hnd.
  induction (map_to_list sel) as [|kv l IH]; simpl; [constructor|].
  inversion Hnd as [|? ? Hnotin Hnd']; subst.
  destruct (selector_conn kv) as [fc|] eqn:Hkv; simpl; [|auto].
  constructor; [|auto].
  intros Hin. apply Hnotin.
  rewrite <- (selector_conn_fst _ _ Hkv).
  apply list_elem_of_fmap in Hin as [fc' [Heq Hin]].
  apply list_elem_of_omap in Hin as [kv' [Hin Hkv']].
  apply list_elem_of_fmap. exists kv'. split; [|exact Hin].
  rewrite Heq. apply (selector_conn_fst _ _ Hkv').
Qed.

(** ** The manager's fields are kept by what does not touch them *)

Lemma same_manager_refl st : same_manager st st.
Proof. repeat split. Qed.

Lemma same_manager_trans st1 st2 st3 :
  same_manager st1 st2 -> same_manager st2 st3 -> same_manager st1 st3.
Proof.
  unfold same_manager. intros (?&?&?&?&?) (?&?&?&?&?).
  repeat split; congruence.
Qed.

Lemma heap_update_same c f h : heap_update c f h c = f (h c).
Proof. unfold heap_update. rewrite Nat.eqb_refl. reflexivity. Qed.

Lemma heap_update_other c c' f h : c' <> c -> heap_update c f h c' = h c'.
Proof.
  intros Hne. unfold heap_update.
  destruct (Nat.eqb c' c) eqn:E; [|reflexivity].
  apply Nat.eqb_eq in E. contradiction.
Qed.

(** ** Triples *)

Section Hoare.

Context {A : Type}.
Variables (P : state -> Prop) (Q : A -> state -> Prop) (E : state -> Prop).

Lemma hoare_ret (a : A) : (forall st, P st -> Q a st) -> hoare P (ret a) Q E.
Proof. intros H st HP. simpl. auto. Qed.

Lemma hoare_raise e : (forall st, P st -> E st) -> hoare P (@raise A e) Q E.
Proof. intros H st HP. simpl. auto. Qed.

Lemma hoare_lift (o : outcome A) :
  (forall st, P st -> (forall a, Q a st) /\ E st) -> hoare P (lift o) Q E.
Proof. intros H st HP. destruct (H st HP). destruct o; simpl; auto. Qed.

Lemma hoare_bind {B} (m : M B) (k : B -> M A) (Q1 : B -> state -> Prop) :
  hoare P m Q1 E -> (forall b, hoare (Q1 b) (k b) Q E) -> hoare P (bind m k) Q E.
Proof.
  intros Hm Hk st HP. unfold bind. specialize (Hm st HP).
  destruct (m st) as [[b| e |] st']; simpl in *; try exact Hm.
  apply Hk. exact Hm.
Qed.

Lemma hoare_catch (m : M A) h (E1 : state -> Prop) :
  hoare P m Q E1 ->
  (forall e k, h e = Some k -> hoare E1 k Q E) ->
  (forall st, E1 st -> E st) ->
  hoare P (catch m h) Q E.
Proof.
  intros Hm Hh HE st HP. unfold catch. specialize (Hm st HP).
  destruct (m st) as [[a| e |] st']; simpl in *; auto.
  destruct (h e) as [k|] eqn:He; simpl; auto.
  eapply Hh; eauto.
Qed.

End Hoare.

Lemma hoare_modify (P : state -> Prop) f (Q : unit -> state -> Prop) E :
  (forall st, P st -> Q tt (f st)) -> hoare P (modify f) Q E.
Proof. intros H st HP. simpl. auto. Qed.

(** ** What an acceptance leaves alone *)

Section AcceptFrame.

Variable errors : errors_module.
Variable server : HTTPServer.
Variable st0 : state.

Let F := accept_frame st0.

(** A step that leaves the manager's fields, the heap and [next_ref]. *)
Lemma accept_frame_step (f : state -> state) :
  (forall st, same_manager st (f st)) ->
  (forall st, next_ref (f st) = next_ref st) ->
  (forall st, heap (f st) = heap st) ->
  forall st, F st -> F (f st).
Proof.
  intros Hm Hn Hh st (Hsame & Hle & Hheap). split; [|split].
  - eapply same_manager_trans; [exact Hsame | apply Hm].
  - rewrite Hn. exact Hle.
  - intros c Hc. rewrite Hh. apply Hheap. exact Hc.
Qed.

(** A step that updates an object created since [st0]. *)
Lemma accept_frame_update conn g st :
  (next_ref st0 <= conn)%nat -> F st ->
  F (set_heap (heap_update conn g (heap st)) st).
Proof.
  intros Hnew (Hsame & Hle & Hheap). split; [|split].
  - eapply same_manager_trans; [exact Hsame|]. repeat split.
  - exact Hle.
  - intros c Hc. simpl. rewrite heap_update_other by lia. apply Hheap. exact Hc.
Qed.

Lemma hoare_lift_frame {A} (o : outcome A) : hoare F (lift o) (fun _ => F) F.
Proof. apply hoare_lift. auto. Qed.

Lemma hoare_settimeout s t o :
  hoare F (settimeout s t o) (fun _ => F) F.
Proof.
  unfold settimeout. destruct (sock_has_settimeout s).
  - eapply hoare_bind; [apply hoare_lift_frame|]. intros ?.
    apply hoare_modify. apply accept_frame_step; intros; repeat split.
  - apply hoare_ret. auto.
Qed.

Lemma hoare_send_no_ssl_response s env :
  hoare F (send_no_ssl_response errors server s env) (fun _ => F) F.
Proof.
  unfold send_no_ssl_response. eapply hoare_catch with (E1 := F); [| |auto].
  - destruct (encode_latin1 _); [|apply hoare_raise; auto].
    eapply hoare_bind; [apply hoare_lift_frame|]. intros ?.
    apply hoare_modify. apply accept_frame_step; intros; repeat split.
  - intros e k. destruct e; try discriminate.
    destruct (py_in _ _); [|discriminate].
    intros H; inversion H. apply hoare_ret. auto.
Qed.

Lemma hoare_ConnectionClass s mf env :
  hoare F (ConnectionClass s mf env)
    (fun conn st => F st /\ (next_ref st0 <= conn)%nat) F.
Proof.
  intros st HF. simpl. destruct HF as (Hsame & Hle & Hheap).
  split; [|exact Hle]. split; [|split].
  - eapply same_manager_trans; [exact Hsame|]. repeat split.
  - simpl. lia.
  - intros c Hc. simpl. rewrite heap_update_other by lia. apply Hheap. exact Hc.
Qed.

Lemma hoare_from_server_socket_body env :
  hoare F (_from_server_socket_body errors server env) (fun _ => F) F.
Proof.
  unfold _from_server_socket_body.
  eapply hoare_bind; [apply hoare_lift_frame|]. intros [s addr].
  eapply hoare_bind with (Q1 := fun _ => F).
  { apply hoare_modify. intros st HF. destruct (stats_Enabled (stats st)); [|exact HF].
    revert st HF. apply accept_frame_step; intros; repeat split. }
  intros ?. eapply hoare_bind; [apply hoare_lift_frame|]. intros ?.
  eapply hoare_bind; [apply hoare_settimeout|]. intros ?.
  eapply hoare_bind with (Q1 := fun _ => F).
  { destruct (ssl_adapter server); [|apply hoare_ret; auto].
    eapply hoare_catch with (E1 := F); [| |auto].
    - eapply hoare_bind; [apply hoare_lift_frame|]. intros w.
      apply hoare_ret. auto.
    - intros e k. destruct e; try discriminate. intros H; inversion H.
      eapply hoare_bind; [apply hoare_send_no_ssl_response|].
      intros ?. apply hoare_ret. auto. }
  intros [[[s'|] ssl_env']|]; try (apply hoare_ret; auto).
  eapply hoare_bind with (Q1 := fun _ => F).
  { destruct (ssl_adapter server); [apply hoare_settimeout | apply hoare_ret; auto]. }
  intros ?. eapply hoare_bind; [apply hoare_ConnectionClass|].
  intros conn.
  eapply hoare_bind
    with (Q1 := fun _ st => F st /\ (next_ref st0 <= conn)%nat).
  { destruct (bind_addr server); [apply hoare_ret; auto|].
    eapply hoare_bind
      with (Q1 := fun _ st => F st /\ (next_ref st0 <= conn)%nat).
    - destruct addr; [apply hoare_ret; auto|].
      eapply hoare_bind
        with (Q1 := fun _ st => F st /\ (next_ref st0 <= conn)%nat).
      + apply hoare_lift. intros st [HF Hc]. auto.
      + intros n. destruct (Nat.eqb n 2); apply hoare_ret; auto.
    - intros a. apply hoare_modify. intros st [HF Hc].
      split; [|exact Hc]. apply accept_frame_update; assumption. }
  intros ?. eapply hoare_bind with (Q1 := fun _ => F).
  - apply hoare_modify. intros st [HF Hc]. apply accept_frame_update; assumption.
  - intros ?. apply hoare_ret. auto.
Qed.

Lemma hoare_from_server_socket env :
  hoare F (_from_server_socket errors server env) (fun _ => F) F.
Proof.
  unfold _from_server_socket. eapply hoare_catch with (E1 := F); [| |auto].
  - apply hoare_from_server_socket_body.
  - intros e k. destruct e as [| | | | |[|] arg0|]; try discriminate.
    + intros H; inversion H. apply hoare_ret. auto.
    + intros H; inversion H. eapply hoare_bind with (Q1 := fun _ => F).
      * apply hoare_modify. intros st HF.
        destruct (stats_Enabled (stats st)); [|exact HF].
        revert st HF. apply accept_frame_step; intros; repeat split.
      * intros ?. repeat (destruct (py_in _ _); [apply hoare_ret; auto|]).
        apply hoare_raise. auto.
Qed.

End AcceptFrame.

Lemma from_server_socket_frame errors server env st :
  accept_frame st (_from_server_socket errors server env st).2.
Proof.
  pose proof (hoare_from_server_socket errors server st env st) as H.
  assert (H0 : accept_frame st st).
  { split; [apply same_manager_refl|]. split; [lia | reflexivity]. }
  specialize (H H0).
  destruct (_from_server_socket errors server env st) as [[r| e |] st'];
    exact H.
Qed.

Lemma keeps_from_server_socket errors server env :
  keeps_manager (_from_server_socket errors server env).
Proof. intros st. apply from_server_socket_frame. Qed.

(** ** The connection count *)

Lemma count_ok_same_manager st st' :
  same_manager st st' -> count_ok st -> count_ok st'.
Proof.
  unfold same_manager, count_ok, managed_count, _get_selector_conns.
  intros (Hr & Hq & Hs & Hn & _) H. rewrite Hr, Hq, Hs, Hn. exact H.
Qed.

Lemma put_has_data conn now st :
  rfile_has_data (heap st conn) = true ->
  put conn now st =
    (Return tt,
     set_readable (_readable_conns st ++ [conn])
       (set_heap (heap_update conn (with_last_used now) (heap st))
          (set_num_conns (_num_conns st + 1) st))).
Proof.
  intros Hd. unfold put, bind, modify. simpl.
  rewrite heap_update_same. simpl. rewrite Hd. reflexivity.
Qed.

Lemma put_no_data conn now st :
  rfile_has_data (heap st conn) = false ->
  put conn now st =
    (Return tt,
     emit (EvCtrlSend x50)
       (set_ctrl_chan (ctrl_chan st ++ [x50])
          (set_put_q (_put_q st ++ [conn])
             (set_heap (heap_update conn (with_last_used now) (heap st))
                (set_num_conns (_num_conns st + 1) st))))).
Proof.
  intros Hd. unfold put, bind, modify. simpl.
  rewrite heap_update_same. simpl. rewrite Hd. reflexivity.
Qed.

Lemma count_ok_put conn now st : count_ok st -> count_ok (put conn now st).2.
Proof.
  intros H. destruct (rfile_has_data (heap st conn)) eqn:Hd.
  - rewrite (put_has_data _ _ _ Hd). unfold count_ok, managed_count in *.
    simpl. unfold _get_selector_conns in *. simpl.
    rewrite length_app. simpl. lia.
  - rewrite (put_no_data _ _ _ Hd). unfold count_ok, managed_count in *.
    simpl. unfold _get_selector_conns in *. simpl.
    rewrite length_app. simpl. lia.
Qed.

Lemma count_ok_pop st : count_ok st -> count_ok (_pop_readable_conn st).2.
Proof.
  intros H. unfold _pop_readable_conn.
  destruct (_readable_conns st) as [|conn rest] eqn:Hr; [exact H|].
  unfold count_ok, managed_count in *. simpl.
  unfold _get_selector_conns in *. simpl. rewrite Hr in H. simpl in H. lia.
Qed.

Lemma remove_conn_registered sock_fd conn st d :
  _selector st !! sock_fd = Some d ->
  _remove_conn sock_fd conn st =
    (Return tt,
     set_num_conns (_num_conns st - 1)
       (emit (EvConnClose conn)
          (set_heap (heap_update conn with_closed (heap st))
             (emit (EvUnregister sock_fd)
                (set_selector (delete sock_fd (_selector st)) st))))).
Proof.
  intros Hreg. unfold _remove_conn, bind, selector_unregister.
  rewrite Hreg. reflexivity.
Qed.

Lemma remove_conn_unregistered sock_fd conn st :
  _selector st !! sock_fd = None ->
  _remove_conn sock_fd conn st = (Raise KeyError, st).
Proof.
  intros Hreg. unfold _remove_conn, bind, selector_unregister.
  rewrite Hreg. reflexivity.
Qed.

Lemma count_ok_remove_conn sock_fd conn st :
  not_reserved st sock_fd = true ->
  count_ok st -> count_ok (_remove_conn sock_fd conn st).2.
Proof.
  unfold not_reserved. intros Hnr H.
  destruct (_selector st !! sock_fd) as [d|] eqn:Hreg.
  - rewrite (remove_conn_registered _ _ _ _ Hreg). simpl.
    destruct d as [| |c]; try discriminate.
    unfold count_ok, managed_count in *. unfold _get_selector_conns in *.
    simpl. pose proof (selector_conns_delete _ _ _ Hreg) as Hperm.
    apply Permutation_length in Hperm. simpl in Hperm. lia.
  - rewrite (remove_conn_unregistered _ _ _ Hreg). exact H.
Qed.

Lemma count_ok_remove_all l :
  forall st,
    NoDup l.*1 ->
    (forall fc, fc ∈ l -> _selector st !! fc.1 = Some (DConn fc.2)) ->
    count_ok st ->
    count_ok (for_each l (fun fc => _remove_conn fc.1 fc.2) st).2.
Proof.
  induction l as [|[fd c] l IH]; intros st Hnd Hreg H; [exact H|].
  inversion Hnd as [|? ? Hnotin Hnd']; subst.
  simpl. unfold bind.
  pose proof (Hreg (fd, c) ltac:(left)) as Hfd. simpl in Hfd.
  rewrite (remove_conn_registered _ _ _ _ Hfd).
  apply IH; [exact Hnd'| |].
  - intros fc Hin. simpl. rewrite lookup_delete_ne.
    + apply Hreg. right. exact Hin.
    + intros Heq. apply Hnotin. apply list_elem_of_fmap.
      exists fc. split; [exact Heq | exact Hin].
  - pose proof (count_ok_remove_conn fd c st) as Hrm.
    rewrite (remove_conn_registered _ _ _ _ Hfd) in Hrm. apply Hrm; [|exact H].
    unfold not_reserved. rewrite Hfd. reflexivity.
Qed.

Lemma filter_selector_conns_registered (p : Z * conn_ref -> bool) st fc :
  fc ∈ List.filter p (_get_selector_conns st) ->
  _selector st !! fc.1 = Some (DConn fc.2).
Proof.
  intros Hin. apply list_elem_of_In in Hin. apply filter_In in Hin as [Hin _].
  apply list_elem_of_In in Hin. destruct fc as [fd c].
  apply elem_of_selector_conns. exact Hin.
Qed.

Lemma NoDup_fst_filter (p : Z * conn_ref -> bool) (l : list (Z * conn_ref)) :
  NoDup l.*1 -> NoDup (List.filter p l).*1.
Proof.
  induction l as [|x l IH]; intros Hnd; simpl; [constructor|].
  inversion Hnd as [|? ? Hnotin Hnd']; subst.
  destruct (p x); simpl; [|auto].
  constructor; [|auto].
  intros Hin. apply Hnotin.
  apply list_elem_of_fmap in Hin as [y [Heq Hin]].
  apply list_elem_of_fmap. exists y. split; [exact Heq|].
  apply list_elem_of_In in Hin. apply filter_In in Hin as [Hin _].
  apply list_elem_of_In. exact Hin.
Qed.



(** ** The control message handler *)

Lemma put_q_registrable_spec st :
  put_q_registrable st = true <->
  NoDup (pending_fds st)
  /\ Forall (fun fd => 0 <= fd /\ _selector st !! fd = None) (pending_fds st).
Proof.
  unfold put_q_registrable. rewrite andb_true_iff, bool_decide_eq_true.
  rewrite forallb_forall, Forall_forall.
  split; intros [Hnd Hall]; (split; [exact Hnd|]); intros fd Hin.
  - apply list_elem_of_In in Hin. specialize (Hall fd Hin).
    apply andb_true_iff in Hall as [Hge Hfree].
    apply Z.leb_le in Hge. apply bool_decide_eq_true in Hfree. auto.
  - apply list_elem_of_In in Hin. destruct (Hall fd Hin) as [Hge Hfree].
    apply andb_true_iff. split; [apply Z.leb_le; exact Hge|].
    apply bool_decide_eq_true. exact Hfree.
Qed.

Lemma bytes_eqb_put b : bytes_eqb [b] _CTRL_MSG_PUT = true <-> b = x50.
Proof.
  unfold _CTRL_MSG_PUT. simpl. rewrite andb_true_r.
  split; [apply Byte.byte_dec_bl | intros ->; reflexivity].
Qed.

Lemma process_ctrl_msg_blocked st :
  ctrl_chan st = [] -> _process_ctrl_msg st = (Blocked, st).
Proof.
  intros Hc. unfold _process_ctrl_msg, bind, ctrl_recv1. rewrite Hc. reflexivity.
Qed.

Lemma process_ctrl_msg_other b rest st :
  ctrl_chan st = b :: rest -> b <> x50 ->
  _process_ctrl_msg st = (Return tt, after_recv rest st).
Proof.
  intros Hc Hb. unfold _process_ctrl_msg, bind, ctrl_recv1. rewrite Hc.
  destruct (bytes_eqb [b] _CTRL_MSG_PUT) eqn:E; [|reflexivity].
  apply bytes_eqb_put in E. contradiction.
Qed.

Lemma process_ctrl_msg_empty_q rest st :
  ctrl_chan st = x50 :: rest -> _put_q st = [] ->
  _process_ctrl_msg st = (Raise IndexError, after_recv rest st).
Proof.
  intros Hc Hq. unfold _process_ctrl_msg, bind, ctrl_recv1. rewrite Hc.
  simpl. rewrite Hq. reflexivity.
Qed.

Lemma process_ctrl_msg_register rest conn q st :
  ctrl_chan st = x50 :: rest -> _put_q st = conn :: q ->
  _process_ctrl_msg st =
    selector_register (conn_fileno (heap st conn)) (DConn conn)
      (set_put_q q (after_recv rest st)).
Proof.
  intros Hc Hq. unfold _process_ctrl_msg, bind, ctrl_recv1. rewrite Hc.
  simpl. rewrite Hq. reflexivity.
Qed.

Lemma selector_register_free fd d st :
  0 <= fd -> _selector st !! fd = None ->
  selector_register fd d st =
    (Return tt, emit (EvRegister fd d) (set_selector (<[fd := d]> (_selector st)) st)).
Proof.
  intros Hge Hfree. unfold selector_register.
  destruct (fd <? 0) eqn:E; [apply Z.ltb_lt in E; lia|].
  rewrite Hfree. reflexivity.
Qed.

(** With a registrable queue, the handler moves the head of [_put_q] into
    the selector. *)
Lemma process_ctrl_msg_moves rest conn q st :
  put_q_registrable st = true ->
  ctrl_chan st = x50 :: rest -> _put_q st = conn :: q ->
  _process_ctrl_msg st =
    (Return tt,
     emit (EvRegister (conn_fileno (heap st conn)) (DConn conn))
       (set_selector (<[conn_fileno (heap st conn) := DConn conn]> (_selector st))
          (set_put_q q (after_recv rest st)))).
Proof.
  intros Hreg Hc Hq. rewrite (process_ctrl_msg_register _ _ _ _ Hc Hq).
  apply put_q_registrable_spec in Hreg as [_ Hall].
  unfold pending_fds in Hall. rewrite Hq in Hall. simpl in Hall.
  inversion Hall as [|? ? [Hge Hfree] _]; subst.
  rewrite selector_register_free; [reflexivity | exact Hge | exact Hfree].
Qed.

Lemma put_q_registrable_tail conn q st (st' : state) :
  put_q_registrable st = true ->
  _put_q st = conn :: q ->
  _put_q st' = q -> heap st' = heap st ->
  _selector st' = <[conn_fileno (heap st conn) := DConn conn]> (_selector st) ->
  put_q_registrable st' = true.
Proof.
  intros Hreg Hq Hq' Hh Hs. apply put_q_registrable_spec.
  apply put_q_registrable_spec in Hreg as [Hnd Hall].
  unfold pending_fds in *. rewrite Hq', Hh, Hs. rewrite Hq in Hnd, Hall.
  simpl in Hnd, Hall.
  inversion Hnd as [|? ? Hnotin Hnd']; subst.
  inversion Hall as [|? ? _ Hall']; subst.
  split; [exact Hnd'|].
  rewrite Forall_forall in Hall'. apply Forall_forall. intros fd Hin.
  destruct (Hall' fd Hin) as [Hge Hfree]. split; [exact Hge|].
  rewrite lookup_insert_ne; [exact Hfree|].
  intros Heq. apply Hnotin. rewrite Heq. exact Hin.
Qed.

Lemma count_ok_process_ctrl_msg st :
  put_q_registrable st = true ->
  count_ok st -> count_ok (_process_ctrl_msg st).2.
Proof.
  intros Hreg H.
  destruct (ctrl_chan st) as [|b rest] eqn:Hc.
  { rewrite (process_ctrl_msg_blocked _ Hc). exact H. }
  destruct (Byte.byte_eq_dec b x50) as [->|Hb].
  2:{ rewrite (process_ctrl_msg_other _ _ _ Hc Hb). exact H. }
  destruct (_put_q st) as [|conn q] eqn:Hq.
  { rewrite (process_ctrl_msg_empty_q _ _ Hc Hq). exact H. }
  rewrite (process_ctrl_msg_moves _ _ _ _ Hreg Hc Hq).
  apply put_q_registrable_spec in Hreg as [_ Hall].
  unfold pending_fds in Hall. rewrite Hq in Hall.
  inversion Hall as [|? ? [_ Hfree] _]; subst.
  unfold count_ok, managed_count, _get_selector_conns in *. simpl.
  pose proof (selector_conns_insert _ _ (DConn conn) Hfree) as Hperm.
  apply Permutation_length in Hperm. rewrite Hq in H. simpl in *. lia.
Qed.

(** ** The readiness loop keeps the count *)

Section GetConnCount.

Variable errors : errors_module.
Variable server : HTTPServer.

Lemma key_consistent_after_register st st' conn q key :
  put_q_registrable st = true ->
  _put_q st = conn :: q ->
  _put_q st' = q -> heap st' = heap st ->
  _selector st' = <[conn_fileno (heap st conn) := DConn conn]> (_selector st) ->
  key_consistent st key -> key_consistent st' key.
Proof.
  intros Hreg Hq Hq' Hh Hs Hk.
  apply put_q_registrable_spec in Hreg as [Hnd Hall].
  unfold key_consistent, pending_fds in *. rewrite Hq', Hh, Hs.
  rewrite Hq in Hnd, Hall, Hk. simpl in Hnd, Hall, Hk.
  inversion Hall as [|? ? [_ Hfree] _]; subst.
  destruct Hk as [Hk|[Hk Hnotin]].
  - left. rewrite lookup_insert_ne; [exact Hk|]. congruence.
  - right. rewrite not_elem_of_cons in Hnotin. destruct Hnotin as [Hne Hnotin].
    split; [|exact Hnotin]. rewrite lookup_insert_ne; [exact Hk|]. congruence.
Qed.

Lemma key_consistent_after_unregister st st' fd d key :
  put_q_registrable st = true ->
  _selector st !! fd = Some d ->
  _put_q st' = _put_q st -> heap st' = heap st ->
  _selector st' = delete fd (_selector st) ->
  key_consistent st key -> key_consistent st' key.
Proof.
  intros Hreg Hfd Hq Hh Hs Hk.
  apply put_q_registrable_spec in Hreg as [_ Hall].
  unfold key_consistent, pending_fds in *. rewrite Hq, Hh, Hs.
  destruct (decide (key_fd key = fd)) as [Heq|Hne].
  - right. rewrite Heq, lookup_delete_eq. split; [reflexivity|].
    intros Hin. rewrite Forall_forall in Hall.
    destruct (Hall fd Hin) as [_ Hfree]. congruence.
  - rewrite lookup_delete_ne by congruence. exact Hk.
Qed.

Lemma put_q_registrable_after_unregister st st' fd :
  put_q_registrable st = true ->
  _put_q st' = _put_q st -> heap st' = heap st ->
  _selector st' = delete fd (_selector st) ->
  put_q_registrable st' = true.
Proof.
  intros Hreg Hq Hh Hs. apply put_q_registrable_spec.
  apply put_q_registrable_spec in Hreg as [Hnd Hall].
  unfold pending_fds in *. rewrite Hq, Hh, Hs. split; [exact Hnd|].
  eapply Forall_impl; [exact Hall|]. simpl. intros fd' [Hge Hfree].
  split; [exact Hge|]. apply lookup_delete_None. right. exact Hfree.
Qed.


Lemma select_sound_consistent st env rlist :
  select_result env = Return rlist -> select_sound st env = true ->
  Forall (key_consistent st) rlist.
Proof.
  unfold select_sound. intros -> Hs. rewrite forallb_forall in Hs.
  apply Forall_forall. intros k Hin. left.
  apply list_elem_of_In in Hin. specialize (Hs k Hin).
  unfold key_registered in Hs. apply bool_decide_eq_true in Hs. exact Hs.
Qed.


End GetConnCount.

(** ** [put] *)


(** ** Keep-alive admission *)

(** C4: [can_add_keepalive_connection] is true exactly when no cap is
    configured or the count is strictly below the cap: with cap [N] it is
    true for every count below [N] and false at [N]; without a cap it is
    true for every count. *)
Theorem can_add_keepalive_connection_spec (server : HTTPServer) (st : state) :
  (can_add_keepalive_connection server st = true <->
   keep_alive_conn_limit server = None
   \/ exists N, keep_alive_conn_limit server = Some N /\ _num_conns st < N)
  /\ (forall N, keep_alive_conn_limit server = Some N ->
        (_num_conns st < N -> can_add_keepalive_connection server st = true)
        /\ (_num_conns st = N -> can_add_keepalive_connection server st = false))
  /\ (keep_alive_conn_limit server = None ->
        can_add_keepalive_connection server st = true).
Proof.
  unfold can_add_keepalive_connection.
  destruct (keep_alive_conn_limit server) as [ka_limit|].
  - split; [|split].
    + rewrite Z.ltb_lt. split.
      * intros Hlt. right. exists ka_limit. split; [reflexivity | exact Hlt].
      * intros [Hnone|[N [HN Hlt]]]; [discriminate|].
        inversion HN; subst. exact Hlt.
    + intros N HN. inversion HN; subst. split.
      * apply Z.ltb_lt.
      * intros ->. apply Z.ltb_irrefl.
    + discriminate.
  - split; [|split].
    + split; [left; reflexivity | reflexivity].
    + discriminate.
    + reflexivity.
Qed.

Lemma can_add_keepalive_connection_spec_witness :
  (_num_conns example_init < 2 ->
   can_add_keepalive_connection example_server example_init = true)
  /\ (_num_conns example_state = 3)
  /\ can_add_keepalive_connection example_server example_state = false.
Proof.
  pose proof (can_add_keepalive_connection_spec example_server example_init)
    as (_ & Hcap & _).
  split; [exact (proj1 (Hcap 2 eq_refl))|].
  split; reflexivity.
Defined.

(** ** Buffered input bypasses the selector *)

(** C5: [put] of a connection with buffered input followed by [get_conn],
    the readable queue being empty before, gives that connection back;
    [select] is not called (no call is logged, and the answer does not
    depend on what [select] would have done); the count is what it was. *)
Theorem put_get_conn_bypass errors server env (conn : conn_ref) (now : Q)
    (st : state) :
  rfile_has_data (heap st conn) = true ->
  _readable_conns st = [] ->
  let r := get_conn errors server env (put conn now st).2 in
  r.1 = Return (Some conn)
  /\ _num_conns r.2 = _num_conns st
  /\ log r.2 = log st
  /\ _selector r.2 = _selector st
  /\ _readable_conns r.2 = []
  /\ _put_q r.2 = _put_q st.
Proof.
  intros Hd Hr. rewrite (put_has_data _ _ _ Hd). simpl.
  unfold get_conn, catch, bind, _pop_readable_conn. simpl.
  rewrite Hr. simpl. repeat split. lia.
Qed.

Lemma put_get_conn_bypass_witness :
  let env := {| select_result := Raise OtherError; fstat_fails := fun _ => true;
                accept_calls := example_accept_env |} in
  let r := get_conn example_errors example_server env
             (put 2%nat 8%Q example_state).2 in
  r.1 = Return (Some 2%nat) /\ _num_conns r.2 = _num_conns example_state
  /\ log r.2 = log example_state.
Proof.
  intros env.
  pose proof (put_get_conn_bypass example_errors example_server env 2%nat 8%Q
                example_state eq_refl eq_refl) as (H1 & H2 & H3 & _).
  split; [exact H1|]. split; [exact H2 | exact H3].
Defined.

(** ** The eviction sweep *)

Lemma Qltb_lt a b : Qltb a b = true <-> (a < b)%Q.
Proof.
  unfold Qltb. rewrite negb_true_iff. split.
  - intros Hle. apply Qnot_le_lt. intros H. apply Qle_bool_iff in H. congruence.
  - intros Hlt. destruct (Qle_bool b a) eqn:E; [|reflexivity].
    apply Qle_bool_iff in E. exfalso. exact (Qlt_not_le _ _ Hlt E).
Qed.

(** Removing a list of registered connections, one [_remove_conn] each. *)
Lemma remove_all_spec l :
  forall st,
    NoDup l.*1 ->
    (forall fc, fc ∈ l -> _selector st !! fc.1 = Some (DConn fc.2)) ->
    let r := for_each l (fun fc => _remove_conn fc.1 fc.2) st in
    r.1 = Return tt
    /\ (forall fd, _selector r.2 !! fd =
                  if bool_decide (fd ∈ l.*1) then None else _selector st !! fd)
    /\ _num_conns r.2 = _num_conns st - Z.of_nat (length l)
    /\ _readable_conns r.2 = _readable_conns st
    /\ _put_q r.2 = _put_q st
    /\ ctrl_chan r.2 = ctrl_chan st
    /\ (forall c, heap r.2 c =
                 if bool_decide (c ∈ l.*2) then with_closed (heap st c)
                 else heap st c)
    /\ log r.2 = log st ++ flat_map (fun fc => [EvUnregister fc.1; EvConnClose fc.2]) l.
Proof.
  induction l as [|[fd c] l IH]; intros st Hnd Hreg.
  { simpl. repeat split; try reflexivity; try lia.
    symmetry. apply app_nil_r. }
  inversion Hnd as [|? ? Hnotin Hnd']; subst.
  pose proof (Hreg (fd, c) ltac:(left)) as Hfd. simpl in Hfd.
  simpl. unfold bind. rewrite (remove_conn_registered _ _ _ _ Hfd).
  match goal with
  | |- context [for_each l _ ?st1] =>
      specialize (IH st1 Hnd'); set (s1 := st1) in *
  end.
  assert (Hreg1 : forall fc, fc ∈ l -> _selector s1 !! fc.1 = Some (DConn fc.2)).
  { intros fc Hin. subst s1. simpl. rewrite lookup_delete_ne.
    - apply Hreg. right. exact Hin.
    - intros Heq. apply Hnotin. apply list_elem_of_fmap.
      exists fc. split; [exact Heq | exact Hin]. }
  destruct (IH Hreg1) as (Hret & Hsel & Hnum & Hr & Hq & Hc & Hheap & Hlog).
  change (list_fmap (Z * conn_ref)%type Z fst l) with (l.*1) in *.
  change (list_fmap (Z * conn_ref)%type conn_ref snd l) with (l.*2) in *.
  split; [exact Hret|].
  split.
  { intros fd'. rewrite Hsel. subst s1. simpl.
    destruct (decide (fd' = fd)) as [->|Hne].
    - rewrite lookup_delete_eq.
      rewrite (bool_decide_eq_true_2 (fd ∈ fd :: l.*1)) by left.
      destruct (bool_decide (fd ∈ l.*1)); reflexivity.
    - rewrite lookup_delete_ne by congruence.
      destruct (bool_decide (fd' ∈ l.*1)) eqn:E.
      + apply bool_decide_eq_true in E.
        rewrite (bool_decide_eq_true_2 (fd' ∈ fd :: l.*1)) by (right; exact E).
        reflexivity.
      + apply bool_decide_eq_false in E.
        rewrite (bool_decide_eq_false_2 (fd' ∈ fd :: l.*1)); [reflexivity|].
        rewrite not_elem_of_cons. split; assumption. }
  split.
  { rewrite Hnum. subst s1. simpl. lia. }
  split; [rewrite Hr; reflexivity|].
  split; [rewrite Hq; reflexivity|].
  split; [rewrite Hc; reflexivity|].
  split.
  { intros c'. rewrite Hheap. subst s1. simpl.
    destruct (decide (c' = c)) as [->|Hne].
    - rewrite heap_update_same.
      rewrite (bool_decide_eq_true_2 (c ∈ c :: l.*2)) by left.
      destruct (bool_decide (c ∈ l.*2)); reflexivity.
    - rewrite heap_update_other by exact Hne.
      destruct (bool_decide (c' ∈ l.*2)) eqn:E.
      + apply bool_decide_eq_true in E.
        rewrite (bool_decide_eq_true_2 (c' ∈ c :: l.*2)) by (right; exact E).
        reflexivity.
      + apply bool_decide_eq_false in E.
        rewrite (bool_decide_eq_false_2 (c' ∈ c :: l.*2)); [reflexivity|].
        rewrite not_elem_of_cons. split; assumption. }
  rewrite Hlog. subst s1. simpl. rewrite <- !app_assoc. reflexivity.
Qed.

Lemma elem_of_timed_out threshold st fd conn :
  (fd, conn) ∈ timed_out_connections threshold st <->
  _selector st !! fd = Some (DConn conn)
  /\ (last_used (heap st conn) < threshold)%Q.
Proof.
  unfold timed_out_connections, _get_selector_conns.
  rewrite list_elem_of_In, filter_In, <- list_elem_of_In.
  rewrite elem_of_selector_conns. simpl. rewrite Qltb_lt. reflexivity.
Qed.

Lemma NoDup_fst_timed_out threshold st :
  NoDup (timed_out_connections threshold st).*1.
Proof.
  unfold timed_out_connections, _get_selector_conns.
  apply NoDup_fst_filter. apply NoDup_fst_selector_conns.
Qed.

Lemma expire_removes_timed_out server now st :
  let threshold := (now - timeout server)%Q in
  let evicted := timed_out_connections threshold st in
  let r := expire server now st in
  r.1 = Return tt
  /\ (forall fd, _selector r.2 !! fd =
                if bool_decide (fd ∈ evicted.*1) then None else _selector st !! fd)
  /\ _num_conns r.2 = _num_conns st - Z.of_nat (length evicted)
  /\ _readable_conns r.2 = _readable_conns st
  /\ _put_q r.2 = _put_q st
  /\ ctrl_chan r.2 = ctrl_chan st
  /\ (forall c, heap r.2 c =
               if bool_decide (c ∈ evicted.*2) then with_closed (heap st c)
               else heap st c)
  /\ log r.2 = log st ++ flat_map (fun fc => [EvUnregister fc.1; EvConnClose fc.2]) evicted.
Proof.
  intros threshold evicted. unfold expire. fold threshold. fold evicted.
  apply remove_all_spec.
  - apply NoDup_fst_timed_out.
  - intros [fd c] Hin. apply elem_of_timed_out in Hin as [Hreg _]. exact Hreg.
Qed.

(** C3: [expire()] returns normally; it unregisters a registered client
    connection exactly when its [last_used] is strictly below
    [now - timeout]: one stamped exactly [now - timeout] stays registered and
    untouched.  Each evicted registration is unregistered once, its
    connection closed, and the count goes down by the number of evicted
    registrations; the registrations of the listening socket and of the
    control pair stay. *)
Theorem expire_evicts_strictly_older (server : HTTPServer) (now : Q) (st : state) :
  let threshold := (now - timeout server)%Q in
  let evicted := timed_out_connections threshold st in
  let r := expire server now st in
  r.1 = Return tt
  /\ (forall fd conn,
        _selector st !! fd = Some (DConn conn) ->
        (_selector r.2 !! fd = None <-> (last_used (heap st conn) < threshold)%Q)
        /\ ((last_used (heap st conn) < threshold)%Q ->
            conn_closed (heap r.2 conn) = true
            /\ EvUnregister fd ∈ log r.2 /\ EvConnClose conn ∈ log r.2)
        /\ (~ (last_used (heap st conn) < threshold)%Q ->
            _selector r.2 !! fd = Some (DConn conn)
            /\ heap r.2 conn = heap st conn)
        /\ ((last_used (heap st conn) == threshold)%Q ->
            _selector r.2 !! fd = Some (DConn conn)
            /\ heap r.2 conn = heap st conn))
  /\ (forall fd d,
        _selector st !! fd = Some d -> d = DServer \/ d = DCtrlRx ->
        _selector r.2 !! fd = Some d)
  /\ _num_conns r.2 = _num_conns st - Z.of_nat (length evicted)
  /\ NoDup evicted.*1
  /\ (forall fd conn,
        (fd, conn) ∈ evicted <->
        _selector st !! fd = Some (DConn conn)
        /\ (last_used (heap st conn) < threshold)%Q).
Proof.
  intros threshold evicted r.
  destruct (expire_removes_timed_out server now st)
    as (Hret & Hsel & Hnum & _ & _ & _ & Hheap & Hlog).
  fold threshold in Hsel, Hnum, Hheap, Hlog.
  fold evicted in Hsel, Hnum, Hheap, Hlog. fold r in Hret, Hsel, Hnum, Hheap, Hlog.
  assert (Hout : forall fd conn,
             _selector st !! fd = Some (DConn conn) ->
             (last_used (heap st conn) < threshold)%Q ->
             (fd, conn) ∈ evicted).
  { intros fd conn Hreg Hlt. apply elem_of_timed_out. split; assumption. }
  assert (Hkeep : forall fd conn,
             _selector st !! fd = Some (DConn conn) ->
             ~ (last_used (heap st conn) < threshold)%Q ->
             _selector r.2 !! fd = Some (DConn conn)
             /\ heap r.2 conn = heap st conn).
  { intros fd conn Hreg Hnlt. split.
    - rewrite Hsel. rewrite bool_decide_eq_false_2; [exact Hreg|].
      intros Hin. apply list_elem_of_fmap in Hin as [[fd' c'] [Heq Hin]].
      simpl in Heq. subst fd'.
      apply elem_of_timed_out in Hin as [Hreg' Hlt].
      rewrite Hreg in Hreg'. inversion Hreg'; subst. contradiction.
    - rewrite Hheap. rewrite bool_decide_eq_false_2; [reflexivity|].
      intros Hin. apply list_elem_of_fmap in Hin as [[fd' c'] [Heq Hin]].
      simpl in Heq. subst c'.
      apply elem_of_timed_out in Hin as [_ Hlt]. contradiction. }
  split; [exact Hret|].
  split.
  { intros fd conn Hreg. split; [|split; [|split]].
    - split.
      + intros Hnone. destruct (Qlt_le_dec (last_used (heap st conn)) threshold)
          as [Hlt|Hle]; [exact Hlt|].
        destruct (Hkeep fd conn Hreg (Qle_not_lt _ _ Hle)) as [Hstill _].
        congruence.
      + intros Hlt. rewrite Hsel. rewrite bool_decide_eq_true_2; [reflexivity|].
        apply list_elem_of_fmap. exists (fd, conn). split; [reflexivity|].
        apply Hout; assumption.
    - intros Hlt. pose proof (Hout fd conn Hreg Hlt) as Hin. split; [|split].
      + rewrite Hheap. rewrite bool_decide_eq_true_2; [reflexivity|].
        apply list_elem_of_fmap. exists (fd, conn). split; [reflexivity|exact Hin].
      + rewrite Hlog. apply elem_of_app. right.
        apply list_elem_of_In, in_flat_map. exists (fd, conn).
        split; [apply list_elem_of_In; exact Hin | left; reflexivity].
      + rewrite Hlog. apply elem_of_app. right.
        apply list_elem_of_In, in_flat_map. exists (fd, conn).
        split; [apply list_elem_of_In; exact Hin | right; left; reflexivity].
    - apply Hkeep. exact Hreg.
    - intros Heq. apply Hkeep; [exact Hreg|].
      intros Hlt. rewrite Heq in Hlt. exact (Qlt_irrefl _ Hlt). }
  split.
  { intros fd d Hreg Hd. rewrite Hsel. rewrite bool_decide_eq_false_2; [exact Hreg|].
    intros Hin. apply list_elem_of_fmap in Hin as [[fd' c'] [Heq Hin]].
    simpl in Heq. subst fd'.
    apply elem_of_timed_out in Hin as [Hreg' _].
    rewrite Hreg in Hreg'. inversion Hreg'; subst. destruct Hd; discriminate. }
  split; [exact Hnum|].
  split; [apply NoDup_fst_timed_out|].
  intros fd conn. apply elem_of_timed_out.
Qed.

(** Connection 1, registered under descriptor 11 and stamped 5, with a
    timeout of 10: kept at time 15, evicted one millisecond later. *)
Lemma expire_evicts_strictly_older_witness :
  _selector (expire example_server 15%Q example_state).2 !! 11
    = Some (DConn 1%nat)
  /\ _selector (expire example_server (15 + (1 # 1000))%Q example_state).2 !! 11
    = None.
Proof.
  split.
  - pose proof (expire_evicts_strictly_older example_server 15%Q example_state)
      as (_ & H & _).
    destruct (H 11 1%nat eq_refl) as (_ & _ & _ & Hat).
    apply Hat. vm_compute. reflexivity.
  - pose proof (expire_evicts_strictly_older example_server (15 + (1 # 1000))%Q
                  example_state) as (_ & H & _).
    destruct (H 11 1%nat eq_refl) as (Hiff & _).
    apply Hiff. vm_compute. reflexivity.
Defined.

(** ** Shutdown *)

Lemma close_all_spec {A} (g : A -> conn_ref) (l : list A) :
  forall st,
    let r := for_each l (fun x => conn_close (g x)) st in
    r.1 = Return tt
    /\ same_manager st r.2
    /\ (forall c, heap r.2 c =
                 if bool_decide (c ∈ g <$> l) then with_closed (heap st c)
                 else heap st c)
    /\ log r.2 = log st ++ ((fun x => EvConnClose (g x)) <$> l).
Proof.
  induction l as [|x l IH]; intros st.
  { simpl. repeat split; try reflexivity. symmetry. apply app_nil_r. }
  set (s1 := emit (EvConnClose (g x))
               (set_heap (heap_update (g x) with_closed (heap st)) st)).
  change (for_each (x :: l) (fun x => conn_close (g x)) st)
    with (for_each l (fun x => conn_close (g x)) s1).
  specialize (IH s1). cbv zeta in *.
  destruct IH as (Hret & Hsame & Hheap & Hlog).
  split; [exact Hret|].
  split.
  { eapply same_manager_trans; [|exact Hsame]. subst s1. repeat split. }
  split.
  { intros c. rewrite Hheap. subst s1. cbn [heap emit set_heap].
    rewrite fmap_cons.
    destruct (decide (c = g x)) as [->|Hne].
    - rewrite heap_update_same.
      rewrite (bool_decide_eq_true_2 (g x ∈ g x :: (g <$> l))) by left.
      destruct (bool_decide (g x ∈ g <$> l)); reflexivity.
    - rewrite heap_update_other by exact Hne.
      destruct (bool_decide (c ∈ g <$> l)) eqn:E.
      + apply bool_decide_eq_true in E.
        rewrite (bool_decide_eq_true_2 (c ∈ g x :: (g <$> l))) by (right; exact E).
        reflexivity.
      + apply bool_decide_eq_false in E.
        rewrite (bool_decide_eq_false_2 (c ∈ g x :: (g <$> l))); [reflexivity|].
        rewrite not_elem_of_cons. split; assumption. }
  rewrite Hlog. subst s1. cbn [log emit set_heap]. rewrite fmap_cons.
  rewrite <- app_assoc. reflexivity.
Qed.

Lemma close_eq (st : state) :
  let s1 := (for_each (_readable_conns st) conn_close st).2 in
  let s2 := set_readable [] s1 in
  let s3 := (for_each (_get_selector_conns s2) (fun fc => conn_close fc.2) s2).2 in
  close st =
    (Return tt,
     emit EvSelectorClose
       (set_selector ∅ (emit EvCtrlRxClose (emit EvCtrlTxClose s3)))).
Proof.
  cbv zeta. unfold close, bind.
  pose proof (close_all_spec (fun c => c) (_readable_conns st) st) as H1.
  cbv zeta in H1. destruct H1 as (Hret1 & _).
  change (for_each (_readable_conns st) (fun x => conn_close x) st)
    with (for_each (_readable_conns st) conn_close st) in Hret1.
  destruct (for_each (_readable_conns st) conn_close st) as [o1 s1].
  simpl in Hret1. subst o1. unfold modify at 1. cbn [snd].
  pose proof (close_all_spec snd (_get_selector_conns (set_readable [] s1))
                (set_readable [] s1)) as H2.
  cbv zeta in H2. destruct H2 as (Hret2 & _).
  destruct (for_each (_get_selector_conns (set_readable [] s1))
              (fun fc => conn_close fc.2) (set_readable [] s1)) as [o2 s3].
  simpl in Hret2. subst o2. reflexivity.
Qed.

(** C10: [close()] closes every connection of the readable queue and every
    client connection registered with the selector, and empties the readable
    queue.  The pending-put queue is left as it is, and so is the counter; a
    connection that is in neither the readable queue nor the selector, as
    one waiting in [_put_q] is, is not touched: no [close] is called on it. *)
Theorem close_leaves_put_q (st : state) :
  let r := close st in
  r.1 = Return tt
  /\ (forall c, c ∈ _readable_conns st -> conn_closed (heap r.2 c) = true)
  /\ (forall fd c, _selector st !! fd = Some (DConn c) ->
                  conn_closed (heap r.2 c) = true)
  /\ _readable_conns r.2 = []
  /\ _put_q r.2 = _put_q st
  /\ _num_conns r.2 = _num_conns st
  /\ ctrl_chan r.2 = ctrl_chan st
  /\ (forall c, c ∉ _readable_conns st ->
               (forall fd, _selector st !! fd <> Some (DConn c)) ->
               heap r.2 c = heap st c
               /\ (EvConnClose c ∈ log r.2 -> EvConnClose c ∈ log st)).
Proof.
  intros r. subst r. rewrite (close_eq st). cbn [fst snd].
  pose proof (close_all_spec (fun c => c) (_readable_conns st) st) as H1.
  cbv zeta in H1.
  change (for_each (_readable_conns st) (fun x => conn_close x) st)
    with (for_each (_readable_conns st) conn_close st) in H1.
  set (s1 := (for_each (_readable_conns st) conn_close st).2) in *.
  destruct H1 as (_ & Hsame1 & Hheap1 & Hlog1).
  pose proof (close_all_spec snd (_get_selector_conns (set_readable [] s1))
                (set_readable [] s1)) as H2.
  cbv zeta in H2.
  set (s3 := (for_each (_get_selector_conns (set_readable [] s1))
                (fun fc => conn_close fc.2) (set_readable [] s1)).2) in *.
  destruct H2 as (_ & Hsame2 & Hheap2 & Hlog2).
  destruct Hsame1 as (Hr1 & Hq1 & Hs1 & Hn1 & Hc1).
  destruct Hsame2 as (Hr2 & Hq2 & Hs2 & Hn2 & Hc2).
  simpl in Hr2, Hq2, Hs2, Hn2, Hc2, Hheap2, Hlog2. simpl.
  assert (Hconns : forall c,
             c ∈ (_get_selector_conns (set_readable [] s1)).*2 <->
             exists fd, _selector st !! fd = Some (DConn c)).
  { intros c. unfold _get_selector_conns. simpl. rewrite Hs1.
    rewrite list_elem_of_fmap. split.
    - intros [[fd c'] [Heq Hin]]. simpl in Heq. subst c'.
      exists fd. apply elem_of_selector_conns. exact Hin.
    - intros [fd Hreg]. exists (fd, c). split; [reflexivity|].
      apply elem_of_selector_conns. exact Hreg. }
  split; [reflexivity|].
  split.
  { intros c Hin. rewrite Hheap2, Hheap1.
    rewrite list_fmap_id. rewrite (bool_decide_eq_true_2 _ Hin).
    destruct (bool_decide _); reflexivity. }
  split.
  { intros fd c Hreg. rewrite Hheap2.
    rewrite bool_decide_eq_true_2; [reflexivity|].
    apply Hconns. exists fd. exact Hreg. }
  split; [exact Hr2|].
  split; [congruence|].
  split; [congruence|].
  split; [congruence|].
  intros c Hnr Hns.
  assert (Hnc : c ∉ (_get_selector_conns (set_readable [] s1)).*2).
  { intros Hin. apply Hconns in Hin as [fd Hreg]. exact (Hns fd Hreg). }
  split.
  - rewrite Hheap2, Hheap1. rewrite list_fmap_id.
    rewrite (bool_decide_eq_false_2 _ Hnc), (bool_decide_eq_false_2 _ Hnr).
    reflexivity.
  - rewrite Hlog2, Hlog1. rewrite !elem_of_app. rewrite !elem_of_cons.
    rewrite !list_elem_of_fmap.
    intros [[[[[Hin|[c' [Heq Hin]]]|[[fd c'] [Heq Hin]]]|Hx]|Hx]|Hx];
      try (destruct Hx as [Hx|Hx]; [discriminate | inversion Hx]).
    + exact Hin.
    + inversion Heq; subst. contradiction.
    + inversion Heq; subst. exfalso. apply Hnc.
      apply list_elem_of_fmap. exists (fd, c'). split; [reflexivity | exact Hin].
Qed.

(** Connection 5 waits in [_put_q]: after [close()] it is still there, not
    closed, and the counter still reads 3. *)
Lemma close_leaves_put_q_witness :
  let r := close example_state in
  _put_q r.2 = [5%nat] /\ conn_closed (heap r.2 5%nat) = false
  /\ _num_conns r.2 = 3 /\ conn_closed (heap r.2 1%nat) = true.
Proof.
  pose proof (close_leaves_put_q example_state)
    as (_ & _ & Hsel & _ & Hq & Hn & _ & Hkeep).
  split; [exact Hq|]. split; [|split; [exact Hn|]].
  - assert (H5 : 5%nat ∉ _readable_conns example_state).
    { vm_compute. apply not_elem_of_nil. }
    assert (H5' : forall fd, _selector example_state !! fd <> Some (DConn 5%nat)).
    { intros fd Hreg. apply elem_of_selector_conns in Hreg.
      vm_compute in Hreg.
      repeat (apply elem_of_cons in Hreg as [Hreg|Hreg]; [discriminate|]).
      inversion Hreg. }
    destruct (Hkeep 5%nat H5 H5') as [Hheap _].
    rewrite Hheap. reflexivity.
  - exact (Hsel 11 1%nat eq_refl).
Defined.

(** ** The control channel and the pending-put queue *)

Section Preserves.

Variable P : state -> Prop.

Lemma preserves_ret {A} (a : A) : preserves P (ret a).
Proof. intros st H. exact H. Qed.

Lemma preserves_raise {A} e : preserves P (@raise A e).
Proof. intros st H. exact H. Qed.

Lemma preserves_lift {A} (o : outcome A) : preserves P (lift o).
Proof. intros st H. exact H. Qed.

Lemma preserves_modify f : (forall st, P st -> P (f st)) -> preserves P (modify f).
Proof. intros Hf st H. apply Hf. exact H. Qed.

Lemma preserves_bind {A B} (m : M A) (k : A -> M B) :
  preserves P m -> (forall a, preserves P (k a)) -> preserves P (bind m k).
Proof.
  intros Hm Hk st H. unfold bind. specialize (Hm st H).
  destruct (m st) as [[a| e |] st']; simpl in *; try exact Hm.
  apply Hk. exact Hm.
Qed.

Lemma preserves_catch {A} (m : M A) h :
  preserves P m -> (forall e k, h e = Some k -> preserves P k) ->
  preserves P (catch m h).
Proof.
  intros Hm Hh st H. unfold catch. specialize (Hm st H).
  destruct (m st) as [[a| e |] st']; simpl in *; try exact Hm.
  destruct (h e) as [k|] eqn:He; simpl; [|exact Hm].
  eapply Hh; eauto.
Qed.

Lemma preserves_for_each {A} (l : list A) (body : A -> M unit) :
  (forall x, preserves P (body x)) -> preserves P (for_each l body).
Proof.
  intros Hbody. induction l as [|x l IH]; simpl.
  - apply preserves_ret.
  - apply preserves_bind; [apply Hbody | intros _; exact IH].
Qed.

End Preserves.

Lemma ctrl_in_sync_ext st st' :
  _put_q st' = _put_q st -> ctrl_chan st' = ctrl_chan st ->
  ctrl_in_sync st -> ctrl_in_sync st'.
Proof. unfold ctrl_in_sync. intros -> ->. auto. Qed.

Lemma ctrl_in_sync_keeps_manager {A} (m : M A) :
  keeps_manager m -> preserves ctrl_in_sync m.
Proof.
  intros Hm st H. destruct (Hm st) as (_ & Hq & _ & _ & Hc).
  eapply ctrl_in_sync_ext; eauto.
Qed.

Lemma ctrl_in_sync_unregister fd : preserves ctrl_in_sync (selector_unregister fd).
Proof.
  intros st H. unfold selector_unregister.
  destruct (_selector st !! fd); exact H.
Qed.

Lemma ctrl_in_sync_register fd d : preserves ctrl_in_sync (selector_register fd d).
Proof.
  intros st H. unfold selector_register.
  destruct (fd <? 0); [exact H|]. destruct (_selector st !! fd); exact H.
Qed.

Lemma ctrl_in_sync_remove_conn fd conn : preserves ctrl_in_sync (_remove_conn fd conn).
Proof.
  unfold _remove_conn. apply preserves_bind; [apply ctrl_in_sync_unregister|].
  intros _. apply preserves_bind; intros; apply preserves_modify; auto.
Qed.

Lemma ctrl_in_sync_pop : preserves ctrl_in_sync _pop_readable_conn.
Proof.
  intros st H. unfold _pop_readable_conn.
  destruct (_readable_conns st); exact H.
Qed.

Lemma ctrl_in_sync_put conn now : preserves ctrl_in_sync (put conn now).
Proof.
  intros st H. destruct (rfile_has_data (heap st conn)) eqn:Hd.
  - rewrite (put_has_data _ _ _ Hd). exact H.
  - rewrite (put_no_data _ _ _ Hd). unfold ctrl_in_sync in *. simpl.
    rewrite H. rewrite map_app, concat_app. reflexivity.
Qed.

Lemma ctrl_in_sync_head st conn q :
  ctrl_in_sync st -> _put_q st = conn :: q ->
  ctrl_chan st = x50 :: concat (List.map (fun _ => _CTRL_MSG_PUT) q).
Proof. unfold ctrl_in_sync. intros -> ->. reflexivity. Qed.

Lemma ctrl_in_sync_process_ctrl_msg : preserves ctrl_in_sync _process_ctrl_msg.
Proof.
  intros st H.
  destruct (_put_q st) as [|conn q] eqn:Hq.
  - unfold ctrl_in_sync in H. rewrite Hq in H. simpl in H.
    rewrite (process_ctrl_msg_blocked _ H). unfold ctrl_in_sync.
    simpl. rewrite Hq. exact H.
  - pose proof (ctrl_in_sync_head _ _ _ H Hq) as Hc.
    rewrite (process_ctrl_msg_register _ _ _ _ Hc Hq).
    apply ctrl_in_sync_register. unfold ctrl_in_sync. reflexivity.
Qed.

Lemma ctrl_in_sync_expire server now : preserves ctrl_in_sync (expire server now).
Proof.
  intros st H. unfold expire.
  apply preserves_for_each; [|exact H].
  intros fc. apply ctrl_in_sync_remove_conn.
Qed.

Lemma ctrl_in_sync_get_conn_loop errors server env rlist :
  preserves ctrl_in_sync (get_conn_loop errors server env rlist).
Proof.
  induction rlist as [|key rest IH]; simpl; [apply preserves_ret|].
  destruct (key_data_of key).
  - apply preserves_bind; [|intros r; apply preserves_ret].
    apply ctrl_in_sync_keeps_manager, keeps_from_server_socket.
  - apply preserves_bind; [apply ctrl_in_sync_process_ctrl_msg | intros _; exact IH].
  - apply preserves_bind; [apply ctrl_in_sync_unregister|]. intros _.
    apply preserves_bind; [|intros _; exact IH].
    apply preserves_modify. auto.
Qed.

Lemma ctrl_in_sync_get_conn errors server env :
  preserves ctrl_in_sync (get_conn errors server env).
Proof.
  assert (Hpop : preserves ctrl_in_sync
                   (let! conn := _pop_readable_conn in ret (Some conn))).
  { apply preserves_bind; [apply ctrl_in_sync_pop | intros c; apply preserves_ret]. }
  unfold get_conn. apply preserves_catch; [exact Hpop|].
  intros e k. destruct e; try discriminate. intros Hk; inversion Hk; subst k.
  unfold get_conn_select. apply preserves_bind.
  - apply preserves_catch.
    + apply preserves_bind; [apply preserves_modify; auto|]. intros _.
      apply preserves_bind; [apply preserves_lift | intros r; apply preserves_ret].
    + intros e k. destruct e; try discriminate. intros Hk'; inversion Hk'; subst k.
      apply preserves_bind; [|intros _; apply preserves_ret].
      intros st H. unfold _remove_invalid_sockets.
      apply preserves_for_each; [|exact H].
      intros fc. apply ctrl_in_sync_remove_conn.
  - intros [rlist|]; [|apply preserves_ret].
    apply preserves_bind; [apply ctrl_in_sync_get_conn_loop|].
    intros [r|]; [apply preserves_ret|].
    apply preserves_catch; [exact Hpop|].
    intros e k. destruct e; try discriminate. intros Hk'; inversion Hk'.
    apply preserves_ret.
Qed.

(** ** Errors on the accept path *)

Lemma accept_raises_body errors server env ex st :
  accept_result env = Raise ex ->
  _from_server_socket_body errors server env st = (Raise ex, st).
Proof.
  intros Hacc. unfold _from_server_socket_body, bind, lift. rewrite Hacc.
  reflexivity.
Qed.

(** C6: when [accept()], or a later call of the acceptance, raises [ex]:
    a socket timeout, a socket error whose [args[0]] is in
    [socket_error_eintr], in [socket_errors_nonblocking] or in
    [socket_errors_to_ignore] make [_from_server_socket] return [None];
    any other socket error (and any other exception) propagates to the
    caller.  The manager's queues, selector and counter are as before. *)
Theorem accept_errors_classified errors server env (ex : exn) (st st1 : state) :
  accept_result env = Raise ex
  \/ _from_server_socket_body errors server env st = (Raise ex, st1) ->
  let r := _from_server_socket errors server env st in
  r.1 = spec_accept_outcome errors ex
  /\ (forall conn, r.1 <> Return (Some conn))
  /\ same_manager st r.2.
Proof.
  intros Hex r.
  assert (Hbody : exists st1',
             _from_server_socket_body errors server env st = (Raise ex, st1')).
  { destruct Hex as [Hacc|Hb]; [exists st | exists st1; exact Hb].
    apply accept_raises_body. exact Hacc. }
  destruct Hbody as [st1' Hbody].
  assert (Hr : r.1 = spec_accept_outcome errors ex).
  { subst r. unfold _from_server_socket, catch. rewrite Hbody.
    destruct ex as [| | | | |[|] arg0|]; try reflexivity.
    unfold bind, modify, spec_accept_outcome.
    destruct (py_in arg0 (socket_error_eintr errors)); [reflexivity|].
    destruct (py_in arg0 (socket_errors_nonblocking errors)); [reflexivity|].
    destruct (py_in arg0 (socket_errors_to_ignore errors)); reflexivity. }
  split; [exact Hr|]. split.
  - intros conn. rewrite Hr. unfold spec_accept_outcome.
    destruct ex as [| | | | |[|] arg0|]; try discriminate.
    destruct (_ || _ || _); discriminate.
  - apply keeps_from_server_socket.
Qed.

(** [accept()] raising [EAGAIN] gives no connection; raising an error of
    none of the sets (here errno 24) propagates. *)
Lemma accept_errors_classified_witness :
  let env e :=
    {| accept_result := Raise e; inherit_result := Return tt;
       settimeout_result := Return tt; wrap_result := Raise NoSSLError;
       write_result := Return tt; settimeout2_result := Return tt;
       getsockname_len := Return 2%nat; factory_last_used := 0%Q;
       factory_has_data := false |} in
  (_from_server_socket example_errors example_server
     (env (SocketError false (Errno 11))) example_state).1 = Return None
  /\ (_from_server_socket example_errors example_server
        (env (SocketError false (Errno 24))) example_state).1
      = Raise (SocketError false (Errno 24)).
Proof.
  intros env. split.
  - exact (proj1 (accept_errors_classified example_errors example_server
                    (env (SocketError false (Errno 11))) _ example_state
                    example_state (or_introl eq_refl))).
  - exact (proj1 (accept_errors_classified example_errors example_server
                    (env (SocketError false (Errno 24))) _ example_state
                    example_state (or_introl eq_refl))).
Defined.

(** ** The response to a plain request on a TLS port *)

Lemma encode_latin1_app (a b : pystr) :
  encode_latin1 (a ++ b) =
    match encode_latin1 a, encode_latin1 b with
    | Some x, Some y => Some (x ++ y)
    | _, _ => None
    end.
Proof.
  induction a as [|cp a IH]; simpl.
  - destruct (encode_latin1 b); reflexivity.
  - rewrite IH. destruct (Byte.of_N cp); [|reflexivity].
    destruct (encode_latin1 a); [|reflexivity].
    destruct (encode_latin1 b); reflexivity.
Qed.

Lemma no_ssl_payload server protocol_bytes :
  encode_latin1 (protocol server) = Some protocol_bytes ->
  encode_latin1 (concat (no_ssl_buf server))
  = Some (spec_400_response protocol_bytes no_ssl_text).
Proof.
  intros Hp. unfold no_ssl_buf. cbn [concat].
  rewrite <- app_assoc. rewrite encode_latin1_app, Hp.
  unfold spec_400_response.
  match goal with
  | |- match encode_latin1 ?k with _ => _ end = _ =>
      let v := eval vm_compute in (encode_latin1 k) in
      change (encode_latin1 k) with v
  end.
  cbv iota. reflexivity.
Qed.

(** C7: with a TLS adapter whose [wrap] raises [NoSSLError],
    [_from_server_socket] writes on the accepted (raw) socket the bytes of
    ["<protocol> 400 Bad Request\r\nContent-Length: <n>\r\nContent-Type:
    text/plain\r\n\r\n<message>"], one byte per character, [<n>] being the
    length of the message, and returns [None]; no connection object is
    created, and nothing else is written, whatever the write does. *)
Theorem no_ssl_bad_request errors server env (st : state) (s : socket_obj)
    addr (protocol_bytes : list byte) :
  ssl_adapter server = true ->
  accept_result env = Return (s, addr) ->
  inherit_result env = Return tt ->
  settimeout_result env = Return tt ->
  wrap_result env = Raise NoSSLError ->
  encode_latin1 (protocol server) = Some protocol_bytes ->
  let r := _from_server_socket errors server env st in
  let payload := spec_400_response protocol_bytes no_ssl_text in
  let timeout_set :=
    if sock_has_settimeout s then [EvSetTimeout s (timeout server)] else [] in
  (write_result env = Return tt ->
   r.1 = Return None
   /\ log r.2 = log st ++ timeout_set ++ [EvSockWrite s payload])
  /\ (write_result env <> Return tt -> log r.2 = log st ++ timeout_set)
  /\ (forall conn, r.1 <> Return (Some conn))
  /\ next_ref r.2 = next_ref st
  /\ heap r.2 = heap st
  /\ same_manager st r.2
  /\ String.length no_ssl_text = 85%nat.
Proof.
  intros Hssl Hacc Hinh Hst Hwrap Hp r payload timeout_set.
  pose proof (no_ssl_payload server protocol_bytes Hp) as Hpay.
  fold payload in Hpay.
  set (st1 := if stats_Enabled (stats st)
              then set_stats (incr_Accepts (stats st)) st else st).
  set (st2 := if sock_has_settimeout s
              then emit (EvSetTimeout s (timeout server)) st1 else st1).
  assert (Hst2 : log st2 = log st ++ timeout_set /\ next_ref st2 = next_ref st
                 /\ heap st2 = heap st /\ same_manager st st2).
  { subst st2 st1 timeout_set.
    destruct (sock_has_settimeout s), (stats_Enabled (stats st)); simpl;
      rewrite ?app_nil_r; repeat split. }
  destruct Hst2 as (Hl2 & Hn2 & Hh2 & Hm2).
  assert (Hset : settimeout s (timeout server) (settimeout_result env) st1
                 = (Return tt, st2)).
  { subst st2. unfold settimeout. destruct (sock_has_settimeout s); [|reflexivity].
    unfold bind, lift. rewrite Hst. reflexivity. }
  assert (Hbody : _from_server_socket_body errors server env st
                  = (send_no_ssl_response errors server s env >> ret None) st2).
  { unfold _from_server_socket_body.
    unfold bind at 1. unfold lift at 1. rewrite Hacc. cbn [fst snd].
    unfold bind at 1. unfold modify at 1. fold st1.
    unfold bind at 1. unfold lift at 1. rewrite Hinh.
    unfold bind at 1. rewrite Hset. rewrite Hssl.
    unfold bind at 1. unfold catch at 1. unfold bind at 1. unfold lift at 1.
    rewrite Hwrap.
    unfold bind.
    destruct (send_no_ssl_response errors server s env st2)
      as [[[]| e |] st3]; reflexivity. }
  assert (Hsend : send_no_ssl_response errors server s env st2
                  = match write_result env with
                    | Return _ => (Return tt, emit (EvSockWrite s payload) st2)
                    | Raise (SocketError tm arg0) =>
                        if py_in arg0 (socket_errors_to_ignore errors)
                        then (Return tt, st2)
                        else (Raise (SocketError tm arg0), st2)
                    | Raise e => (Raise e, st2)
                    | Blocked => (Blocked, st2)
                    end).
  { unfold send_no_ssl_response, catch. rewrite Hpay. unfold bind, lift.
    destruct (write_result env) as [[]| e |]; try reflexivity.
    destruct e; try reflexivity.
    destruct (py_in _ _); reflexivity. }
  assert (E : r = _from_server_socket errors server env st) by reflexivity.
  clearbody r. unfold _from_server_socket, catch in E. rewrite Hbody in E.
  unfold bind at 1 in E. rewrite Hsend in E.
  assert (Hlen : String.length no_ssl_text = 85%nat) by reflexivity.
  assert (Hquiet : forall o : outcome (option conn_ref),
             (forall conn, o <> Return (Some conn)) ->
             forall st3, log st3 = log st2 -> next_ref st3 = next_ref st2 ->
             heap st3 = heap st2 -> same_manager st2 st3 ->
             r = (o, st3) ->
             (write_result env = Return tt ->
              r.1 = Return None
              /\ log r.2 = log st ++ timeout_set ++ [EvSockWrite s payload]) ->
             (write_result env = Return tt ->
              r.1 = Return None
              /\ log r.2 = log st ++ timeout_set ++ [EvSockWrite s payload])
             /\ (write_result env <> Return tt -> log r.2 = log st ++ timeout_set)
             /\ (forall conn, r.1 <> Return (Some conn))
             /\ next_ref r.2 = next_ref st
             /\ heap r.2 = heap st
             /\ same_manager st r.2
             /\ String.length no_ssl_text = 85%nat).
  { intros o Ho st3 Hl Hn Hh Hm -> Hw. simpl in *.
    split; [exact Hw|]. split; [intros _; congruence|].
    split; [exact Ho|]. split; [congruence|]. split; [congruence|].
    split; [eapply same_manager_trans; eauto | exact Hlen]. }
  destruct (write_result env) as [[]| e |] eqn:Hw.
  - (* the write succeeds *)
    subst r. simpl. rewrite Hl2, <- app_assoc.
    repeat split; try assumption; try discriminate; try apply Hm2.
    intros Hne. contradiction.
  - (* the write raises *)
    destruct e as [| | | | |tm arg0|];
      try (eapply Hquiet; [| | | | |exact E|]; try discriminate;
           try reflexivity; apply same_manager_refl).
    destruct (py_in arg0 (socket_errors_to_ignore errors)) eqn:Hign.
    { eapply Hquiet; [| | | | |exact E|]; try discriminate;
        try reflexivity; apply same_manager_refl. }
    destruct tm.
    { eapply Hquiet; [| | | | |exact E|]; try discriminate;
        try reflexivity; apply same_manager_refl. }
    unfold bind, modify in E. rewrite Hign in E.
    destruct (py_in arg0 (socket_error_eintr errors));
      [|destruct (py_in arg0 (socket_errors_nonblocking errors))];
      simpl in E;
      (eapply Hquiet; [| | | | |exact E|]; try discriminate;
       destruct (stats_Enabled (stats st2)); try reflexivity;
       repeat split).
  - (* the write never returns *)
    eapply Hquiet; [| | | | |exact E|]; try discriminate;
      try reflexivity; apply same_manager_refl.
Qed.

Lemma no_ssl_bad_request_witness :
  let r := _from_server_socket example_errors example_tls_server
             example_accept_env example_state in
  let s := {| sock_fileno := 20; sock_has_settimeout := true |} in
  r.1 = Return None
  /\ log r.2 =
       log example_state
       ++ [EvSetTimeout s 10%Q;
           EvSockWrite s
             (bytes_of_string
                ("HTTP/1.1 400 Bad Request" ++ crlf
                 ++ "Content-Length: 85" ++ crlf
                 ++ "Content-Type: text/plain" ++ crlf ++ crlf
                 ++ no_ssl_text))].
Proof.
  pose proof (no_ssl_bad_request example_errors example_tls_server
                example_accept_env example_state
                {| sock_fileno := 20; sock_has_settimeout := true |} None
                (bytes_of_string "HTTP/1.1")
                eq_refl eq_refl eq_refl eq_refl eq_refl eq_refl) as (Hw & _).
  exact (Hw eq_refl).
Defined.

(** ** A batch with the listening socket in it *)

Lemma bytes_eqb_eq a b : bytes_eqb a b = true <-> a = b.
Proof.
  revert b. induction a as [|x a IH]; intros [|y b]; simpl;
    try (split; [discriminate | intros H; inversion H]); [tauto|].
  rewrite andb_true_iff, IH. split.
  - intros [Hxy ->]. apply Byte.byte_dec_bl in Hxy. subst. reflexivity.
  - intros H. inversion H; subst. split; [apply Byte.byte_dec_lb|]; reflexivity.
Qed.

Section Batch.

Variable errors : errors_module.
Variable server : HTTPServer.
Variable env : get_conn_env.

(** The iterations over the entries ahead of the listening socket. *)
Lemma get_conn_loop_prefix pre rest :
  forall st,
    Forall (fun key => is_listener_key key = false) pre ->
    NoDup (key_fd <$> pre) ->
    Forall (fun key => _selector st !! key_fd key = Some (key_data_of key)) pre ->
    (length (List.filter is_ctrl_key pre) <= length (_put_q st))%nat ->
    put_q_registrable st = true ->
    ctrl_in_sync st ->
    exists st',
      get_conn_loop errors server env (pre ++ rest) st
        = get_conn_loop errors server env rest st'
      /\ _readable_conns st' = _readable_conns st ++ batch_conns pre
      /\ (forall key conn, key ∈ pre -> key_data_of key = DConn conn ->
                          _selector st' !! key_fd key = None)
      /\ (forall fd d, _selector st !! fd = Some d -> fd ∉ key_fd <$> pre ->
                      _selector st' !! fd = Some d)
      /\ (forall fd, _selector st !! fd = None -> fd ∉ pending_fds st ->
                    _selector st' !! fd = None)
      /\ heap st' = heap st /\ next_ref st' = next_ref st
      /\ _num_conns st' = _num_conns st /\ stats st' = stats st.
Proof.
  induction pre as [|key pre IH]; intros st Hnl Hnd Hreg Hlen Hq Hsync.
  { exists st. simpl. rewrite app_nil_r. repeat split; auto.
    intros key conn Hin. inversion Hin. }
  inversion Hnl as [|? ? Hkey Hnl']; subst.
  rewrite fmap_cons in Hnd. inversion Hnd as [|? ? Hnotin Hnd']; subst.
  inversion Hreg as [|? ? Hkreg Hreg']; subst.
  unfold is_listener_key in Hkey.
  cbn [app get_conn_loop]. cbn [List.filter] in Hlen.
  unfold is_ctrl_key at 1 in Hlen.
  destruct (key_data_of key) as [| |conn] eqn:Hdata; [discriminate| |].
  - (* the control channel *)
    cbn [length] in Hlen.
    destruct (_put_q st) as [|c q] eqn:Hput; [simpl in Hlen; lia|].
    pose proof (ctrl_in_sync_head _ _ _ Hsync Hput) as Hc.
    pose proof (ctrl_in_sync_process_ctrl_msg st Hsync) as Hsync1.
    pose proof (proj1 (put_q_registrable_spec st) Hq) as [Hpnd Hpall].
    unfold pending_fds in Hpnd, Hpall. rewrite Hput in Hpnd, Hpall.
    cbn [List.map] in Hpnd, Hpall.
    inversion Hpall as [|? ? [_ Hfree] _]; subst.
    inversion Hpnd as [|? ? Hcnotin _]; subst.
    unfold bind at 1.
    rewrite (process_ctrl_msg_moves _ _ _ _ Hq Hc Hput) in *.
    match goal with
    | |- context [get_conn_loop _ _ _ (pre ++ rest) ?s] => set (st1 := s) in *
    end.
    destruct (IH st1) as (st' & Hloop & Hr & Hgone & Hkeep & Hnone & Hh & Hn & Hnum & Hstats).
    + exact Hnl'.
    + exact Hnd'.
    + eapply Forall_impl; [exact Hreg'|]. intros k Hk. subst st1. simpl.
      rewrite lookup_insert_ne; [exact Hk|]. congruence.
    + subst st1. simpl in *. lia.
    + eapply put_q_registrable_tail; eauto; reflexivity.
    + exact Hsync1.
    + exists st'. split; [exact Hloop|].
      split.
      { rewrite Hr. unfold batch_conns. cbn [omap list_omap].
        unfold key_conn at 2. rewrite Hdata. reflexivity. }
      split.
      { intros k conn Hin Hk. apply elem_of_cons in Hin as [->|Hin]; [congruence|].
        eapply Hgone; eauto. }
      split.
      { intros fd d Hfd Hnot. rewrite fmap_cons, not_elem_of_cons in Hnot.
        destruct Hnot as [_ Hnot]. apply Hkeep; [|exact Hnot].
        subst st1. simpl. rewrite lookup_insert_ne; [exact Hfd|]. congruence. }
      split.
      { intros fd Hfd Hnot. unfold pending_fds in Hnot. rewrite Hput in Hnot.
        cbn [List.map] in Hnot. rewrite not_elem_of_cons in Hnot.
        destruct Hnot as [Hne Hnot]. apply Hnone.
        - subst st1. simpl. rewrite lookup_insert_ne; [exact Hfd|]. congruence.
        - exact Hnot. }
      subst st1. simpl in *. repeat split; assumption.
  - (* a client connection *)
    unfold bind at 1, selector_unregister. rewrite Hkreg.
    unfold bind at 1, modify at 1.
    match goal with
    | |- context [get_conn_loop _ _ _ (pre ++ rest) ?s] => set (st1 := s) in *
    end.
    pose proof (proj1 (put_q_registrable_spec st) Hq) as [_ Hpall].
    destruct (IH st1) as (st' & Hloop & Hr & Hgone & Hkeep & Hnone & Hh & Hn & Hnum & Hstats).
    + exact Hnl'.
    + exact Hnd'.
    + rewrite Forall_forall in Hreg'. apply Forall_forall. intros k Hin.
      subst st1. simpl. rewrite lookup_delete_ne; [apply Hreg'; exact Hin|].
      intros Heq. apply Hnotin. apply list_elem_of_fmap. exists k.
      split; [exact Heq | exact Hin].
    + subst st1. simpl. exact Hlen.
    + eapply put_q_registrable_after_unregister; eauto; reflexivity.
    + exact Hsync.
    + exists st'. split; [exact Hloop|].
      split.
      { rewrite Hr. subst st1. simpl. unfold batch_conns. cbn [omap list_omap].
        unfold key_conn at 2. rewrite Hdata. rewrite <- app_assoc. reflexivity. }
      split.
      { intros k conn' Hin Hk. apply elem_of_cons in Hin as [->|Hin].
        - apply Hnone.
          + subst st1. simpl. apply lookup_delete_eq.
          + intros Hpend. rewrite Forall_forall in Hpall.
            destruct (Hpall _ Hpend) as [_ Hfree]. congruence.
        - eapply Hgone; eauto. }
      split.
      { intros fd d Hfd Hnot. rewrite fmap_cons, not_elem_of_cons in Hnot.
        destruct Hnot as [Hne Hnot]. apply Hkeep; [|exact Hnot].
        subst st1. simpl. rewrite lookup_delete_ne; [exact Hfd|]. congruence. }
      split.
      { intros fd Hfd Hnot. apply Hnone; [|exact Hnot].
        subst st1. simpl. apply lookup_delete_None. right. exact Hfd. }
      subst st1. simpl in *. repeat split; assumption.
Qed.

End Batch.

Lemma bind_returns {A B} (m : M A) (k : A -> M B) st b st' :
  bind m k st = (Return b, st') ->
  exists a st1, m st = (Return a, st1) /\ k a st1 = (Return b, st').
Proof.
  unfold bind. destruct (m st) as [[a| e |] st1]; try discriminate.
  intros H. exists a, st1. split; [reflexivity | exact H].
Qed.

Lemma catch_returns {A} (m : M A) h st a st' :
  catch m h st = (Return a, st') ->
  m st = (Return a, st')
  \/ exists e st1 k, m st = (Raise e, st1) /\ h e = Some k
                     /\ k st1 = (Return a, st').
Proof.
  unfold catch. destruct (m st) as [[a'| e |] st1]; try discriminate.
  - intros H. left. exact H.
  - destruct (h e) as [k|] eqn:He; [|discriminate].
    intros H. right. exists e, st1, k. repeat split; assumption.
Qed.

Lemma settimeout_next_ref s t o st st' :
  settimeout s t o st = (Return tt, st') -> next_ref st' = next_ref st.
Proof.
  unfold settimeout. destruct (sock_has_settimeout s).
  - unfold bind, lift, modify. destruct o as [[]| e |]; try discriminate.
    intros H; inversion H. reflexivity.
  - intros H; inversion H. reflexivity.
Qed.

(** A connection that [_from_server_socket] returns is a new object. *)
Lemma from_server_socket_new errors server env st conn st' :
  _from_server_socket errors server env st = (Return (Some conn), st') ->
  conn = next_ref st /\ next_ref st' = S conn.
Proof.
  intros H. unfold _from_server_socket in H.
  apply catch_returns in H as [H|(e & st1 & k & _ & Hh & Hk)].
  2:{ exfalso. destruct e as [| | | | |[|] arg0|]; try discriminate;
        inversion Hh; subst k.
      - inversion Hk.
      - unfold bind, modify in Hk. simpl in Hk.
        repeat (destruct (py_in _ _); [inversion Hk|]). inversion Hk. }
  unfold _from_server_socket_body in H.
  apply bind_returns in H as ([s addr] & s0 & Hacc & H).
  unfold lift in Hacc. inversion Hacc; subst s0. clear Hacc. cbn [fst snd] in H.
  apply bind_returns in H as ([] & s1 & Hstat & H).
  assert (Hn1 : next_ref s1 = next_ref st).
  { unfold modify in Hstat. inversion Hstat.
    destruct (stats_Enabled (stats st)); reflexivity. }
  clear Hstat.
  apply bind_returns in H as ([] & s2 & Hinh & H).
  unfold lift in Hinh. inversion Hinh; subst s2. clear Hinh.
  apply bind_returns in H as ([] & s3 & Hset & H).
  apply settimeout_next_ref in Hset.
  apply bind_returns in H as (wrapped & s4 & Hwrap & H).
  assert (Hn4 : next_ref s4 = next_ref s3 \/ wrapped = None).
  { destruct (ssl_adapter server).
    - apply catch_returns in Hwrap as [Hw|(e & sx & k & _ & Hh & Hk)].
      + apply bind_returns in Hw as (w & sy & Hl & Hw).
        unfold lift in Hl. inversion Hl. inversion Hw. left. congruence.
      + destruct e; try discriminate. inversion Hh; subst k.
        apply bind_returns in Hk as (u & sy & _ & Hk). inversion Hk.
        right. reflexivity.
    - inversion Hwrap. left. reflexivity. }
  destruct wrapped as [[[s'|] ssl_env']|]; try (inversion H; fail).
  destruct Hn4 as [Hn4|Hn4]; [|discriminate].
  apply bind_returns in H as ([] & s5 & Hset2 & H).
  assert (Hn5 : next_ref s5 = next_ref s4).
  { destruct (ssl_adapter server).
    - apply settimeout_next_ref in Hset2. exact Hset2.
    - inversion Hset2. reflexivity. }
  clear Hset2.
  apply bind_returns in H as (c & s6 & Hnew & H).
  unfold ConnectionClass in Hnew. inversion Hnew; subst c. clear Hnew.
  apply bind_returns in H as ([] & s7 & Haddr & H).
  assert (Hn7 : next_ref s7 = next_ref s6).
  { destruct (bind_addr server).
    - inversion Haddr. reflexivity.
    - apply bind_returns in Haddr as (a & sx & Ha & Haddr).
      inversion Haddr. simpl.
      destruct addr as [a0|].
      + inversion Ha. reflexivity.
      + apply bind_returns in Ha as (n & sy & Hl & Ha).
        unfold lift in Hl. inversion Hl.
        destruct (Nat.eqb n 2); inversion Ha; reflexivity. }
  apply bind_returns in H as ([] & s8 & Hssl & H).
  inversion Hssl. inversion H. subst. simpl in *.
  split; [congruence|]. rewrite Hn7. reflexivity.
Qed.

Lemma batch_ok_spec st pre :
  batch_ok st pre = true ->
  Forall (fun key => is_listener_key key = false) pre
  /\ NoDup (key_fd <$> pre)
  /\ Forall (fun key => _selector st !! key_fd key = Some (key_data_of key)) pre
  /\ (length (List.filter is_ctrl_key pre) <= length (_put_q st))%nat
  /\ put_q_registrable st = true
  /\ ctrl_in_sync st.
Proof.
  unfold batch_ok. rewrite !andb_true_iff.
  intros [[[[[Hnl Hnd] Hreg] Hlen] Hq] Hsync].
  split; [|split; [|split; [|split; [|split]]]].
  - rewrite forallb_forall in Hnl. apply Forall_forall. intros k Hin.
    apply list_elem_of_In in Hin. specialize (Hnl k Hin).
    apply negb_true_iff in Hnl. exact Hnl.
  - apply bool_decide_eq_true in Hnd. exact Hnd.
  - rewrite forallb_forall in Hreg. apply Forall_forall. intros k Hin.
    apply list_elem_of_In in Hin. specialize (Hreg k Hin).
    unfold key_registered in Hreg. apply bool_decide_eq_true in Hreg. exact Hreg.
  - apply Nat.leb_le. exact Hlen.
  - exact Hq.
  - apply bytes_eqb_eq. exact Hsync.
Qed.

(** C8: a batch in which the listening socket comes after the entries [pre]
    and before the entries [post].  [get_conn] returns what the acceptance
    returns, so the accepted connection when there is one, wherever the
    listening socket stands in the batch.  The client connections of [pre]
    are unregistered and appended to the readable queue, in order; those of
    [post] are left registered; none of them is returned by this call (the
    connection returned is the object the acceptance has just created), and
    the counter does not move. *)
Theorem accepted_connection_has_priority errors server env (st : state)
    (pre : list SelectorKey) (listener : SelectorKey) (post : list SelectorKey) :
  _readable_conns st = [] ->
  select_result env = Return (pre ++ listener :: post) ->
  is_listener_key listener = true ->
  batch_ok st pre = true ->
  let r := get_conn errors server env st in
  exists st_mid,
    r = _from_server_socket errors server (accept_calls env) st_mid
    /\ (forall conn st',
          _from_server_socket errors server (accept_calls env) st_mid
            = (Return (Some conn), st') ->
          r = (Return (Some conn), st') /\ conn = next_ref st)
    /\ _readable_conns st_mid = batch_conns pre
    /\ next_ref st_mid = next_ref st
    /\ _readable_conns r.2 = batch_conns pre
    /\ (forall key conn, key ∈ pre -> key_data_of key = DConn conn ->
                        _selector r.2 !! key_fd key = None)
    /\ (forall key, key ∈ post -> key_fd key ∉ key_fd <$> pre ->
                   _selector st !! key_fd key = Some (key_data_of key) ->
                   _selector r.2 !! key_fd key = Some (key_data_of key))
    /\ _num_conns r.2 = _num_conns st.
Proof.
  intros Hempty Hsel Hlistener Hok r.
  apply batch_ok_spec in Hok as (Hnl & Hnd & Hreg & Hlen & Hq & Hsync).
  destruct (get_conn_loop_prefix errors server env pre (listener :: post)
              (emit EvSelect st) Hnl Hnd Hreg Hlen Hq Hsync)
    as (st_mid & Hloop & Hr & Hgone & Hkeep & _ & _ & Hn & Hnum & _).
  unfold is_listener_key in Hlistener.
  destruct (key_data_of listener) eqn:Hdata; try discriminate.
  cbn [get_conn_loop] in Hloop. rewrite Hdata in Hloop.
  assert (E : r = _from_server_socket errors server (accept_calls env) st_mid).
  { subst r. unfold get_conn, catch, bind at 1, _pop_readable_conn.
    rewrite Hempty. unfold get_conn_select.
    unfold bind at 1, catch at 1, bind at 1, modify at 1.
    unfold bind at 1, lift at 1. rewrite Hsel. unfold ret at 1.
    unfold bind at 1. rewrite Hloop. unfold bind.
    destruct (_from_server_socket errors server (accept_calls env) st_mid)
      as [[res| e |] st']; reflexivity. }
  clearbody r. subst r. exists st_mid.
  pose proof (keeps_from_server_socket errors server (accept_calls env) st_mid)
    as (Hkr & _ & Hks & Hkn & _).
  simpl in Hr, Hnum, Hn. rewrite Hempty in Hr. simpl in Hr.
  split; [reflexivity|].
  split.
  { intros conn st' H. split; [exact H|].
    apply from_server_socket_new in H as [H _]. congruence. }
  split; [exact Hr|].
  split; [exact Hn|].
  split; [rewrite Hkr; exact Hr|].
  split; [intros key conn Hin Hk; rewrite Hks; eapply Hgone; eauto|].
  split; [|rewrite Hkn; exact Hnum].
  intros key Hin Hnot Hk. rewrite Hks. apply Hkeep; assumption.
Qed.

(** Connection 1 and the control channel are ready ahead of the listening
    socket, connection 3 after it: the call returns the new connection 6;
    connection 1 is queued, connection 3 is still registered. *)
Lemma accepted_connection_has_priority_witness :
  let pre := [ {| key_fd := 11; key_data_of := DConn 1%nat |};
               {| key_fd := 4; key_data_of := DCtrlRx |} ] in
  let listener := {| key_fd := 3; key_data_of := DServer |} in
  let post := [ {| key_fd := 13; key_data_of := DConn 3%nat |} ] in
  let r := get_conn example_errors example_server
             (example_env (pre ++ listener :: post)) example_state in
  r.1 = Return (Some 6%nat)
  /\ _readable_conns r.2 = [1%nat]
  /\ _selector r.2 !! 11 = None
  /\ _selector r.2 !! 13 = Some (DConn 3%nat).
Proof.
  intros pre listener post r.
  destruct (accepted_connection_has_priority example_errors example_server
              (example_env (pre ++ listener :: post)) example_state
              pre listener post eq_refl eq_refl eq_refl eq_refl)
    as (st_mid & _ & _ & _ & _ & Hr & Hgone & Hkeep & _).
  fold r in Hr, Hgone, Hkeep.
  split; [vm_compute; reflexivity|].
  split; [exact Hr|].
  split.
  - apply (Hgone {| key_fd := 11; key_data_of := DConn 1%nat |} 1%nat).
    + left.
    + reflexivity.
  - apply (Hkeep {| key_fd := 13; key_data_of := DConn 3%nat |}).
    + left.
    + vm_compute. intros Hin.
      repeat (apply elem_of_cons in Hin as [Hin|Hin]; [discriminate|]).
      inversion Hin.
    + reflexivity.
Defined.

(** C8, as the specification words it, does not hold of a batch in which
    the listening socket comes first: in the example manager, with the
    listening socket and the registered connections 3 and 1 all ready, the
    new connection 6 is returned, and connections 3 and 1 are neither
    unregistered nor queued: the loop has returned before it reached
    them. *)
Lemma accepted_connection_has_priority_counterexample :
  let keys := [ {| key_fd := 3; key_data_of := DServer |};
                {| key_fd := 13; key_data_of := DConn 3%nat |};
                {| key_fd := 11; key_data_of := DConn 1%nat |} ] in
  let r := get_conn example_errors example_server (example_env keys)
             example_state in
  _readable_conns example_state = []
  /\ select_sound example_state (example_env keys) = true
  /\ r.1 = Return (Some 6%nat)
  /\ _readable_conns r.2 = []
  /\ _selector r.2 !! 13 = Some (DConn 3%nat)
  /\ _selector r.2 !! 11 = Some (DConn 1%nat)
  /\ ~ spec_ready_clients_queued keys r.
Proof.
  intros keys r.
  assert (H13 : _selector r.2 !! 13 = Some (DConn 3%nat))
    by (vm_compute; reflexivity).
  split; [reflexivity|]. split; [vm_compute; reflexivity|].
  split; [vm_compute; reflexivity|]. split; [vm_compute; reflexivity|].
  split; [exact H13|]. split; [vm_compute; reflexivity|].
  intros Hspec.
  destruct (Hspec {| key_fd := 13; key_data_of := DConn 3%nat |} 3%nat)
    as [Hgone _].
  - right. left.
  - reflexivity.
  - simpl in Hgone. rewrite H13 in Hgone. discriminate.
Qed.

(** ** Every state the manager goes through *)

Lemma pending_fds_ext st st' :
  _put_q st' = _put_q st ->
  (forall c, c ∈ _put_q st -> conn_fileno (heap st' c) = conn_fileno (heap st c)) ->
  pending_fds st' = pending_fds st.
Proof.
  unfold pending_fds. intros -> Hfd.
  induction (_put_q st) as [|c q IH]; [reflexivity|]. simpl. f_equal.
  - apply Hfd. left.
  - apply IH. intros c' Hin. apply Hfd. right. exact Hin.
Qed.

Lemma put_q_registrable_ext st st' :
  pending_fds st' = pending_fds st -> _selector st' = _selector st ->
  put_q_registrable st' = put_q_registrable st.
Proof. unfold put_q_registrable. intros -> ->. reflexivity. Qed.

Lemma elem_of_pending_fds st c :
  c ∈ _put_q st -> conn_fileno (heap st c) ∈ pending_fds st.
Proof.
  intros Hin. unfold pending_fds. apply list_elem_of_In.
  apply (in_map (fun conn => conn_fileno (heap st conn))).
  apply list_elem_of_In. exact Hin.
Qed.

Lemma manager_inv_init server ctrl_rx_fileno h n s st :
  __init__ server ctrl_rx_fileno (empty_state h n s) = (Return tt, st) ->
  manager_inv st.
Proof.
  unfold __init__, bind, selector_register. simpl.
  destruct (server_fileno server <? 0); [discriminate|].
  rewrite lookup_empty. simpl.
  destruct (ctrl_rx_fileno <? 0); [discriminate|].
  destruct (_ !! ctrl_rx_fileno) eqn:Hfree; [discriminate|].
  intros H; inversion H; subst st. clear H.
  split; [|split; [|split; [|split]]].
  - unfold count_ok, managed_count, _get_selector_conns. simpl.
    pose proof (selector_conns_insert _ _ DCtrlRx Hfree) as Hp.
    apply Permutation_length in Hp. rewrite Hp. simpl.
    pose proof (selector_conns_insert (∅ : gmap Z key_data)
                  (server_fileno server) DServer (lookup_empty _)) as Hp'.
    apply Permutation_length in Hp'. rewrite Hp'. simpl.
    rewrite map_to_list_empty. reflexivity.
  - reflexivity.
  - reflexivity.
  - constructor.
  - intros fd c _ Hin. inversion Hin.
Qed.

Lemma manager_inv_put conn now st :
  caller_ok (OpPut conn now) st = true ->
  manager_inv st -> manager_inv (put conn now st).2.
Proof.
  intros Hcaller (Hcount & Hsync & Hreg & Hlt & Hown).
  assert (Hfd : forall c, conn_fileno (heap_update conn (with_last_used now) (heap st) c)
                          = conn_fileno (heap st c)).
  { intros c. unfold heap_update. destruct (Nat.eqb c conn); reflexivity. }
  split; [apply count_ok_put; exact Hcount|].
  split; [apply ctrl_in_sync_put; exact Hsync|].
  simpl in Hcaller.
  destruct (rfile_has_data (heap st conn)) eqn:Hd.
  - rewrite (put_has_data _ _ _ Hd). simpl.
    split; [|split; [exact Hlt | exact Hown]].
    rewrite <- Hreg. apply put_q_registrable_ext; [|reflexivity].
    apply pending_fds_ext; [reflexivity|]. intros c _. apply Hfd.
  - rewrite (put_no_data _ _ _ Hd). simpl in Hcaller |- *.
    unfold put_fresh in Hcaller. rewrite !andb_true_iff in Hcaller.
    destruct Hcaller as [[[[Hnew Hge] Hfree] Hnotpend] Hnotreg].
    apply Nat.ltb_lt in Hnew. apply Z.leb_le in Hge.
    apply bool_decide_eq_true in Hfree. apply bool_decide_eq_true in Hnotpend.
    rewrite forallb_forall in Hnotreg.
    apply put_q_registrable_spec in Hreg as [Hnd Hall].
    assert (Hpend : pending_fds
                      (emit (EvCtrlSend x50)
                         (set_ctrl_chan (ctrl_chan st ++ [x50])
                            (set_put_q (_put_q st ++ [conn])
                               (set_heap (heap_update conn (with_last_used now) (heap st))
                                  (set_num_conns (_num_conns st + 1) st)))))
                    = pending_fds st ++ [conn_fileno (heap st conn)]).
    { unfold pending_fds. simpl. rewrite map_app. simpl. rewrite Hfd.
      f_equal. apply map_ext. intros c. apply Hfd. }
    split; [|split].
    + apply put_q_registrable_spec. rewrite Hpend. simpl. split.
      * apply NoDup_app. split; [exact Hnd|]. split.
        -- intros fd Hin Hin'. apply list_elem_of_singleton in Hin'. subst fd.
           contradiction.
        -- apply NoDup_singleton.
      * apply Forall_app. split; [exact Hall|].
        constructor; [split; assumption | constructor].
    + apply Forall_app. split; [exact Hlt|]. constructor; [exact Hnew | constructor].
    + intros fd c Hsel Hin. apply elem_of_app in Hin as [Hin|Hin].
      * exact (Hown fd c Hsel Hin).
      * apply list_elem_of_singleton in Hin. subst c.
        assert (Hin : (fd, conn) ∈ _get_selector_conns st)
          by (apply elem_of_selector_conns; exact Hsel).
        apply list_elem_of_In in Hin. specialize (Hnotreg _ Hin). simpl in Hnotreg.
        rewrite Nat.eqb_refl in Hnotreg. discriminate.
Qed.

Lemma next_ref_remove_conn n fd conn :
  preserves (fun st => next_ref st = n) (_remove_conn fd conn).
Proof.
  unfold _remove_conn. apply preserves_bind.
  - intros st H. unfold selector_unregister.
    destruct (_selector st !! fd); exact H.
  - intros _. apply preserves_bind; intros; apply preserves_modify; auto.
Qed.

Lemma manager_inv_remove_all l st :
  NoDup l.*1 ->
  (forall fc, fc ∈ l -> _selector st !! fc.1 = Some (DConn fc.2)) ->
  manager_inv st ->
  manager_inv (for_each l (fun fc => _remove_conn fc.1 fc.2) st).2.
Proof.
  intros Hnd Hregd (Hcount & Hsync & Hreg & Hlt & Hown).
  pose proof (count_ok_remove_all l st Hnd Hregd Hcount) as Hcount'.
  pose proof (preserves_for_each (fun s => next_ref s = next_ref st) l
                (fun fc => _remove_conn fc.1 fc.2)
                (fun fc => next_ref_remove_conn _ fc.1 fc.2) st eq_refl) as Hn.
  destruct (remove_all_spec l st Hnd Hregd)
    as (_ & Hsel & _ & _ & Hq & Hc & Hheap & _).
  set (st' := (for_each l (fun fc => _remove_conn fc.1 fc.2) st).2) in *.
  assert (Hpend : pending_fds st' = pending_fds st).
  { apply pending_fds_ext; [exact Hq|]. intros c Hin. rewrite Hheap.
    rewrite bool_decide_eq_false_2; [reflexivity|].
    intros Hl. apply list_elem_of_fmap in Hl as [[fd c'] [Heq Hl]].
    simpl in Heq. subst c'. exact (Hown fd c (Hregd _ Hl) Hin). }
  split; [exact Hcount'|].
  split; [eapply ctrl_in_sync_ext; eauto|].
  split; [|split].
  - apply put_q_registrable_spec. rewrite Hpend.
    apply put_q_registrable_spec in Hreg as [Hnd' Hall]. split; [exact Hnd'|].
    eapply Forall_impl; [exact Hall|]. simpl. intros fd [Hge Hfree].
    split; [exact Hge|]. rewrite Hsel. destruct (bool_decide _); auto.
  - rewrite Hq, Hn. exact Hlt.
  - intros fd c Hfd. rewrite Hq. apply (Hown fd).
    rewrite Hsel in Hfd. destruct (bool_decide _); [discriminate | exact Hfd].
Qed.

Lemma manager_inv_expire server now st :
  manager_inv st -> manager_inv (expire server now st).2.
Proof.
  intros H. unfold expire. apply manager_inv_remove_all; [| |exact H].
  - apply NoDup_fst_timed_out.
  - intros fc. apply filter_selector_conns_registered.
Qed.

Lemma manager_inv_remove_invalid_sockets fails st :
  manager_inv st -> manager_inv (_remove_invalid_sockets fails st).2.
Proof.
  intros H. unfold _remove_invalid_sockets.
  apply manager_inv_remove_all; [| |exact H].
  - apply NoDup_fst_filter. apply NoDup_fst_selector_conns.
  - intros fc. apply filter_selector_conns_registered.
Qed.

(** A step that changes neither [_put_q], the selector, the heap nor
    [next_ref] keeps the last three parts of the invariant. *)
Lemma manager_inv_ext st st' :
  count_ok st' -> ctrl_in_sync st' ->
  _put_q st' = _put_q st -> _selector st' = _selector st ->
  heap st' = heap st -> next_ref st' = next_ref st ->
  manager_inv st -> manager_inv st'.
Proof.
  intros Hcount Hsync Hq Hs Hh Hn (_ & _ & Hreg & Hlt & Hown).
  split; [exact Hcount|]. split; [exact Hsync|]. split; [|split].
  - rewrite <- Hreg. apply put_q_registrable_ext; [|exact Hs].
    apply pending_fds_ext; [exact Hq|]. intros c _. rewrite Hh. reflexivity.
  - rewrite Hq, Hn. exact Hlt.
  - rewrite Hq, Hs. exact Hown.
Qed.

Lemma manager_inv_pop st :
  manager_inv st -> manager_inv (_pop_readable_conn st).2.
Proof.
  intros H. apply (manager_inv_ext st); try exact H.
  - apply count_ok_pop, H.
  - apply ctrl_in_sync_pop, H.
  - unfold _pop_readable_conn. destruct (_readable_conns st); reflexivity.
  - unfold _pop_readable_conn. destruct (_readable_conns st); reflexivity.
  - unfold _pop_readable_conn. destruct (_readable_conns st); reflexivity.
  - unfold _pop_readable_conn. destruct (_readable_conns st); reflexivity.
Qed.

Lemma manager_inv_from_server_socket errors server env st :
  manager_inv st -> manager_inv (_from_server_socket errors server env st).2.
Proof.
  intros (Hcount & Hsync & Hreg & Hlt & Hown).
  destruct (from_server_socket_frame errors server env st)
    as (Hsame & Hle & Hheap).
  pose proof Hsame as (_ & Hq & Hs & _ & Hc).
  split; [eapply count_ok_same_manager; eauto|].
  split; [eapply ctrl_in_sync_ext; eauto|].
  split; [|split].
  - rewrite <- Hreg. apply put_q_registrable_ext; [|exact Hs].
    apply pending_fds_ext; [exact Hq|]. intros c Hin.
    rewrite Hheap; [reflexivity|].
    rewrite Forall_forall in Hlt. apply Hlt. exact Hin.
  - rewrite Hq. eapply Forall_impl; [exact Hlt|]. simpl. intros c Hc'. lia.
  - rewrite Hq, Hs. exact Hown.
Qed.

Lemma manager_inv_process_ctrl_msg st :
  manager_inv st -> manager_inv (_process_ctrl_msg st).2.
Proof.
  intros (Hcount & Hsync & Hreg & Hlt & Hown).
  pose proof (count_ok_process_ctrl_msg st Hreg Hcount) as Hcount'.
  pose proof (ctrl_in_sync_process_ctrl_msg st Hsync) as Hsync'.
  destruct (_put_q st) as [|conn q] eqn:Hq.
  { unfold ctrl_in_sync in Hsync. rewrite Hq in Hsync. simpl in Hsync.
    rewrite (process_ctrl_msg_blocked _ Hsync) in *.
    split; [exact Hcount|]. split; [exact Hsync'|]. simpl. rewrite Hq.
    split; [exact Hreg|]. split; [exact Hlt | exact Hown]. }
  pose proof (ctrl_in_sync_head _ _ _ Hsync Hq) as Hc.
  pose proof (put_q_registrable_tail conn q st) as Htail.
  rewrite (process_ctrl_msg_moves _ _ _ _ Hreg Hc Hq) in *.
  split; [exact Hcount'|]. split; [exact Hsync'|].
  split; [apply Htail; auto|].
  inversion Hlt as [|? ? Hconn Hlt']; subst.
  split; [exact Hlt'|].
  intros fd c Hfd Hin. simpl in Hfd, Hin.
  apply put_q_registrable_spec in Hreg as [Hnd _].
  unfold pending_fds in Hnd. rewrite Hq in Hnd. simpl in Hnd.
  inversion Hnd as [|? ? Hnotin _]; subst.
  destruct (decide (fd = conn_fileno (heap st conn))) as [->|Hne].
  - rewrite lookup_insert_eq in Hfd. inversion Hfd; subst c.
    apply Hnotin. apply list_elem_of_In.
    apply (in_map (fun c => conn_fileno (heap st c))). apply list_elem_of_In.
    exact Hin.
  - rewrite lookup_insert_ne in Hfd by congruence.
    apply (Hown fd c Hfd). right. exact Hin.
Qed.

Section ReachableStates.

Variable errors : errors_module.
Variable server : HTTPServer.

Lemma manager_inv_ready_client st fd conn :
  _selector st !! fd = Some (DConn conn) ->
  manager_inv st ->
  manager_inv
    (set_readable (_readable_conns st ++ [conn])
       (emit (EvUnregister fd) (set_selector (delete fd (_selector st)) st))).
Proof.
  intros Hfd (Hcount & Hsync & Hreg & Hlt & Hown).
  split; [|split; [|split; [|split]]].
  - unfold count_ok, managed_count, _get_selector_conns in *. simpl.
    pose proof (selector_conns_delete _ _ _ Hfd) as Hperm.
    apply Permutation_length in Hperm. rewrite length_app. simpl in *. lia.
  - exact Hsync.
  - eapply put_q_registrable_after_unregister; eauto; reflexivity.
  - exact Hlt.
  - intros fd' c Hfd'. simpl in *. apply (Hown fd').
    apply lookup_delete_Some in Hfd' as [_ Hfd']. exact Hfd'.
Qed.

Lemma manager_inv_get_conn_loop env rlist :
  forall st,
    manager_inv st -> Forall (key_consistent st) rlist ->
    manager_inv (get_conn_loop errors server env rlist st).2.
Proof.
  induction rlist as [|key rest IH]; intros st Hinv Hkeys; [exact Hinv|].
  inversion Hkeys as [|? ? Hkey Hrest]; subst.
  cbn [get_conn_loop]. destruct (key_data_of key) as [| |conn] eqn:Hdata.
  - (* the listening socket *)
    unfold bind.
    pose proof (manager_inv_from_server_socket errors server (accept_calls env)
                  st Hinv) as H.
    destruct (_from_server_socket errors server (accept_calls env) st)
      as [[r| e |] st']; exact H.
  - (* the control channel *)
    pose proof (manager_inv_process_ctrl_msg st Hinv) as Hinv'.
    destruct Hinv as (_ & Hsync & Hreg & _).
    unfold bind.
    destruct (_put_q st) as [|c q] eqn:Hq.
    { unfold ctrl_in_sync in Hsync. rewrite Hq in Hsync. simpl in Hsync.
      rewrite (process_ctrl_msg_blocked _ Hsync) in *. exact Hinv'. }
    pose proof (ctrl_in_sync_head _ _ _ Hsync Hq) as Hc.
    rewrite (process_ctrl_msg_moves _ _ _ _ Hreg Hc Hq) in *.
    apply IH; [exact Hinv'|].
    eapply Forall_impl; [exact Hrest|]. intros k Hk.
    eapply key_consistent_after_register; eauto.
  - (* a client connection *)
    unfold bind, selector_unregister.
    destruct (_selector st !! key_fd key) as [d|] eqn:Hfd; [|exact Hinv].
    simpl. destruct Hkey as [Hkey|[Hkey _]]; [|congruence].
    rewrite Hfd, Hdata in Hkey. inversion Hkey; subst d.
    apply IH.
    + apply manager_inv_ready_client; assumption.
    + destruct Hinv as (_ & _ & Hreg & _).
      eapply Forall_impl; [exact Hrest|]. intros k Hk.
      eapply key_consistent_after_unregister; eauto.
Qed.

Lemma manager_inv_get_conn env st :
  select_sound st env = true ->
  manager_inv st -> manager_inv (get_conn errors server env st).2.
Proof.
  intros Hsound Hinv. unfold get_conn, catch, bind.
  pose proof (manager_inv_pop st Hinv) as Hpop.
  unfold _pop_readable_conn in *.
  destruct (_readable_conns st) as [|conn rest] eqn:Hr; [|exact Hpop].
  simpl. unfold get_conn_select, bind, catch, modify, lift. simpl.
  assert (Hinv1 : manager_inv (emit EvSelect st)).
  { apply (manager_inv_ext st); try reflexivity; try exact Hinv; apply Hinv. }
  destruct (select_result env) as [rlist| e |] eqn:Hsel; simpl.
  - (* a batch *)
    pose proof (manager_inv_get_conn_loop env rlist (emit EvSelect st) Hinv1
                  (select_sound_consistent st env rlist Hsel Hsound)) as Hloop.
    destruct (get_conn_loop errors server env rlist (emit EvSelect st))
      as [[[r|]| e |] st'] eqn:Hl; simpl in *; try exact Hloop.
    pose proof (manager_inv_pop st' Hloop) as Hpop'.
    unfold _pop_readable_conn in *.
    destruct (_readable_conns st') as [|c q]; simpl in *; exact Hpop'.
  - (* select raised *)
    destruct e; simpl; try exact Hinv1.
    unfold ret.
    pose proof (manager_inv_remove_invalid_sockets (fstat_fails env)
                  (emit EvSelect st) Hinv1) as Hrm.
    destruct (_remove_invalid_sockets (fstat_fails env) (emit EvSelect st))
      as [[[]| e |] st']; simpl in *; exact Hrm.
  - exact Hinv1.
Qed.

Lemma manager_inv_step o st :
  caller_ok o st = true -> manager_inv st ->
  manager_inv (run_op errors server o st).
Proof.
  intros Hcaller Hinv.
  destruct o as [conn now|env|now| |sock_fd conn|]; simpl in *;
    try discriminate.
  - apply manager_inv_put; assumption.
  - apply manager_inv_get_conn; assumption.
  - apply manager_inv_expire; assumption.
Qed.

Lemma reachable_manager_inv st :
  reachable errors server st -> manager_inv st.
Proof.
  induction 1 as [h n s ctrl_rx_fileno st Hinit|o st _ IH Hcaller].
  - eapply manager_inv_init; eauto.
  - apply manager_inv_step; assumption.
Qed.

End ReachableStates.

(** ** The counter and the three placements *)



(** ** The control channel and the pending-put queue, always *)

(** C9: in every state the manager goes through, the bytes in flight on the
    control channel are one [PUT] byte per connection waiting in [_put_q],
    and every operation keeps it so, however it ends.  [put] of a connection
    without buffered input appends one connection and one byte; the handler
    takes one byte and the head of [_put_q], which it registers under its
    descriptor; its [popleft] never raises [IndexError]. *)
Theorem ctrl_channel_in_sync errors server :
  (forall st, reachable errors server st -> ctrl_in_sync st)
  /\ (forall (o : op) (st : state),
        ctrl_in_sync st ->
        ctrl_in_sync (run_op errors server o st)
        /\ (_process_ctrl_msg st).1 <> Raise IndexError
        /\ (forall conn now,
              rfile_has_data (heap st conn) = false ->
              _put_q (put conn now st).2 = _put_q st ++ [conn]
              /\ ctrl_chan (put conn now st).2 = ctrl_chan st ++ [x50]
              /\ log (put conn now st).2 = log st ++ [EvCtrlSend x50])
        /\ (forall conn q,
              _put_q st = conn :: q -> put_q_registrable st = true ->
              let r := _process_ctrl_msg st in
              r.1 = Return tt
              /\ _put_q r.2 = q
              /\ ctrl_chan st = x50 :: ctrl_chan r.2
              /\ _selector r.2 =
                   <[conn_fileno (heap st conn) := DConn conn]> (_selector st)
              /\ _selector st !! conn_fileno (heap st conn) = None
              /\ _num_conns r.2 = _num_conns st
              /\ _readable_conns r.2 = _readable_conns st)).
Proof.
  split.
  { intros st Hreach. apply (reachable_manager_inv errors server st Hreach). }
  intros o st H. split; [|split; [|split]].
  - destruct o as [conn now|env|now| |sock_fd conn|]; simpl.
    + apply ctrl_in_sync_put; exact H.
    + apply ctrl_in_sync_get_conn; exact H.
    + apply ctrl_in_sync_expire; exact H.
    + apply ctrl_in_sync_pop; exact H.
    + apply ctrl_in_sync_remove_conn; exact H.
    + apply ctrl_in_sync_process_ctrl_msg; exact H.
  - destruct (_put_q st) as [|conn q] eqn:Hq.
    + unfold ctrl_in_sync in H. rewrite Hq in H. simpl in H.
      rewrite (process_ctrl_msg_blocked _ H). discriminate.
    + pose proof (ctrl_in_sync_head _ _ _ H Hq) as Hc.
      rewrite (process_ctrl_msg_register _ _ _ _ Hc Hq).
      unfold selector_register. destruct (_ <? 0); [discriminate|].
      simpl. destruct (_selector st !! _); discriminate.
  - intros conn now Hd. rewrite (put_no_data _ _ _ Hd). repeat split.
  - intros conn q Hq Hreg r. subst r.
    pose proof (ctrl_in_sync_head _ _ _ H Hq) as Hc.
    rewrite (process_ctrl_msg_moves _ _ _ _ Hreg Hc Hq). simpl.
    apply put_q_registrable_spec in Hreg as [_ Hall].
    unfold pending_fds in Hall. rewrite Hq in Hall.
    inversion Hall as [|? ? [_ Hfree] _]; subst.
    repeat split; try reflexivity; assumption.
Qed.

(** In the example state connection 5 waits with its byte in flight; the
    handler registers it under descriptor 15 and the queue is empty. *)
Lemma ctrl_channel_in_sync_witness :
  ctrl_in_sync example_state
  /\ ctrl_in_sync (run_op example_errors example_server OpProcessCtrlMsg example_state)
  /\ _put_q (_process_ctrl_msg example_state).2 = []
  /\ _selector (_process_ctrl_msg example_state).2 !! 15 = Some (DConn 5%nat).
Proof.
  assert (H : ctrl_in_sync example_state) by reflexivity.
  destruct (ctrl_channel_in_sync example_errors example_server) as [_ Hstep].
  destruct (Hstep OpProcessCtrlMsg example_state H) as (Hsync & _ & _ & Hmove).
  split; [exact H|]. split; [exact Hsync|].
  destruct (Hmove 5%nat [] eq_refl eq_refl) as (_ & Hq & _ & Hsel & _).
  split; [exact Hq|]. rewrite Hsel. reflexivity.
Defined.

(** * Further properties of the code *)

(** ** Socket inheritance *)

Lemma lor_keeps_mask (a c : Z) : Z.land (Z.lor a c) c = c.
Proof.
  apply Z.bits_inj'. intros n Hn.
  rewrite Z.land_spec, Z.lor_spec. destruct (Z.testbit a n), (Z.testbit c n); reflexivity.
Qed.

(** What [prevent_socket_inheritance] does on a descriptor in the range of
    the open ones. *)
Lemma prevent_socket_inheritance_in_range (FD_CLOEXEC fd : Z) (t : fd_flags) :
  0 <= fd <= C_INT_MAX ->
  prevent_socket_inheritance FD_CLOEXEC fd t
  = match t !! fd with
    | None => (Raise (SocketError false (Errno 9)), t)
    | Some old_flags => (Return tt, <[fd := Z.lor old_flags FD_CLOEXEC]> t)
    end.
Proof.
  intros [Hlo Hhi]. unfold prevent_socket_inheritance, C_INT_MIN.
  rewrite (proj2 (Z.ltb_ge fd (- 2 ^ 31))) by lia.
  rewrite (proj2 (Z.ltb_ge C_INT_MAX fd)) by lia.
  rewrite (proj2 (Z.ltb_ge fd 0)) by lia. reflexivity.
Qed.

(** X1: on an open descriptor [prevent_socket_inheritance] succeeds and
    leaves every bit of [FD_CLOEXEC] set, every other bit of the flags and
    every other descriptor as they were; calling it again changes nothing.
    It changes nothing when it raises: [OSError] ([EBADF]) on a descriptor
    that is not open, [ValueError] on a negative one, as the -1 of a closed
    socket is, and [OverflowError] outside the range of a C [int]. *)
Theorem prevent_socket_inheritance_spec (FD_CLOEXEC fd : Z) (t : fd_flags) :
  let r := prevent_socket_inheritance FD_CLOEXEC fd t in
  (forall old_flags,
     0 <= fd <= C_INT_MAX ->
     t !! fd = Some old_flags ->
     r.1 = Return tt
     /\ (exists new_flags,
           r.2 !! fd = Some new_flags
           /\ Z.land new_flags FD_CLOEXEC = FD_CLOEXEC
           /\ (forall n, Z.testbit FD_CLOEXEC n = false ->
                         Z.testbit new_flags n = Z.testbit old_flags n))
     /\ (forall fd', fd' <> fd -> r.2 !! fd' = t !! fd')
     /\ prevent_socket_inheritance FD_CLOEXEC fd r.2 = (Return tt, r.2))
  /\ (0 <= fd <= C_INT_MAX -> t !! fd = None ->
      r = (Raise (SocketError false (Errno 9)), t))
  /\ (C_INT_MIN <= fd < 0 -> r = (Raise ValueError, t))
  /\ (fd < C_INT_MIN \/ C_INT_MAX < fd -> r = (Raise OtherError, t)).
Proof.
  intros r. subst r. split; [|split; [|split]].
  - intros old_flags Hrange Hfd.
    rewrite !(prevent_socket_inheritance_in_range _ _ _ Hrange).
    unfold fd_flags in *. rewrite Hfd. simpl. split; [reflexivity|].
    split; [|split].
    + exists (Z.lor old_flags FD_CLOEXEC). rewrite lookup_insert_eq.
      split; [reflexivity|]. split; [apply lor_keeps_mask|].
      intros n Hn. rewrite Z.lor_spec, Hn. apply orb_false_r.
    + intros fd' Hne. apply lookup_insert_ne. congruence.
    + rewrite lookup_insert_eq. f_equal. rewrite insert_insert_eq.
      f_equal. rewrite <- Z.lor_assoc, Z.lor_diag. reflexivity.
  - intros Hrange Hfd.
    rewrite (prevent_socket_inheritance_in_range _ _ _ Hrange).
    unfold fd_flags in *. rewrite Hfd. reflexivity.
  - intros [Hlo Hneg]. unfold prevent_socket_inheritance.
    rewrite (proj2 (Z.ltb_ge fd C_INT_MIN)) by lia.
    rewrite (proj2 (Z.ltb_ge C_INT_MAX fd)) by (unfold C_INT_MAX; lia).
    rewrite (proj2 (Z.ltb_lt fd 0)) by lia. reflexivity.
  - intros Hout. unfold prevent_socket_inheritance.
    destruct Hout as [Hlo|Hhi].
    + rewrite (proj2 (Z.ltb_lt fd C_INT_MIN)) by lia. reflexivity.
    + rewrite (proj2 (Z.ltb_lt C_INT_MAX fd)) by lia.
      rewrite orb_true_r. reflexivity.
Qed.

(** Descriptor 7 with flags 4, [FD_CLOEXEC] being 1: the flags become 5.
    Descriptor 8 is not open; -1 is the descriptor of a closed socket. *)
Lemma prevent_socket_inheritance_spec_witness :
  (prevent_socket_inheritance 1 7 {[ 7 := 4 ]}).2 !! 7 = Some 5
  /\ (prevent_socket_inheritance 1 8 {[ 7 := 4 ]}).1
     = Raise (SocketError false (Errno 9))
  /\ (prevent_socket_inheritance 1 (-1) {[ 7 := 4 ]}).1 = Raise ValueError
  /\ (prevent_socket_inheritance 1 (2 ^ 31) {[ 7 := 4 ]}).1 = Raise OtherError.
Proof.
  destruct (prevent_socket_inheritance_spec 1 7 {[ 7 := 4 ]}) as [Hopen _].
  destruct (prevent_socket_inheritance_spec 1 8 {[ 7 := 4 ]})
    as (_ & Hclosed & _).
  destruct (prevent_socket_inheritance_spec 1 (-1) {[ 7 := 4 ]})
    as (_ & _ & Hneg & _).
  destruct (prevent_socket_inheritance_spec 1 (2 ^ 31) {[ 7 := 4 ]})
    as (_ & _ & _ & Hbig).
  split; [|split; [|split]].
  - destruct (Hopen 4) as (_ & _ & _ & _);
      [unfold C_INT_MAX; lia | reflexivity | reflexivity].
  - rewrite Hclosed; [reflexivity | unfold C_INT_MAX; lia | reflexivity].
  - rewrite Hneg; [reflexivity | unfold C_INT_MIN; lia].
  - rewrite Hbig; [reflexivity | right; unfold C_INT_MAX; lia].
Defined.

(** ** More on the eviction sweep *)

Lemma filter_none {A} (p : A -> bool) (l : list A) :
  (forall x, In x l -> p x = false) -> List.filter p l = [].
Proof.
  induction l as [|x l IH]; intros H; [reflexivity|]. simpl.
  rewrite (H x (or_introl eq_refl)). apply IH. intros y Hy. apply H. right. exact Hy.
Qed.

Lemma last_used_with_closed_if (b : bool) o :
  last_used (if b then with_closed o else o) = last_used o.
Proof. destruct b; reflexivity. Qed.

(** X2: [expire()] leaves the readable queue, the pending-put queue and the
    control channel as they are, and touches no connection that is not
    registered with the selector: connections waiting in the queues are not
    expired, however old.  It changes no time stamp, and once it has run,
    running it again for the same or an earlier time does nothing at all. *)
Theorem expire_frame_and_repeat (server : HTTPServer) (now : Q) (st : state) :
  let r := expire server now st in
  _readable_conns r.2 = _readable_conns st
  /\ _put_q r.2 = _put_q st
  /\ ctrl_chan r.2 = ctrl_chan st
  /\ (forall c, (forall fd, _selector st !! fd <> Some (DConn c)) ->
               heap r.2 c = heap st c)
  /\ (forall c, last_used (heap r.2 c) = last_used (heap st c))
  /\ (forall now', (now' <= now)%Q -> expire server now' r.2 = (Return tt, r.2)).
Proof.
  intros r.
  destruct (expire_removes_timed_out server now st)
    as (_ & Hsel & _ & Hr & Hq & Hc & Hheap & _).
  fold r in Hsel, Hr, Hq, Hc, Hheap.
  split; [exact Hr|]. split; [exact Hq|]. split; [exact Hc|].
  split; [|split].
  - intros c Hnot. rewrite Hheap. rewrite bool_decide_eq_false_2; [reflexivity|].
    intros Hin. apply list_elem_of_fmap in Hin as [[fd c'] [Heq Hin]].
    simpl in Heq. subst c'. apply elem_of_timed_out in Hin as [Hreg _].
    exact (Hnot fd Hreg).
  - intros c. rewrite Hheap. apply last_used_with_closed_if.
  - intros now' Hle. unfold expire.
    assert (Hnone : timed_out_connections (now' - timeout server)%Q r.2 = []).
    { apply filter_none. intros [fd c] Hin. simpl.
      apply list_elem_of_In in Hin. apply elem_of_selector_conns in Hin.
      rewrite Hsel in Hin.
      destruct (bool_decide (fd ∈ (timed_out_connections (now - timeout server) st).*1))
        eqn:Hev; [discriminate|].
      apply bool_decide_eq_false in Hev.
      destruct (Qltb (last_used (heap r.2 c)) (now' - timeout server)) eqn:Hlt;
        [|reflexivity].
      exfalso. apply Hev. apply Qltb_lt in Hlt.
      rewrite Hheap, last_used_with_closed_if in Hlt.
      apply list_elem_of_fmap. exists (fd, c). split; [reflexivity|].
      apply elem_of_timed_out. split; [exact Hin|].
      eapply Qlt_le_trans; [exact Hlt|].
      unfold Qminus. apply Qplus_le_l. exact Hle. }
    rewrite Hnone. reflexivity.
Qed.

(** After the sweep at time 16 of the example, sweeping again at 16 or at 12
    changes nothing. *)
Lemma expire_frame_and_repeat_witness :
  let st' := (expire example_server 16%Q example_state).2 in
  expire example_server 16%Q st' = (Return tt, st')
  /\ expire example_server 12%Q st' = (Return tt, st')
  /\ _put_q st' = [5%nat].
Proof.
  intros st'.
  destruct (expire_frame_and_repeat example_server 16%Q example_state)
    as (_ & Hq & _ & _ & _ & Hagain).
  split; [apply Hagain; vm_compute; discriminate|].
  split; [apply Hagain; vm_compute; discriminate | exact Hq].
Defined.

(** ** [get_conn] when [select] fails *)





(** ** A batch without the listening socket *)

(** X4: with nothing in the readable queue and a batch in which the
    listening socket is not ready, [get_conn] returns the first ready client
    connection of the batch ([None] when there is none, as after a timeout
    of [select]); every ready client connection is unregistered, the others
    wait in the readable queue in the batch's order, and the count goes down
    by one exactly when a connection is returned. *)
Theorem get_conn_ready_clients errors server env (st : state)
    (keys : list SelectorKey) :
  _readable_conns st = [] ->
  select_result env = Return keys ->
  batch_ok st keys = true ->
  let r := get_conn errors server env st in
  r.1 = Return (head (batch_conns keys))
  /\ _readable_conns r.2 = tail (batch_conns keys)
  /\ (forall key conn, key ∈ keys -> key_data_of key = DConn conn ->
                      _selector r.2 !! key_fd key = None)
  /\ (forall fd d, _selector st !! fd = Some d -> fd ∉ key_fd <$> keys ->
                  _selector r.2 !! fd = Some d)
  /\ _num_conns r.2
     = _num_conns st - (match batch_conns keys with [] => 0 | _ :: _ => 1 end).
Proof.
  intros Hempty Hsel Hok r.
  apply batch_ok_spec in Hok as (Hnl & Hnd & Hreg & Hlen & Hq & Hsync).
  destruct (get_conn_loop_prefix errors server env keys [] (emit EvSelect st)
              Hnl Hnd Hreg Hlen Hq Hsync)
    as (st' & Hloop & Hr & Hgone & Hkeep & _ & _ & _ & Hnum & _).
  rewrite app_nil_r in Hloop. cbn [get_conn_loop] in Hloop.
  simpl in Hr, Hnum, Hkeep. rewrite Hempty in Hr. simpl in Hr.
  assert (E : r = catch (let! conn := _pop_readable_conn in ret (Some conn))
                    (fun ex => match ex with
                               | IndexError => Some (ret None)
                               | _ => None
                               end) st').
  { subst r. unfold get_conn, catch at 1, bind at 1, _pop_readable_conn at 1.
    rewrite Hempty. unfold get_conn_select.
    unfold bind at 1, catch at 1, bind at 1, modify at 1.
    unfold bind at 1, lift at 1. rewrite Hsel. unfold ret at 1.
    unfold bind at 1. rewrite Hloop. reflexivity. }
  clearbody r. subst r.
  unfold catch, bind, _pop_readable_conn. rewrite Hr.
  destruct (batch_conns keys) as [|conn rest]; simpl.
  - repeat split; try assumption. lia.
  - repeat split; try assumption. lia.
Qed.

(** Connections 3 and 1 are ready, in this order: 3 is returned, 1 waits in
    the readable queue, both are unregistered. *)
Lemma get_conn_ready_clients_witness :
  let keys := [ {| key_fd := 13; key_data_of := DConn 3%nat |};
                {| key_fd := 11; key_data_of := DConn 1%nat |} ] in
  let r := get_conn example_errors example_server (example_env keys)
             example_state in
  r.1 = Return (Some 3%nat) /\ _readable_conns r.2 = [1%nat]
  /\ _selector r.2 !! 11 = None /\ _num_conns r.2 = 2.
Proof.
  intros keys r.
  destruct (get_conn_ready_clients example_errors example_server
              (example_env keys) example_state keys eq_refl eq_refl eq_refl)
    as (Hret & Hr & Hgone & _ & Hn).
  fold r in Hret, Hr, Hgone, Hn.
  split; [exact Hret|]. split; [exact Hr|].
  split; [|rewrite Hn; vm_compute; reflexivity].
  apply (Hgone {| key_fd := 11; key_data_of := DConn 1%nat |} 1%nat).
  - right. left.
  - reflexivity.
Defined.

(** ** From [put] to [get_conn] through the control channel *)

Lemma conn_fileno_last_used conn now h c :
  conn_fileno (heap_update conn (with_last_used now) h c) = conn_fileno (h c).
Proof. unfold heap_update. destruct (Nat.eqb c conn); reflexivity. Qed.

(** [put] of a connection without buffered input, then the [get_conn] that
    sees the control channel ready. *)
Lemma put_then_register errors server env (conn : conn_ref) (now : Q)
    (st : state) (ctrl_key : SelectorKey) :
  rfile_has_data (heap st conn) = false ->
  _readable_conns st = [] -> _put_q st = [] -> ctrl_chan st = [] ->
  0 <= conn_fileno (heap st conn) ->
  _selector st !! conn_fileno (heap st conn) = None ->
  select_result env = Return [ctrl_key] ->
  key_data_of ctrl_key = DCtrlRx ->
  exists s1,
    get_conn errors server env (put conn now st).2 = (Return None, s1)
    /\ _readable_conns s1 = [] /\ _put_q s1 = [] /\ ctrl_chan s1 = []
    /\ _selector s1 = <[conn_fileno (heap st conn) := DConn conn]> (_selector st)
    /\ _num_conns s1 = _num_conns st + 1
    /\ heap s1 = heap_update conn (with_last_used now) (heap st).
Proof.
  intros Hd Hr Hq Hc Hge Hfree Hsel1 Hctrl.
  set (fd := conn_fileno (heap st conn)) in *.
  rewrite (put_no_data _ _ _ Hd).
  unfold get_conn, catch at 1, bind at 1, _pop_readable_conn at 1.
  cbn [snd _readable_conns emit set_ctrl_chan set_put_q set_heap set_num_conns].
  rewrite Hr. unfold get_conn_select.
  unfold bind at 1, catch at 1, bind at 1, modify at 1.
  unfold bind at 1, lift at 1. rewrite Hsel1. unfold ret at 1.
  unfold bind at 1. cbn [get_conn_loop]. rewrite Hctrl.
  unfold bind at 1.
  match goal with
  | |- context [_process_ctrl_msg ?s] =>
      rewrite (process_ctrl_msg_register [] conn [] s);
      [|simpl; rewrite Hc; reflexivity | simpl; rewrite Hq; reflexivity]
  end.
  cbn [heap emit set_ctrl_chan set_put_q set_heap set_num_conns after_recv].
  rewrite conn_fileno_last_used. fold fd.
  rewrite selector_register_free; [|exact Hge | exact Hfree].
  unfold ret at 1. unfold catch, bind, _pop_readable_conn. simpl.
  rewrite Hr. simpl. eexists. split; [reflexivity|]. simpl.
  repeat split; try assumption; reflexivity.
Qed.

(** X5: a connection without buffered input, [put] into a manager whose
    queues and control channel are empty: the [get_conn] that sees the
    control channel ready registers the connection under its descriptor and
    returns [None]; the [get_conn] that then sees that descriptor ready
    returns the connection.  The count is one higher in between and back to
    its value at the end, the selector is as it was, and the connection
    carries the time of the [put]. *)
Theorem put_round_trip errors server env1 env2 (conn : conn_ref) (now : Q)
    (st : state) (ctrl_key : SelectorKey) :
  rfile_has_data (heap st conn) = false ->
  _readable_conns st = [] -> _put_q st = [] -> ctrl_chan st = [] ->
  0 <= conn_fileno (heap st conn) ->
  _selector st !! conn_fileno (heap st conn) = None ->
  select_result env1 = Return [ctrl_key] ->
  key_data_of ctrl_key = DCtrlRx ->
  select_result env2
    = Return [ {| key_fd := conn_fileno (heap st conn);
                  key_data_of := DConn conn |} ] ->
  let r1 := get_conn errors server env1 (put conn now st).2 in
  let r2 := get_conn errors server env2 r1.2 in
  r1.1 = Return None
  /\ _selector r1.2 = <[conn_fileno (heap st conn) := DConn conn]> (_selector st)
  /\ _put_q r1.2 = [] /\ ctrl_chan r1.2 = []
  /\ _num_conns r1.2 = _num_conns st + 1
  /\ r2.1 = Return (Some conn)
  /\ _selector r2.2 = _selector st
  /\ _readable_conns r2.2 = [] /\ _put_q r2.2 = []
  /\ _num_conns r2.2 = _num_conns st
  /\ last_used (heap r2.2 conn) = now.
Proof.
  intros Hd Hr Hq Hc Hge Hfree Hsel1 Hctrl Hsel2 r1 r2.
  set (fd := conn_fileno (heap st conn)) in *.
  assert (E1 : exists s1,
             r1 = (Return None, s1)
             /\ _readable_conns s1 = [] /\ _put_q s1 = [] /\ ctrl_chan s1 = []
             /\ _selector s1 = <[fd := DConn conn]> (_selector st)
             /\ _num_conns s1 = _num_conns st + 1
             /\ heap s1 = heap_update conn (with_last_used now) (heap st)).
  { subst r1. eapply put_then_register; eauto. }
  destruct E1 as (s1 & E1 & Hr1 & Hq1 & Hc1 & Hs1 & Hn1 & Hh1).
  rewrite E1. cbn [fst snd].
  split; [reflexivity|]. split; [exact Hs1|]. split; [exact Hq1|].
  split; [exact Hc1|]. split; [exact Hn1|].
  assert (E2 : exists s2,
             r2 = (Return (Some conn), s2)
             /\ _selector s2 = delete fd (_selector s1)
             /\ _readable_conns s2 = [] /\ _put_q s2 = _put_q s1
             /\ _num_conns s2 = _num_conns s1 - 1
             /\ heap s2 = heap s1).
  { subst r2. rewrite E1. cbn [snd].
    unfold get_conn, catch at 1, bind at 1, _pop_readable_conn at 1. rewrite Hr1.
    unfold get_conn_select.
    unfold bind at 1, catch at 1, bind at 1, modify at 1.
    unfold bind at 1, lift at 1. rewrite Hsel2. unfold ret at 1.
    unfold bind at 1. cbn [get_conn_loop key_data_of key_fd].
    unfold bind at 1, selector_unregister.
    cbn [_selector emit]. rewrite Hs1, lookup_insert_eq.
    unfold bind, modify, ret, catch, _pop_readable_conn. simpl. rewrite Hr1. simpl.
    eexists. split; [reflexivity|]. simpl. rewrite ?Hs1.
    repeat split; reflexivity. }
  destruct E2 as (s2 & E2 & Hs2 & Hr2 & Hq2 & Hn2 & Hh2).
  rewrite E2. cbn [fst snd].
  rewrite Hs2, Hr2, Hq2, Hn2, Hh2, Hs1, Hq1, Hn1, Hh1, heap_update_same.
  rewrite delete_insert_id by exact Hfree.
  repeat split; try reflexivity. lia.
Qed.

(** Connection 7 (descriptor 17, no buffered input) put at time 9 into the
    freshly initialised manager, then the two calls. *)
Lemma put_round_trip_witness :
  let r1 := get_conn example_errors example_server
              (example_env [ {| key_fd := 4; key_data_of := DCtrlRx |} ])
              (put 7%nat 9%Q example_init).2 in
  let r2 := get_conn example_errors example_server
              (example_env [ {| key_fd := 17; key_data_of := DConn 7%nat |} ])
              r1.2 in
  r1.1 = Return None /\ r2.1 = Return (Some 7%nat)
  /\ _num_conns r2.2 = 0.
Proof.
  intros r1 r2.
  destruct (put_round_trip example_errors example_server
              (example_env [ {| key_fd := 4; key_data_of := DCtrlRx |} ])
              (example_env [ {| key_fd := 17; key_data_of := DConn 7%nat |} ])
              7%nat 9%Q example_init {| key_fd := 4; key_data_of := DCtrlRx |}
              eq_refl eq_refl eq_refl eq_refl ltac:(vm_compute; discriminate)
              eq_refl eq_refl eq_refl eq_refl)
    as (H1 & _ & _ & _ & _ & H2 & _ & _ & _ & Hn & _).
  split; [exact H1|]. split; [exact H2 | exact Hn].
Defined.

(** X6: a connection put at time [t] and registered through the control
    channel is evicted by [expire()] at time [now] exactly when
    [t < now - timeout]; up to [t + timeout] it stays registered and
    open. *)
Theorem put_then_expire errors server env (conn : conn_ref) (t now : Q)
    (st : state) (ctrl_key : SelectorKey) :
  rfile_has_data (heap st conn) = false ->
  _readable_conns st = [] -> _put_q st = [] -> ctrl_chan st = [] ->
  0 <= conn_fileno (heap st conn) ->
  _selector st !! conn_fileno (heap st conn) = None ->
  select_result env = Return [ctrl_key] ->
  key_data_of ctrl_key = DCtrlRx ->
  let fd := conn_fileno (heap st conn) in
  let r := expire server now (get_conn errors server env (put conn t st).2).2 in
  (_selector r.2 !! fd = None <-> (t < now - timeout server)%Q)
  /\ ((now <= t + timeout server)%Q ->
      _selector r.2 !! fd = Some (DConn conn)
      /\ conn_closed (heap r.2 conn) = conn_closed (heap st conn))
  /\ ((t < now - timeout server)%Q -> conn_closed (heap r.2 conn) = true).
Proof.
  intros Hd Hr Hq Hc Hge Hfree Hsel Hctrl fd r.
  destruct (put_then_register errors server env conn t st ctrl_key
              Hd Hr Hq Hc Hge Hfree Hsel Hctrl)
    as (s1 & E1 & _ & _ & _ & Hs1 & _ & Hh1).
  fold fd in Hs1. subst r. rewrite E1. cbn [snd].
  destruct (expire_removes_timed_out server now s1)
    as (_ & Hs & _ & _ & _ & _ & Hheap & _).
  assert (Hreg : _selector s1 !! fd = Some (DConn conn))
    by (rewrite Hs1; apply lookup_insert_eq).
  assert (Hlu : last_used (heap s1 conn) = t)
    by (rewrite Hh1, heap_update_same; reflexivity).
  assert (Hclosed : conn_closed (heap s1 conn) = conn_closed (heap st conn))
    by (rewrite Hh1, heap_update_same; reflexivity).
  assert (Hin1 : fd ∈ (timed_out_connections (now - timeout server) s1).*1
                 <-> (t < now - timeout server)%Q).
  { split.
    - intros H. apply list_elem_of_fmap in H as [[fd' c'] [Heq H]].
      simpl in Heq. subst fd'. apply elem_of_timed_out in H as [Hreg' Hlt].
      rewrite Hreg in Hreg'. inversion Hreg'; subst c'. rewrite Hlu in Hlt. exact Hlt.
    - intros Hlt. apply list_elem_of_fmap. exists (fd, conn).
      split; [reflexivity|]. apply elem_of_timed_out. rewrite Hlu. split; assumption. }
  assert (Hin2 : conn ∈ (timed_out_connections (now - timeout server) s1).*2
                 <-> (t < now - timeout server)%Q).
  { split.
    - intros H. apply list_elem_of_fmap in H as [[fd' c'] [Heq H]].
      simpl in Heq. subst c'. apply elem_of_timed_out in H as [_ Hlt].
      rewrite Hlu in Hlt. exact Hlt.
    - intros Hlt. apply list_elem_of_fmap. exists (fd, conn).
      split; [reflexivity|]. apply elem_of_timed_out. rewrite Hlu. split; assumption. }
  split; [|split].
  - rewrite Hs. destruct (bool_decide _) eqn:Hd'.
    + apply bool_decide_eq_true in Hd'. split; [intros _; apply Hin1; exact Hd'|reflexivity].
    + apply bool_decide_eq_false in Hd'. rewrite Hreg.
      split; [discriminate|]. intros Hlt. exfalso. apply Hd', Hin1. exact Hlt.
  - intros Hle.
    assert (Hnlt : ~ (t < now - timeout server)%Q).
    { intros Hlt. apply (Qlt_not_le _ _ Hlt).
      apply Qplus_le_l with (z := timeout server). unfold Qminus.
      rewrite <- Qplus_assoc, (Qplus_comm (- timeout server)), Qplus_opp_r, Qplus_0_r.
      exact Hle. }
    split.
    + rewrite Hs. rewrite bool_decide_eq_false_2; [exact Hreg|].
      intros H. apply Hnlt, Hin1. exact H.
    + rewrite Hheap. rewrite bool_decide_eq_false_2; [exact Hclosed|].
      intros H. apply Hnlt, Hin2. exact H.
  - intros Hlt. rewrite Hheap. rewrite bool_decide_eq_true_2; [reflexivity|].
    apply Hin2. exact Hlt.
Qed.

(** Connection 7 put at time 9 with a timeout of 10: still registered at
    time 19, evicted at time 20. *)
Lemma put_then_expire_witness :
  let s1 := (get_conn example_errors example_server
               (example_env [ {| key_fd := 4; key_data_of := DCtrlRx |} ])
               (put 7%nat 9%Q example_init).2).2 in
  _selector (expire example_server 19%Q s1).2 !! 17 = Some (DConn 7%nat)
  /\ _selector (expire example_server 20%Q s1).2 !! 17 = None.
Proof.
  intros s1. split.
  - destruct (put_then_expire example_errors example_server
                (example_env [ {| key_fd := 4; key_data_of := DCtrlRx |} ])
                7%nat 9%Q 19%Q example_init {| key_fd := 4; key_data_of := DCtrlRx |}
                eq_refl eq_refl eq_refl eq_refl ltac:(vm_compute; discriminate)
                eq_refl eq_refl eq_refl) as (_ & Hkeep & _).
    apply Hkeep. vm_compute. discriminate.
  - destruct (put_then_expire example_errors example_server
                (example_env [ {| key_fd := 4; key_data_of := DCtrlRx |} ])
                7%nat 9%Q 20%Q example_init {| key_fd := 4; key_data_of := DCtrlRx |}
                eq_refl eq_refl eq_refl eq_refl ltac:(vm_compute; discriminate)
                eq_refl eq_refl eq_refl) as (Hiff & _).
    apply Hiff. vm_compute. reflexivity.
Defined.

(** ** The connection an acceptance returns *)

(** Every call succeeding, the acceptance creates one object and returns
    it. *)
Lemma from_server_socket_success errors server env (st : state)
    (s : socket_obj) addr (s' : socket_obj) (ssl_env' : ssl_env_t) (n : nat) :
  accept_result env = Return (s, addr) ->
  inherit_result env = Return tt ->
  settimeout_result env = Return tt ->
  (if ssl_adapter server
   then wrap_result env = Return (Some s', ssl_env')
        /\ settimeout2_result env = Return tt
   else s' = s /\ ssl_env' = []) ->
  (asks_sockname server addr = true -> getsockname_len env = Return n) ->
  exists st',
    _from_server_socket errors server env st = (Return (Some (next_ref st)), st')
    /\ heap st' (next_ref st) =
         {| conn_socket := s';
            conn_makefile := if ssl_adapter server then AdapterMakefile else MakeFile;
            last_used := factory_last_used env;
            rfile_has_data := factory_has_data env;
            conn_closed := false;
            remote_addr := (remote_of server addr n).1;
            remote_port := (remote_of server addr n).2;
            ssl_env := Some ssl_env' |}
    /\ (forall c, c <> next_ref st -> heap st' c = heap st c)
    /\ next_ref st' = S (next_ref st)
    /\ same_manager st st'
    /\ stats st' = (if stats_Enabled (stats st) then incr_Accepts (stats st)
                    else stats st)
    /\ log st' = log st
                 ++ (if sock_has_settimeout s
                     then [EvSetTimeout s (timeout server)] else [])
                 ++ (if ssl_adapter server && sock_has_settimeout s'
                     then [EvSetTimeout s' (timeout server)] else []).
Proof.
  intros Hacc Hinh Hst Hwrap Hname.
  unfold remote_of, asks_sockname in *.
  unfold _from_server_socket, _from_server_socket_body.
  unfold catch at 1, bind at 1, lift at 1. rewrite Hacc. cbn [fst snd].
  unfold bind at 1, modify at 1.
  unfold bind at 1, lift at 1. rewrite Hinh.
  unfold bind at 1, settimeout at 1.
  destruct (ssl_adapter server) eqn:Hssl.
  - destruct Hwrap as [Hwrap Hst2].
    destruct (sock_has_settimeout s) eqn:Hhs, (sock_has_settimeout s') eqn:Hhs',
      (stats_Enabled (stats st)) eqn:Hen, (bind_addr server) as [p|h pt] eqn:Hb,
      addr as [[host port]|], (Nat.eqb n 2) eqn:Hn2;
      unfold bind, lift, modify, ret, catch, settimeout, ConnectionClass;
      rewrite ?Hst, ?Hwrap, ?Hhs', ?Hst2; simpl; rewrite ?Hst2; simpl;
      rewrite ?(Hname eq_refl); simpl; rewrite ?Hn2; simpl;
      rewrite ?(Hname eq_refl); simpl;
      (eexists; split; [reflexivity|]); simpl;
      rewrite ?heap_update_same, ?app_nil_r, <- ?app_assoc; simpl;
      (repeat split; try reflexivity;
       intros c Hne; rewrite ?heap_update_other by exact Hne; reflexivity).
  - destruct Hwrap as [-> ->].
    destruct (sock_has_settimeout s) eqn:Hhs,
      (stats_Enabled (stats st)) eqn:Hen, (bind_addr server) as [p|h pt] eqn:Hb,
      addr as [[host port]|], (Nat.eqb n 2) eqn:Hn2;
      unfold bind, lift, modify, ret, catch, settimeout, ConnectionClass;
      rewrite ?Hst; simpl;
      rewrite ?(Hname eq_refl); simpl; rewrite ?Hn2; simpl;
      rewrite ?(Hname eq_refl); simpl;
      (eexists; split; [reflexivity|]); simpl;
      rewrite ?heap_update_same, ?app_nil_r, <- ?app_assoc; simpl;
      (repeat split; try reflexivity;
       intros c Hne; rewrite ?heap_update_other by exact Hne; reflexivity).
Qed.

(** X7: without a TLS adapter, when [accept], the inheritance guard and
    [settimeout] succeed, the acceptance returns a new object built on the
    accepted socket with the plain [MakeFile] and an empty TLS environment;
    the idle timeout is set once on that socket; the manager does not hold
    the connection (queues, selector and count are as before) and no other
    object is touched; [Accepts] is counted when statistics are enabled. *)
Theorem accept_plain_connection errors server env (st : state)
    (s : socket_obj) (host : pystr) (port : Z) :
  ssl_adapter server = false ->
  accept_result env = Return (s, Some (host, port)) ->
  inherit_result env = Return tt ->
  settimeout_result env = Return tt ->
  let r := _from_server_socket errors server env st in
  let conn := next_ref st in
  r.1 = Return (Some conn)
  /\ conn_socket (heap r.2 conn) = s
  /\ conn_makefile (heap r.2 conn) = MakeFile
  /\ ssl_env (heap r.2 conn) = Some []
  /\ conn_closed (heap r.2 conn) = false
  /\ (forall c, c <> conn -> heap r.2 c = heap st c)
  /\ next_ref r.2 = S conn
  /\ same_manager st r.2
  /\ stats_Accepts (stats r.2)
     = stats_Accepts (stats st) + (if stats_Enabled (stats st) then 1 else 0)
  /\ stats_Socket_Errors (stats r.2) = stats_Socket_Errors (stats st)
  /\ log r.2 = log st ++ (if sock_has_settimeout s
                          then [EvSetTimeout s (timeout server)] else []).
Proof.
  intros Hssl Hacc Hinh Hst r conn.
  destruct (from_server_socket_success errors server env st s
              (Some (host, port)) s [] 0%nat Hacc Hinh Hst) as (st' & E & H).
  { rewrite Hssl. split; reflexivity. }
  { unfold asks_sockname. destruct (bind_addr server); discriminate. }
  subst r conn. rewrite E. cbn [fst snd].
  destruct H as (Hobj & Hothers & Hnext & Hsame & Hstats & Hlog).
  rewrite Hobj, Hstats, Hlog, Hssl. cbn [andb]. rewrite app_nil_r.
  repeat split; try assumption; try apply Hsame;
    destruct (stats_Enabled (stats st)); simpl; lia.
Qed.

Lemma accept_plain_connection_witness :
  let env :=
    {| accept_result :=
         Return ({| sock_fileno := 20; sock_has_settimeout := true |},
                 Some (pystr_of_string "10.0.0.7", 51000));
       inherit_result := Return tt; settimeout_result := Return tt;
       wrap_result := Raise NoSSLError; write_result := Return tt;
       settimeout2_result := Return tt; getsockname_len := Raise OtherError;
       factory_last_used := 0%Q; factory_has_data := false |} in
  let r := _from_server_socket example_errors example_server env example_state in
  r.1 = Return (Some 6%nat)
  /\ sock_fileno (conn_socket (heap r.2 6%nat)) = 20
  /\ stats_Accepts (stats r.2) = 1
  /\ _num_conns r.2 = 3.
Proof.
  intros env r.
  destruct (accept_plain_connection example_errors example_server env
              example_state {| sock_fileno := 20; sock_has_settimeout := true |}
              (pystr_of_string "10.0.0.7") 51000 eq_refl eq_refl eq_refl eq_refl)
    as (H1 & H2 & _ & _ & _ & _ & _ & Hsame & Hacc & _).
  fold r in H1, H2, Hsame, Hacc.
  split; [exact H1|]. split; [exact (f_equal sock_fileno H2)|].
  split; [exact Hacc|].
  destruct Hsame as (_ & _ & _ & Hn & _). exact Hn.
Defined.

(** X8: with a TLS adapter whose [wrap] returns a socket, the acceptance
    returns a new object built on the wrapped socket with the adapter's
    [makefile] and the environment of the handshake; the idle timeout is
    set on the accepted socket and set again on the wrapped one. *)
Theorem accept_tls_connection errors server env (st : state)
    (s s' : socket_obj) (host : pystr) (port : Z) (ssl_env' : ssl_env_t) :
  ssl_adapter server = true ->
  accept_result env = Return (s, Some (host, port)) ->
  inherit_result env = Return tt ->
  settimeout_result env = Return tt ->
  wrap_result env = Return (Some s', ssl_env') ->
  settimeout2_result env = Return tt ->
  let r := _from_server_socket errors server env st in
  let conn := next_ref st in
  r.1 = Return (Some conn)
  /\ conn_socket (heap r.2 conn) = s'
  /\ conn_makefile (heap r.2 conn) = AdapterMakefile
  /\ ssl_env (heap r.2 conn) = Some ssl_env'
  /\ (forall c, c <> conn -> heap r.2 c = heap st c)
  /\ same_manager st r.2
  /\ log r.2 = log st
                ++ (if sock_has_settimeout s
                    then [EvSetTimeout s (timeout server)] else [])
                ++ (if sock_has_settimeout s'
                    then [EvSetTimeout s' (timeout server)] else []).
Proof.
  intros Hssl Hacc Hinh Hst Hwrap Hst2 r conn.
  destruct (from_server_socket_success errors server env st s
              (Some (host, port)) s' ssl_env' 0%nat Hacc Hinh Hst)
    as (st' & E & H).
  { rewrite Hssl. split; assumption. }
  { unfold asks_sockname. destruct (bind_addr server); discriminate. }
  subst r conn. rewrite E. cbn [fst snd].
  destruct H as (Hobj & Hothers & Hnext & Hsame & Hstats & Hlog).
  rewrite Hobj, Hlog, Hssl. cbn [andb].
  repeat split; try assumption; apply Hsame.
Qed.

Lemma accept_tls_connection_witness :
  let raw := {| sock_fileno := 20; sock_has_settimeout := true |} in
  let tls := {| sock_fileno := 20; sock_has_settimeout := true |} in
  let env :=
    {| accept_result := Return (raw, Some (pystr_of_string "10.0.0.7", 51000));
       inherit_result := Return tt; settimeout_result := Return tt;
       wrap_result := Return (Some tls, [("SSL_PROTOCOL"%string, "TLSv1.3"%string)]);
       write_result := Return tt;
       settimeout2_result := Return tt; getsockname_len := Raise OtherError;
       factory_last_used := 0%Q; factory_has_data := false |} in
  let r := _from_server_socket example_errors example_tls_server env
             example_state in
  r.1 = Return (Some 6%nat)
  /\ ssl_env (heap r.2 6%nat) = Some [("SSL_PROTOCOL"%string, "TLSv1.3"%string)]
  /\ conn_makefile (heap r.2 6%nat) = AdapterMakefile.
Proof.
  intros raw tls env r.
  destruct (accept_tls_connection example_errors example_tls_server env
              example_state raw tls (pystr_of_string "10.0.0.7") 51000
              [("SSL_PROTOCOL"%string, "TLSv1.3"%string)]
              eq_refl eq_refl eq_refl eq_refl eq_refl eq_refl)
    as (H1 & _ & H3 & H4 & _).
  split; [exact H1|]. split; [exact H4 | exact H3].
Defined.

(** X9: the remote address of the connection an acceptance returns.  With a
    bind address that is a path, address and port are left unset and
    [getsockname] is not asked (its failing changes nothing).  Otherwise
    they are the peer's address and port; when [accept] gives no peer
    address they are ["0.0.0.0"] and 0 if [getsockname] has two elements,
    ["::"] and 0 if not. *)
Theorem accept_remote_address errors server env (st : state)
    (s : socket_obj) addr (n : nat) :
  ssl_adapter server = false ->
  accept_result env = Return (s, addr) ->
  inherit_result env = Return tt ->
  settimeout_result env = Return tt ->
  (asks_sockname server addr = true -> getsockname_len env = Return n) ->
  let r := _from_server_socket errors server env st in
  let conn := next_ref st in
  r.1 = Return (Some conn)
  /\ (forall p, bind_addr server = BindPath p ->
                remote_addr (heap r.2 conn) = None
                /\ remote_port (heap r.2 conn) = None)
  /\ (forall h pt host port,
        bind_addr server = BindInet h pt -> addr = Some (host, port) ->
        remote_addr (heap r.2 conn) = Some host
        /\ remote_port (heap r.2 conn) = Some port)
  /\ (forall h pt,
        bind_addr server = BindInet h pt -> addr = None ->
        remote_addr (heap r.2 conn)
          = Some (pystr_of_string (if Nat.eqb n 2 then "0.0.0.0" else "::"))
        /\ remote_port (heap r.2 conn) = Some 0).
Proof.
  intros Hssl Hacc Hinh Hst Hname r conn.
  destruct (from_server_socket_success errors server env st s addr s [] n
              Hacc Hinh Hst) as (st' & E & H).
  { rewrite Hssl. split; reflexivity. }
  { exact Hname. }
  subst r conn. rewrite E. cbn [fst snd].
  destruct H as (Hobj & _). rewrite Hobj. cbn [remote_addr remote_port].
  unfold remote_of.
  split; [reflexivity|]. split; [|split].
  - intros p Hb. rewrite Hb. split; reflexivity.
  - intros h pt host port Hb Ha. rewrite Hb, Ha. split; reflexivity.
  - intros h pt Hb Ha. rewrite Hb, Ha. cbn [fst snd].
    destruct (Nat.eqb n 2); split; reflexivity.
Qed.

(** No peer address and a four-element [getsockname]: the IPv6 wildcard. *)
Lemma accept_remote_address_witness :
  let env :=
    {| accept_result :=
         Return ({| sock_fileno := 20; sock_has_settimeout := true |}, None);
       inherit_result := Return tt; settimeout_result := Return tt;
       wrap_result := Raise NoSSLError; write_result := Return tt;
       settimeout2_result := Return tt; getsockname_len := Return 4%nat;
       factory_last_used := 0%Q; factory_has_data := false |} in
  let r := _from_server_socket example_errors example_server env example_state in
  remote_addr (heap r.2 6%nat) = Some (pystr_of_string "::")
  /\ remote_port (heap r.2 6%nat) = Some 0.
Proof.
  intros env r.
  destruct (accept_remote_address example_errors example_server env
              example_state {| sock_fileno := 20; sock_has_settimeout := true |}
              None 4%nat eq_refl eq_refl eq_refl eq_refl (fun _ => eq_refl))
    as (_ & _ & _ & H).
  exact (H _ _ eq_refl eq_refl).
Defined.

(** ** The acceptance up to the handshake *)

(** With a TLS adapter, the calls before [wrap] succeeding. *)
Lemma from_server_socket_until_wrap errors server env (st : state)
    (s : socket_obj) addr :
  ssl_adapter server = true ->
  accept_result env = Return (s, addr) ->
  inherit_result env = Return tt ->
  settimeout_result env = Return tt ->
  exists st2,
    log st2 = log st ++ (if sock_has_settimeout s
                         then [EvSetTimeout s (timeout server)] else [])
    /\ next_ref st2 = next_ref st
    /\ heap st2 = heap st
    /\ same_manager st st2
    /\ stats st2 = (if stats_Enabled (stats st) then incr_Accepts (stats st)
                    else stats st)
    /\ (forall ssl_env', wrap_result env = Return (None, ssl_env') ->
          _from_server_socket errors server env st = (Return None, st2))
    /\ (wrap_result env = Raise NoSSLError ->
        _from_server_socket_body errors server env st
        = (send_no_ssl_response errors server s env >> ret None) st2).
Proof.
  intros Hssl Hacc Hinh Hst.
  set (st1 := if stats_Enabled (stats st)
              then set_stats (incr_Accepts (stats st)) st else st).
  set (st2 := if sock_has_settimeout s
              then emit (EvSetTimeout s (timeout server)) st1 else st1).
  assert (Hset : settimeout s (timeout server) (settimeout_result env) st1
                 = (Return tt, st2)).
  { subst st2. unfold settimeout. destruct (sock_has_settimeout s); [|reflexivity].
    unfold bind, lift. rewrite Hst. reflexivity. }
  exists st2.
  split; [|split; [|split; [|split; [|split; [|split]]]]].
  - subst st2 st1. destruct (sock_has_settimeout s), (stats_Enabled (stats st));
      simpl; rewrite ?app_nil_r; reflexivity.
  - subst st2 st1. destruct (sock_has_settimeout s), (stats_Enabled (stats st));
      reflexivity.
  - subst st2 st1. destruct (sock_has_settimeout s), (stats_Enabled (stats st));
      reflexivity.
  - subst st2 st1. destruct (sock_has_settimeout s), (stats_Enabled (stats st));
      repeat split.
  - subst st2 st1. destruct (sock_has_settimeout s), (stats_Enabled (stats st));
      reflexivity.
  - intros ssl_env' Hwrap.
    unfold _from_server_socket, _from_server_socket_body.
    unfold catch at 1, bind at 1, lift at 1. rewrite Hacc. cbn [fst snd].
    unfold bind at 1, modify at 1. fold st1.
    unfold bind at 1, lift at 1. rewrite Hinh.
    unfold bind at 1. rewrite Hset. rewrite Hssl.
    unfold bind at 1, catch at 1, bind at 1, lift at 1. rewrite Hwrap.
    reflexivity.
  - intros Hwrap. unfold _from_server_socket_body.
    unfold bind at 1, lift at 1. rewrite Hacc. cbn [fst snd].
    unfold bind at 1, modify at 1. fold st1.
    unfold bind at 1, lift at 1. rewrite Hinh.
    unfold bind at 1. rewrite Hset. rewrite Hssl.
    unfold bind at 1, catch at 1, bind at 1, lift at 1. rewrite Hwrap.
    unfold bind.
    destruct (send_no_ssl_response errors server s env st2)
      as [[[]| e |] st3]; reflexivity.
Qed.

(** X10: when the adapter's [wrap] returns no socket, the acceptance
    returns [None]: no connection object is created, the manager is as
    before, and the accept has been counted. *)
Theorem accept_tls_no_socket errors server env (st : state)
    (s : socket_obj) addr (ssl_env' : ssl_env_t) :
  ssl_adapter server = true ->
  accept_result env = Return (s, addr) ->
  inherit_result env = Return tt ->
  settimeout_result env = Return tt ->
  wrap_result env = Return (None, ssl_env') ->
  let r := _from_server_socket errors server env st in
  r.1 = Return None
  /\ next_ref r.2 = next_ref st
  /\ heap r.2 = heap st
  /\ same_manager st r.2
  /\ stats_Accepts (stats r.2)
     = stats_Accepts (stats st) + (if stats_Enabled (stats st) then 1 else 0)
  /\ log r.2 = log st ++ (if sock_has_settimeout s
                          then [EvSetTimeout s (timeout server)] else []).
Proof.
  intros Hssl Hacc Hinh Hst Hwrap r.
  destruct (from_server_socket_until_wrap errors server env st s addr
              Hssl Hacc Hinh Hst)
    as (st2 & Hl & Hn & Hh & Hsame & Hstats & Hnone & _).
  subst r. rewrite (Hnone ssl_env' Hwrap). cbn [fst snd]. rewrite Hstats.
  repeat split; try assumption; try apply Hsame.
  destruct (stats_Enabled (stats st)); simpl; lia.
Qed.

Lemma accept_tls_no_socket_witness :
  let env :=
    {| accept_result :=
         Return ({| sock_fileno := 20; sock_has_settimeout := true |}, None);
       inherit_result := Return tt; settimeout_result := Return tt;
       wrap_result := Return (None, []); write_result := Return tt;
       settimeout2_result := Return tt; getsockname_len := Return 2%nat;
       factory_last_used := 0%Q; factory_has_data := false |} in
  let r := _from_server_socket example_errors example_tls_server env
             example_state in
  r.1 = Return None /\ next_ref r.2 = 6%nat /\ stats_Accepts (stats r.2) = 1.
Proof.
  intros env r.
  destruct (accept_tls_no_socket example_errors example_tls_server env
              example_state {| sock_fileno := 20; sock_has_settimeout := true |}
              None [] eq_refl eq_refl eq_refl eq_refl eq_refl)
    as (H1 & H2 & _ & _ & H3 & _).
  split; [exact H1|]. split; [exact H2 | exact H3].
Defined.

(** ** Statistics on a failing [accept] *)

(** X11: when [accept] raises, [Accepts] is not counted, and
    [Socket Errors] is counted exactly when statistics are enabled and the
    exception is a socket error other than a timeout, whether it is then
    swallowed or propagated; nothing else changes. *)
Theorem accept_error_stats errors server env (ex : exn) (st : state) :
  accept_result env = Raise ex ->
  let r := _from_server_socket errors server env st in
  stats_Accepts (stats r.2) = stats_Accepts (stats st)
  /\ stats_Socket_Errors (stats r.2)
     = stats_Socket_Errors (stats st)
       + (if stats_Enabled (stats st) && counts_as_socket_error ex
          then 1 else 0)
  /\ stats_Enabled (stats r.2) = stats_Enabled (stats st)
  /\ log r.2 = log st /\ heap r.2 = heap st /\ next_ref r.2 = next_ref st
  /\ same_manager st r.2.
Proof.
  intros Hacc r. subst r. unfold _from_server_socket, catch.
  rewrite (accept_raises_body errors server env ex st Hacc).
  destruct ex as [| | | | |[|] arg0|];
    try (simpl; rewrite andb_false_r; repeat split; first [reflexivity | lia]).
  unfold bind, modify, counts_as_socket_error. rewrite andb_true_r.
  destruct (stats_Enabled (stats st)) eqn:Hen;
    destruct (py_in arg0 (socket_error_eintr errors));
    destruct (py_in arg0 (socket_errors_nonblocking errors));
    destruct (py_in arg0 (socket_errors_to_ignore errors));
    simpl; rewrite ?Hen; repeat split; first [reflexivity | lia].
Qed.

(** [ECONNRESET] (104, ignorable) on [accept] with statistics enabled:
    swallowed and counted. *)
Lemma accept_error_stats_witness :
  let env :=
    {| accept_result := Raise (SocketError false (Errno 104));
       inherit_result := Return tt; settimeout_result := Return tt;
       wrap_result := Raise NoSSLError; write_result := Return tt;
       settimeout2_result := Return tt; getsockname_len := Return 2%nat;
       factory_last_used := 0%Q; factory_has_data := false |} in
  let r := _from_server_socket example_errors example_server env example_state in
  stats_Socket_Errors (stats r.2) = 1 /\ stats_Accepts (stats r.2) = 0.
Proof.
  intros env r.
  destruct (accept_error_stats example_errors example_server env
              (SocketError false (Errno 104)) example_state eq_refl)
    as (H1 & H2 & _).
  split; [exact H2 | exact H1].
Defined.

(** ** The write of the 400 response failing *)

(** What the handler around the write makes of the write's outcome. *)
Lemma send_no_ssl_response_outcome errors server (s : socket_obj) env
    (st2 : state) payload :
  encode_latin1 (concat (no_ssl_buf server)) = Some payload ->
  send_no_ssl_response errors server s env st2
  = match write_result env with
    | Return _ => (Return tt, emit (EvSockWrite s payload) st2)
    | Raise (SocketError tm arg0) =>
        if py_in arg0 (socket_errors_to_ignore errors)
        then (Return tt, st2)
        else (Raise (SocketError tm arg0), st2)
    | Raise e => (Raise e, st2)
    | Blocked => (Blocked, st2)
    end.
Proof.
  intros Hpay. unfold send_no_ssl_response, catch. rewrite Hpay.
  unfold bind, lift.
  destruct (write_result env) as [[]| e |]; try reflexivity.
  destruct e; try reflexivity.
  destruct (py_in _ _); reflexivity.
Qed.

(** X12: when the write of the 400 response raises [ex], the acceptance
    ends as for the same exception on [accept]: a timeout, and a socket
    error of [socket_error_eintr], [socket_errors_nonblocking] or
    [socket_errors_to_ignore], give [None]; anything else propagates.
    Nothing is recorded as written and no object is created.  An error of
    [socket_errors_to_ignore] is swallowed at the write and is not counted
    in [Socket Errors]; the other socket errors that are not timeouts
    are. *)
Theorem no_ssl_write_error errors server env (st : state) (s : socket_obj)
    addr (protocol_bytes : list byte) (ex : exn) :
  ssl_adapter server = true ->
  accept_result env = Return (s, addr) ->
  inherit_result env = Return tt ->
  settimeout_result env = Return tt ->
  wrap_result env = Raise NoSSLError ->
  encode_latin1 (protocol server) = Some protocol_bytes ->
  write_result env = Raise ex ->
  let r := _from_server_socket errors server env st in
  r.1 = spec_accept_outcome errors ex
  /\ log r.2 = log st ++ (if sock_has_settimeout s
                          then [EvSetTimeout s (timeout server)] else [])
  /\ next_ref r.2 = next_ref st
  /\ heap r.2 = heap st
  /\ stats_Socket_Errors (stats r.2)
     = stats_Socket_Errors (stats st)
       + match ex with
         | SocketError false arg0 =>
             if stats_Enabled (stats st)
                && negb (py_in arg0 (socket_errors_to_ignore errors))
             then 1 else 0
         | _ => 0
         end.
Proof.
  intros Hssl Hacc Hinh Hst Hwrap Hp Hw r.
  destruct (from_server_socket_until_wrap errors server env st s addr
              Hssl Hacc Hinh Hst)
    as (st2 & Hl & Hn & Hh & _ & Hstats & _ & Hbody).
  specialize (Hbody Hwrap).
  pose proof (send_no_ssl_response_outcome errors server s env st2 _
                (no_ssl_payload server protocol_bytes Hp)) as Hsend.
  rewrite Hw in Hsend.
  assert (Hen : stats_Enabled (stats st2) = stats_Enabled (stats st)).
  { rewrite Hstats. destruct (stats_Enabled (stats st)) eqn:He; simpl; congruence. }
  assert (Hse : stats_Socket_Errors (stats st2) = stats_Socket_Errors (stats st)).
  { rewrite Hstats. destruct (stats_Enabled (stats st)); reflexivity. }
  assert (E : r = _from_server_socket errors server env st) by reflexivity.
  clearbody r. unfold _from_server_socket, catch in E. rewrite Hbody in E.
  unfold bind at 1 in E. rewrite Hsend in E.
  destruct ex as [| | | | |tm arg0|];
    try (subst r; simpl; rewrite Hse; repeat split;
         first [assumption | lia]).
  unfold spec_accept_outcome.
  destruct (py_in arg0 (socket_errors_to_ignore errors)) eqn:Hign.
  { subst r. simpl. rewrite Hse, andb_false_r, !orb_true_r.
    destruct tm; repeat split; first [assumption | lia]. }
  destruct tm.
  { subst r. simpl. rewrite Hse. repeat split; first [assumption | lia]. }
  unfold bind, modify in E. rewrite Hign in E. rewrite andb_true_r, orb_false_r.
  rewrite <- Hen.
  destruct (py_in arg0 (socket_error_eintr errors));
    destruct (py_in arg0 (socket_errors_nonblocking errors));
    destruct (stats_Enabled (stats st2)); subst r; simpl;
    rewrite ?Hse; repeat split; first [assumption | lia].
Qed.

(** The write of the response fails with [EPIPE] (32, ignorable): [None],
    not counted; with [EAGAIN] (11): [None] as well, and counted. *)
Lemma no_ssl_write_error_witness :
  let env ex :=
    {| accept_result :=
         Return ({| sock_fileno := 20; sock_has_settimeout := true |}, None);
       inherit_result := Return tt; settimeout_result := Return tt;
       wrap_result := Raise NoSSLError; write_result := Raise ex;
       settimeout2_result := Return tt; getsockname_len := Return 2%nat;
       factory_last_used := 0%Q; factory_has_data := false |} in
  let r ex := _from_server_socket example_errors example_tls_server (env ex)
                example_state in
  (r (SocketError false (Errno 32))).1 = Return None
  /\ stats_Socket_Errors (stats (r (SocketError false (Errno 32))).2) = 0
  /\ (r (SocketError false (Errno 11))).1 = Return None
  /\ stats_Socket_Errors (stats (r (SocketError false (Errno 11))).2) = 1.
Proof.
  intros env r.
  destruct (no_ssl_write_error example_errors example_tls_server
              (env (SocketError false (Errno 32))) example_state
              {| sock_fileno := 20; sock_has_settimeout := true |} None
              (bytes_of_string "HTTP/1.1") (SocketError false (Errno 32))
              eq_refl eq_refl eq_refl eq_refl eq_refl eq_refl eq_refl)
    as (H1 & _ & _ & _ & H2).
  destruct (no_ssl_write_error example_errors example_tls_server
              (env (SocketError false (Errno 11))) example_state
              {| sock_fileno := 20; sock_has_settimeout := true |} None
              (bytes_of_string "HTTP/1.1") (SocketError false (Errno 11))
              eq_refl eq_refl eq_refl eq_refl eq_refl eq_refl eq_refl)
    as (H3 & _ & _ & _ & H4).
  split; [exact H1|]. split; [exact H2|]. split; [exact H3 | exact H4].
Defined.

(** X13: when the server's protocol string has a character that
    ISO-8859-1 cannot encode, the answer to a plain request on a TLS port
    is not sent: [UnicodeEncodeError] propagates to the caller, whatever
    the write would have done, and no object is created. *)
Theorem no_ssl_unencodable_protocol errors server env (st : state)
    (s : socket_obj) addr :
  ssl_adapter server = true ->
  accept_result env = Return (s, addr) ->
  inherit_result env = Return tt ->
  settimeout_result env = Return tt ->
  wrap_result env = Raise NoSSLError ->
  encode_latin1 (protocol server) = None ->
  let r := _from_server_socket errors server env st in
  r.1 = Raise UnicodeEncodeError
  /\ log r.2 = log st ++ (if sock_has_settimeout s
                          then [EvSetTimeout s (timeout server)] else [])
  /\ next_ref r.2 = next_ref st
  /\ heap r.2 = heap st
  /\ same_manager st r.2.
Proof.
  intros Hssl Hacc Hinh Hst Hwrap Hp r.
  destruct (from_server_socket_until_wrap errors server env st s addr
              Hssl Hacc Hinh Hst)
    as (st2 & Hl & Hn & Hh & Hsame & _ & _ & Hbody).
  specialize (Hbody Hwrap).
  assert (Hnone : encode_latin1 (concat (no_ssl_buf server)) = None).
  { unfold no_ssl_buf. cbn [concat]. rewrite <- app_assoc.
    rewrite encode_latin1_app, Hp. reflexivity. }
  assert (E : r = (Raise UnicodeEncodeError, st2)).
  { subst r. unfold _from_server_socket, catch. rewrite Hbody.
    unfold bind, send_no_ssl_response, catch. rewrite Hnone. reflexivity. }
  rewrite E. simpl. repeat split; try assumption; apply Hsame.
Qed.

(** A protocol string with the character U+20AC. *)
Lemma no_ssl_unencodable_protocol_witness :
  let server :=
    {| server_fileno := 3; timeout := 10%Q; ssl_adapter := true;
       keep_alive_conn_limit := None;
       protocol := pystr_of_string "HTTP/1.1" ++ [8364%N];
       bind_addr := BindInet (pystr_of_string "127.0.0.1") 8443 |} in
  (_from_server_socket example_errors server example_accept_env
     example_state).1 = Raise UnicodeEncodeError.
Proof.
  intros server.
  exact (proj1 (no_ssl_unencodable_protocol example_errors server
                  example_accept_env example_state
                  {| sock_fileno := 20; sock_has_settimeout := true |} None
                  eq_refl eq_refl eq_refl eq_refl eq_refl eq_refl)).
Defined.

(** ** Who holds a connection *)

Lemma NoDup_snd_iff (l : list (Z * conn_ref)) :
  NoDup l.*1 ->
  NoDup l.*2 <-> (forall a b c, (a, c) ∈ l -> (b, c) ∈ l -> a = b).
Proof.
  induction l as [|[a0 c0] l IH]; intros Hnd.
  - split; [intros _ a b c Hin; inversion Hin | intros _; constructor].
  - cbn [fmap list_fmap fst snd] in *.
    change (list_fmap (Z * conn_ref)%type Z fst l) with (l.*1) in *.
    change (list_fmap (Z * conn_ref)%type conn_ref snd l) with (l.*2) in *.
    apply NoDup_cons in Hnd as [Ha0 Hnd]. specialize (IH Hnd).
    rewrite NoDup_cons. split.
    + intros [Hc0 Hl] a b c Ha Hb.
      apply elem_of_cons in Ha as [Ha|Ha]; apply elem_of_cons in Hb as [Hb|Hb].
      * congruence.
      * inversion Ha; subst. exfalso. apply Hc0.
        apply list_elem_of_fmap. exists (b, c0). split; [reflexivity | exact Hb].
      * inversion Hb; subst. exfalso. apply Hc0.
        apply list_elem_of_fmap. exists (a, c0). split; [reflexivity | exact Ha].
      * destruct IH as [IH _]. exact (IH Hl a b c Ha Hb).
    + intros H. split.
      * intros Hin. apply list_elem_of_fmap in Hin as [[b c] [Heq Hin]].
        simpl in Heq. subst c.
        assert (a0 = b) as ->.
        { apply (H a0 b c0); [left | right; exact Hin]. }
        apply Ha0. apply list_elem_of_fmap. exists (b, c0).
        split; [reflexivity | exact Hin].
      * apply IH. intros a b c Ha Hb. apply (H a b c); right; assumption.
Qed.

Lemma elem_of_held_by_selector st c :
  c ∈ (_get_selector_conns st).*2
  <-> exists fd, _selector st !! fd = Some (DConn c).
Proof.
  unfold _get_selector_conns. rewrite list_elem_of_fmap. split.
  - intros [[fd c'] [-> Hin]]. exists fd. apply elem_of_selector_conns. exact Hin.
  - intros [fd Hfd]. exists (fd, c). split; [reflexivity|].
    apply elem_of_selector_conns. exact Hfd.
Qed.

Lemma owned_once_spec st : owned_once st <-> held_apart st.
Proof.
  unfold owned_once, held_apart, placements.
  rewrite !app_assoc, NoDup_app, Forall_app.
  unfold _get_selector_conns at 2.
  rewrite (NoDup_snd_iff _ (NoDup_fst_selector_conns (_selector st))).
  split.
  - intros [(Hnd & Hdisj & Hinj) [Hlt Hlt2]].
    split; [exact Hnd|]. split.
    { intros fd c Hfd Hin. apply (Hdisj c Hin).
      apply elem_of_held_by_selector. eauto. }
    split.
    { intros fd1 fd2 c H1 H2.
      apply (Hinj fd1 fd2 c); apply elem_of_selector_conns; assumption. }
    split; [exact Hlt|].
    intros fd c Hfd. rewrite Forall_forall in Hlt2. apply Hlt2.
    apply elem_of_held_by_selector. eauto.
  - intros (Hnd & Hdisj & Hinj & Hlt & Hlt2).
    split; [split; [exact Hnd | split] | split; [exact Hlt|]].
    + intros c Hin Hsel. apply elem_of_held_by_selector in Hsel as [fd Hfd].
      exact (Hdisj fd c Hfd Hin).
    + intros a b c Ha Hb. apply elem_of_selector_conns in Ha, Hb. eauto.
    + apply Forall_forall. intros c Hc.
      apply elem_of_held_by_selector in Hc as [fd Hfd]. eauto.
Qed.

Lemma put_unowned_spec st c :
  put_unowned st c = true
  <-> (c < next_ref st)%nat
      /\ (c ∉ _readable_conns st ++ _put_q st)
      /\ (forall fd, _selector st !! fd <> Some (DConn c)).
Proof.
  unfold put_unowned, placements.
  rewrite andb_true_iff, Nat.ltb_lt, bool_decide_eq_true.
  rewrite app_assoc, not_elem_of_app. split.
  - intros [Hlt [Hq Hs]]. split; [exact Hlt|]. split; [exact Hq|].
    intros fd Hfd. apply Hs. apply elem_of_held_by_selector. eauto.
  - intros (Hlt & Hq & Hs). split; [exact Hlt|]. split; [exact Hq|].
    intros Hin. apply elem_of_held_by_selector in Hin as [fd Hfd].
    exact (Hs fd Hfd).
Qed.

(** Letting go of connections keeps them apart. *)
Lemma held_apart_shrink st st' :
  sublist (_readable_conns st' ++ _put_q st') (_readable_conns st ++ _put_q st) ->
  (forall fd c, _selector st' !! fd = Some (DConn c) ->
                _selector st !! fd = Some (DConn c)) ->
  (next_ref st <= next_ref st')%nat ->
  held_apart st -> held_apart st'.
Proof.
  intros Hsub Hsel Hn (Hnd & Hdisj & Hinj & Hlt & Hlt2).
  split; [eapply sublist_NoDup; eauto|]. split; [|split; [|split]].
  - intros fd c Hfd Hin. apply (Hdisj fd c (Hsel _ _ Hfd)).
    eapply elem_of_sublist; eauto.
  - intros fd1 fd2 c H1 H2. eapply Hinj; eauto.
  - apply Forall_forall. intros c Hc. rewrite Forall_forall in Hlt.
    pose proof (Hlt c (elem_of_sublist _ _ _ Hc Hsub)). lia.
  - intros fd c Hfd. pose proof (Hlt2 fd c (Hsel _ _ Hfd)). lia.
Qed.

Lemma elem_of_queues_cons (R q : list conn_ref) conn c :
  c ∈ R ++ conn :: q <-> c = conn \/ c ∈ R ++ q.
Proof. rewrite !elem_of_app, elem_of_cons. tauto. Qed.

Lemma elem_of_queues_snoc (R q : list conn_ref) conn c :
  c ∈ (R ++ [conn]) ++ q <-> c = conn \/ c ∈ R ++ q.
Proof. rewrite !elem_of_app, elem_of_cons, elem_of_nil. tauto. Qed.

(** The head of [_put_q] registered under a free descriptor. *)
Lemma held_apart_register st st' conn q fd :
  _put_q st = conn :: q -> _selector st !! fd = None ->
  _readable_conns st' = _readable_conns st -> _put_q st' = q ->
  _selector st' = <[fd := DConn conn]> (_selector st) ->
  next_ref st' = next_ref st ->
  held_apart st -> held_apart st'.
Proof.
  intros Hq Hfree Hr' Hq' Hs' Hn' (Hnd & Hdisj & Hinj & Hlt & Hlt2).
  rewrite Hq in *.
  assert (Hp : _readable_conns st ++ conn :: q
               ≡ₚ conn :: (_readable_conns st ++ q)).
  { symmetry. apply Permutation_middle. }
  rewrite Hp in Hnd, Hlt. apply NoDup_cons in Hnd as [Hconn Hnd].
  apply Forall_cons in Hlt as [Hltc Hlt].
  unfold held_apart. rewrite Hr', Hq', Hs', Hn'.
  split; [exact Hnd|]. split; [|split; [|split]].
  - intros fd' c Hfd'.
    destruct (decide (fd' = fd)) as [->|Hne].
    + rewrite lookup_insert_eq in Hfd'. inversion Hfd'; subst c. exact Hconn.
    + rewrite lookup_insert_ne in Hfd' by congruence.
      intros Hin. apply (Hdisj fd' c Hfd').
      apply elem_of_queues_cons. right. exact Hin.
  - intros fd1 fd2 c H1 H2.
    destruct (decide (fd1 = fd)) as [->|Hne1];
      destruct (decide (fd2 = fd)) as [->|Hne2]; [reflexivity| | |].
    + rewrite lookup_insert_eq in H1. inversion H1; subst c.
      rewrite lookup_insert_ne in H2 by congruence.
      exfalso. apply (Hdisj fd2 conn H2). apply elem_of_queues_cons. left.
      reflexivity.
    + rewrite lookup_insert_eq in H2. inversion H2; subst c.
      rewrite lookup_insert_ne in H1 by congruence.
      exfalso. apply (Hdisj fd1 conn H1). apply elem_of_queues_cons. left.
      reflexivity.
    + rewrite lookup_insert_ne in H1, H2 by congruence. eapply Hinj; eauto.
  - exact Hlt.
  - intros fd' c Hfd'.
    destruct (decide (fd' = fd)) as [->|Hne].
    + rewrite lookup_insert_eq in Hfd'. inversion Hfd'; subst c. exact Hltc.
    + rewrite lookup_insert_ne in Hfd' by congruence. eauto.
Qed.

(** A registered connection moved to the end of the readable queue. *)
Lemma held_apart_ready_client st st' fd conn :
  _selector st !! fd = Some (DConn conn) ->
  _readable_conns st' = _readable_conns st ++ [conn] ->
  _put_q st' = _put_q st ->
  _selector st' = delete fd (_selector st) ->
  next_ref st' = next_ref st ->
  held_apart st -> held_apart st'.
Proof.
  intros Hfd Hr' Hq' Hs' Hn' (Hnd & Hdisj & Hinj & Hlt & Hlt2).
  assert (Hp : (_readable_conns st ++ [conn]) ++ _put_q st
               ≡ₚ conn :: (_readable_conns st ++ _put_q st)).
  { rewrite <- app_assoc. simpl. symmetry. apply Permutation_middle. }
  unfold held_apart. rewrite Hr', Hq', Hs', Hn'.
  split; [|split; [|split; [|split]]].
  - rewrite Hp. apply NoDup_cons. split; [exact (Hdisj fd conn Hfd) | exact Hnd].
  - intros fd' c Hfd' Hin.
    apply lookup_delete_Some in Hfd' as [Hne Hfd'].
    apply elem_of_queues_snoc in Hin as [->|Hin].
    + apply Hne. symmetry. eapply Hinj; eauto.
    + exact (Hdisj fd' c Hfd' Hin).
  - intros fd1 fd2 c H1 H2.
    apply lookup_delete_Some in H1 as [_ H1].
    apply lookup_delete_Some in H2 as [_ H2]. eapply Hinj; eauto.
  - rewrite Hp. apply Forall_cons. split; [exact (Hlt2 fd conn Hfd) | exact Hlt].
  - intros fd' c Hfd'. apply lookup_delete_Some in Hfd' as [_ Hfd']. eauto.
Qed.

(** [put] of a connection the manager does not hold. *)
Lemma held_apart_put conn now st :
  put_unowned st conn = true -> held_apart st -> held_apart (put conn now st).2.
Proof.
  intros Hun (Hnd & Hdisj & Hinj & Hlt & Hlt2).
  apply put_unowned_spec in Hun as (Hltc & Hq & Hs).
  destruct (rfile_has_data (heap st conn)) eqn:Hd.
  - rewrite (put_has_data _ _ _ Hd). unfold held_apart. simpl.
    assert (Hp : (_readable_conns st ++ [conn]) ++ _put_q st
                 ≡ₚ conn :: (_readable_conns st ++ _put_q st)).
    { rewrite <- app_assoc. simpl. symmetry. apply Permutation_middle. }
    split; [|split; [|split; [|split]]].
    + rewrite Hp. apply NoDup_cons. split; assumption.
    + intros fd c Hfd Hin. apply elem_of_queues_snoc in Hin as [->|Hin].
      * exact (Hs fd Hfd).
      * exact (Hdisj fd c Hfd Hin).
    + exact Hinj.
    + rewrite Hp. apply Forall_cons. split; assumption.
    + exact Hlt2.
  - rewrite (put_no_data _ _ _ Hd). unfold held_apart. simpl.
    assert (Hp : _readable_conns st ++ _put_q st ++ [conn]
                 ≡ₚ conn :: (_readable_conns st ++ _put_q st)).
    { rewrite app_assoc. rewrite <- Permutation_cons_append. reflexivity. }
    split; [|split; [|split; [|split]]].
    + rewrite Hp. apply NoDup_cons. split; assumption.
    + intros fd c Hfd Hin. rewrite app_assoc in Hin.
      apply elem_of_app in Hin as [Hin|Hin].
      * exact (Hdisj fd c Hfd Hin).
      * apply elem_of_cons in Hin as [->|Hin]; [|inversion Hin].
        exact (Hs fd Hfd).
    + exact Hinj.
    + rewrite Hp. apply Forall_cons. split; assumption.
    + exact Hlt2.
Qed.

(** The connection [_pop_readable_conn] returns is let go. *)
Lemma held_apart_pop st :
  held_apart st ->
  let r := _pop_readable_conn st in
  held_apart r.2 /\ (forall c, r.1 = Return c -> put_unowned r.2 c = true).
Proof.
  intros H. unfold _pop_readable_conn.
  destruct (_readable_conns st) as [|conn rest] eqn:Hr.
  { cbv zeta. simpl. split; [exact H | discriminate]. }
  cbv zeta. cbn [fst snd]. split.
  - apply (held_apart_shrink st); simpl; [| auto | lia | exact H].
    rewrite Hr. simpl. apply sublist_cons. reflexivity.
  - intros c Hc. inversion Hc; subst c.
    destruct H as (Hnd & Hdisj & _ & Hlt & _). rewrite Hr in *.
    simpl in Hnd, Hlt. apply NoDup_cons in Hnd as [Hnotin _].
    apply Forall_cons in Hlt as [Hltc _].
    apply put_unowned_spec. simpl. split; [exact Hltc|]. split; [exact Hnotin|].
    intros fd Hfd. apply (Hdisj fd conn Hfd). left.
Qed.

Lemma held_apart_remove_all l st :
  NoDup l.*1 ->
  (forall fc, fc ∈ l -> _selector st !! fc.1 = Some (DConn fc.2)) ->
  held_apart st ->
  held_apart (for_each l (fun fc => _remove_conn fc.1 fc.2) st).2.
Proof.
  intros Hnd Hregd H.
  destruct (remove_all_spec l st Hnd Hregd) as (_ & Hsel & _ & Hr & Hq & _).
  pose proof (preserves_for_each (fun s => next_ref s = next_ref st) l
                (fun fc => _remove_conn fc.1 fc.2)) as Hn.
  apply (held_apart_shrink st); [| | |exact H].
  - rewrite Hr, Hq. reflexivity.
  - intros fd c Hfd. rewrite Hsel in Hfd.
    destruct (bool_decide (fd ∈ l.*1)); [discriminate | exact Hfd].
  - rewrite Hn; [lia | | reflexivity].
    intros fc s Hs. unfold _remove_conn, bind, selector_unregister, conn_close,
      modify.
    destruct (_selector s !! fc.1); simpl; exact Hs.
Qed.

Section Ownership.

Variable errors : errors_module.
Variable server : HTTPServer.

(** An acceptance places nothing, and what it returns is new. *)
Lemma held_apart_from_server_socket env st :
  held_apart st ->
  let r := _from_server_socket errors server env st in
  held_apart r.2
  /\ (forall c, r.1 = Return (Some c) -> put_unowned r.2 c = true).
Proof.
  intros H. cbv zeta.
  destruct (from_server_socket_frame errors server env st)
    as (Hsame & Hle & _).
  destruct (_from_server_socket errors server env st) as [o s] eqn:E.
  cbn [fst snd] in *.
  pose proof Hsame as (Hr & Hq & Hs & _).
  split.
  - apply (held_apart_shrink st); [| |exact Hle|exact H].
    + rewrite Hr, Hq. reflexivity.
    + intros fd c. rewrite Hs. auto.
  - intros c Hc.
    destruct (from_server_socket_new errors server env st c s) as [-> Hn].
    { rewrite E, Hc. reflexivity. }
    destruct H as (_ & _ & _ & Hlt & Hlt2).
    apply put_unowned_spec. rewrite Hr, Hq, Hs, Hn.
    split; [lia|]. split.
    + intros Hin. rewrite Forall_forall in Hlt. specialize (Hlt _ Hin). lia.
    + intros fd Hfd. specialize (Hlt2 _ _ Hfd). lia.
Qed.

Lemma held_apart_get_conn_loop env rlist :
  forall st,
    manager_inv st -> held_apart st -> Forall (key_consistent st) rlist ->
    let r := get_conn_loop errors server env rlist st in
    manager_inv r.2 /\ held_apart r.2
    /\ (forall c, r.1 = Return (Some (Some c)) -> put_unowned r.2 c = true).
Proof.
  induction rlist as [|key rest IH]; intros st Hinv H Hkeys.
  { cbv zeta. simpl. split; [exact Hinv|]. split; [exact H | discriminate]. }
  inversion Hkeys as [|? ? Hkey Hrest]; subst.
  cbn [get_conn_loop]. destruct (key_data_of key) as [| |conn] eqn:Hdata.
  - (* the listening socket *)
    pose proof (manager_inv_from_server_socket errors server (accept_calls env)
                  st Hinv) as Hinv'.
    destruct (held_apart_from_server_socket (accept_calls env) st H)
      as [H' Hnew].
    cbv zeta. unfold bind.
    destruct (_from_server_socket errors server (accept_calls env) st)
      as [[r| e |] st']; simpl in *.
    + split; [exact Hinv'|]. split; [exact H'|].
      intros c Hc. inversion Hc; subst r. apply Hnew. reflexivity.
    + split; [exact Hinv'|]. split; [exact H' | discriminate].
    + split; [exact Hinv'|]. split; [exact H' | discriminate].
  - (* the control channel *)
    pose proof (manager_inv_process_ctrl_msg st Hinv) as Hinv'.
    pose proof Hinv as (_ & Hsync & Hreg & _).
    unfold bind.
    destruct (_put_q st) as [|c q] eqn:Hq.
    { unfold ctrl_in_sync in Hsync. rewrite Hq in Hsync. simpl in Hsync.
      rewrite (process_ctrl_msg_blocked _ Hsync) in *. cbv zeta. simpl.
      split; [exact Hinv|]. split; [exact H | discriminate]. }
    pose proof (ctrl_in_sync_head _ _ _ Hsync Hq) as Hc.
    rewrite (process_ctrl_msg_moves _ _ _ _ Hreg Hc Hq) in *.
    apply IH; [exact Hinv'| |].
    + apply (held_apart_register st _ c q (conn_fileno (heap st c)));
        try reflexivity; [exact Hq| |exact H].
      apply put_q_registrable_spec in Hreg as [_ Hall].
      rewrite Forall_forall in Hall.
      apply (Hall (conn_fileno (heap st c))).
      unfold pending_fds. rewrite Hq. left.
    + eapply Forall_impl; [exact Hrest|]. intros k Hk.
      eapply key_consistent_after_register; eauto.
  - (* a client connection *)
    unfold bind, selector_unregister.
    destruct (_selector st !! key_fd key) as [d|] eqn:Hfd.
    2:{ cbv zeta. simpl. split; [exact Hinv|]. split; [exact H | discriminate]. }
    simpl. destruct Hkey as [Hkey|[Hkey _]]; [|congruence].
    rewrite Hfd, Hdata in Hkey. inversion Hkey; subst d.
    apply IH.
    + apply manager_inv_ready_client; assumption.
    + apply (held_apart_ready_client st _ (key_fd key) conn);
        try reflexivity; assumption.
    + destruct Hinv as (_ & _ & Hreg & _).
      eapply Forall_impl; [exact Hrest|]. intros k Hk.
      eapply key_consistent_after_unregister; eauto.
Qed.

Lemma held_apart_get_conn env st :
  select_sound st env = true -> manager_inv st -> held_apart st ->
  let r := get_conn errors server env st in
  held_apart r.2 /\ (forall c, r.1 = Return (Some c) -> put_unowned r.2 c = true).
Proof.
  intros Hsound Hinv H. unfold get_conn, catch, bind.
  destruct (held_apart_pop st H) as [Hpop Hpopped].
  unfold _pop_readable_conn in *.
  destruct (_readable_conns st) as [|conn rest] eqn:Hr.
  2:{ cbv zeta. simpl in *. split; [exact Hpop|].
      intros c Hc. inversion Hc; subst c. apply Hpopped. reflexivity. }
  clear Hpop Hpopped.
  simpl. unfold get_conn_select, bind, catch, modify, lift. simpl.
  assert (Hinv1 : manager_inv (emit EvSelect st)).
  { apply (manager_inv_ext st); try reflexivity; try exact Hinv; apply Hinv. }
  assert (H1 : held_apart (emit EvSelect st)) by exact H.
  destruct (select_result env) as [rlist| e |] eqn:Hsel; simpl.
  - (* a batch *)
    destruct (held_apart_get_conn_loop env rlist (emit EvSelect st) Hinv1 H1
                (select_sound_consistent st env rlist Hsel Hsound))
      as (_ & Hloop & Hret).
    destruct (get_conn_loop errors server env rlist (emit EvSelect st))
      as [[[r|]| e |] st'] eqn:Hl; simpl in *.
    + cbv zeta. simpl. split; [exact Hloop|].
      intros c Hc. inversion Hc; subst r. apply Hret. reflexivity.
    + destruct (held_apart_pop st' Hloop) as [Hpop Hpopped].
      unfold _pop_readable_conn in *.
      destruct (_readable_conns st') as [|c q]; cbv zeta; simpl in *.
      * split; [exact Hloop | discriminate].
      * split; [exact Hpop|].
        intros c' Hc. inversion Hc; subst c'. apply Hpopped. reflexivity.
    + cbv zeta. simpl. split; [exact Hloop | discriminate].
    + cbv zeta. simpl. split; [exact Hloop | discriminate].
  - (* select raised *)
    destruct e; cbv zeta; simpl; try (split; [exact H1 | discriminate]).
    unfold ret.
    assert (Hrm : held_apart
                    (_remove_invalid_sockets (fstat_fails env) (emit EvSelect st)).2).
    { unfold _remove_invalid_sockets. apply held_apart_remove_all; [| |exact H1].
      - apply NoDup_fst_filter. apply NoDup_fst_selector_conns.
      - intros fc. apply filter_selector_conns_registered. }
    destruct (_remove_invalid_sockets (fstat_fails env) (emit EvSelect st))
      as [[[]| e |] st']; simpl in *; split; first [exact Hrm | discriminate].
  - cbv zeta. simpl. split; [exact H1 | discriminate].
Qed.

Lemma held_apart_expire now st :
  held_apart st -> held_apart (expire server now st).2.
Proof.
  intros H. unfold expire. apply held_apart_remove_all; [| |exact H].
  - apply NoDup_fst_timed_out.
  - intros fc. apply filter_selector_conns_registered.
Qed.

Lemma held_apart_init ctrl_rx_fileno h n s st :
  __init__ server ctrl_rx_fileno (empty_state h n s) = (Return tt, st) ->
  held_apart st.
Proof.
  unfold __init__, bind, selector_register. simpl.
  destruct (server_fileno server <? 0); [discriminate|].
  rewrite lookup_empty. simpl.
  destruct (ctrl_rx_fileno <? 0); [discriminate|].
  destruct (_ !! ctrl_rx_fileno) eqn:Hfree; [discriminate|].
  intros Hst. inversion Hst; subst st. clear Hst.
  assert (Hnone : forall fd c,
             (<[ctrl_rx_fileno := DCtrlRx]>
                (<[server_fileno server := DServer]> (∅ : gmap Z key_data)))
               !! fd <> Some (DConn c)).
  { intros fd c Hfd.
    apply lookup_insert_Some in Hfd as [[_ Hfd]|[_ Hfd]]; [discriminate|].
    apply lookup_insert_Some in Hfd as [[_ Hfd]|[_ Hfd]]; [discriminate|].
    rewrite lookup_empty in Hfd. discriminate. }
  unfold held_apart. simpl.
  split; [constructor|]. split; [|split; [|split; [constructor|]]].
  - intros fd c Hfd. destruct (Hnone fd c Hfd).
  - intros fd1 fd2 c Hfd. destruct (Hnone fd1 c Hfd).
  - intros fd c Hfd. destruct (Hnone fd c Hfd).
Qed.

Lemma owner_ok_caller_ok o st : owner_ok o st = true -> caller_ok o st = true.
Proof. unfold owner_ok. rewrite andb_true_iff. tauto. Qed.

Lemma reachable_owned_reachable st :
  reachable_owned errors server st -> reachable errors server st.
Proof.
  induction 1 as [h n s ctrl_rx_fileno st Hinit|o st _ IH Hok].
  - eapply reachable_init; eauto.
  - apply reachable_step; [exact IH | apply owner_ok_caller_ok; exact Hok].
Qed.

Lemma held_apart_step o st :
  owner_ok o st = true -> manager_inv st -> held_apart st ->
  held_apart (run_op errors server o st).
Proof.
  intros Hok Hinv H. unfold owner_ok in Hok.
  apply andb_true_iff in Hok as [Hcaller Hown].
  destruct o as [conn now|env|now| |sock_fd conn|]; simpl in *;
    try discriminate.
  - apply held_apart_put; assumption.
  - apply held_apart_get_conn; assumption.
  - apply held_apart_expire; assumption.
Qed.

Lemma reachable_owned_held_apart st :
  reachable_owned errors server st -> held_apart st.
Proof.
  induction 1 as [h n s ctrl_rx_fileno st Hinit|o st Hreach IH Hok].
  - eapply held_apart_init; eauto.
  - apply held_apart_step; [exact Hok| |exact IH].
    apply (reachable_manager_inv errors server).
    apply reachable_owned_reachable. exact Hreach.
Qed.

End Ownership.

(** X14: as long as [put] is given connections the manager does not hold,
    the manager never holds a connection twice: in every state it goes
    through, from [__init__] on by [put], [get_conn] and [expire], the
    readable queue, the pending-put queue and the client registrations of
    the selector have no connection in common and none twice, and each is
    an existing object.  And each such call keeps it so. *)
Theorem connection_held_once errors server :
  (forall st, reachable_owned errors server st -> owned_once st)
  /\ (forall (o : op) (st : state),
        reachable errors server st -> owned_once st -> owner_ok o st = true ->
        owned_once (run_op errors server o st)).
Proof.
  split.
  - intros st Hreach. apply owned_once_spec.
    apply (reachable_owned_held_apart errors server). exact Hreach.
  - intros o st Hreach H Hok. apply owned_once_spec.
    apply held_apart_step; [exact Hok| |apply owned_once_spec; exact H].
    apply (reachable_manager_inv errors server). exact Hreach.
Qed.

(** The example manager: connections 1 and 3 registered, 5 waiting. *)
Lemma connection_held_once_witness :
  reachable_owned example_errors example_server example_state
  /\ NoDup (placements example_state)
  /\ owned_once (run_op example_errors example_server (OpExpire 20%Q)
                   example_state).
Proof.
  destruct (connection_held_once example_errors example_server)
    as [Hreach Hstep].
  assert (H0 : reachable_owned example_errors example_server example_state).
  { unfold example_state. cbv zeta beta.
    repeat (apply reachable_owned_step; [|vm_compute; reflexivity]).
    apply (reachable_owned_init _ _ example_heap 6%nat example_stats 4).
    reflexivity. }
  split; [exact H0|]. split; [exact (proj1 (Hreach _ H0))|].
  apply (Hstep (OpExpire 20%Q) example_state).
  - exact (reachable_owned_reachable _ _ _ H0).
  - exact (Hreach _ H0).
  - reflexivity.
Defined.

(** X15: the connection [get_conn] returns is no longer held: it is in
    neither queue and under no descriptor of the selector, and it is an
    existing object; the caller may [put] it back when it has buffered
    input. *)
Theorem get_conn_releases errors server env (st : state) (conn : conn_ref) :
  reachable_owned errors server st ->
  select_sound st env = true ->
  let r := get_conn errors server env st in
  r.1 = Return (Some conn) ->
  (conn ∉ placements r.2)
  /\ (conn < next_ref r.2)%nat
  /\ (forall now, rfile_has_data (heap r.2 conn) = true ->
                  reachable_owned errors server (put conn now r.2).2).
Proof.
  intros Hreach Hsound r Hret.
  pose proof (reachable_owned_held_apart errors server st Hreach) as H.
  pose proof (reachable_manager_inv errors server st
                (reachable_owned_reachable errors server st Hreach)) as Hinv.
  destruct (held_apart_get_conn errors server env st Hsound Hinv H)
    as [_ Hfree].
  specialize (Hfree conn Hret). fold r in Hfree.
  split; [|split].
  - unfold put_unowned in Hfree. apply andb_true_iff in Hfree as [_ Hfree].
    apply bool_decide_eq_true in Hfree. exact Hfree.
  - unfold put_unowned in Hfree. apply andb_true_iff in Hfree as [Hlt _].
    apply Nat.ltb_lt. exact Hlt.
  - intros now Hd.
    assert (Hr2 : reachable_owned errors server r.2).
    { apply (reachable_owned_step errors server (OpGetConn env) st Hreach).
      unfold owner_ok. simpl. rewrite Hsound. reflexivity. }
    apply (reachable_owned_step errors server (OpPut conn now) r.2 Hr2).
    unfold owner_ok. simpl. rewrite Hd, Hfree. reflexivity.
Qed.

(** In the example manager, the connection registered under descriptor 11
    becomes ready and is returned. *)
Lemma get_conn_releases_witness :
  let env := example_env [ {| key_fd := 11; key_data_of := DConn 1%nat |} ] in
  let r := get_conn example_errors example_server env example_state in
  r.1 = Return (Some 1%nat) /\ 1%nat ∉ placements r.2.
Proof.
  intros env r.
  assert (H0 : reachable_owned example_errors example_server example_state).
  { unfold example_state. cbv zeta beta.
    repeat (apply reachable_owned_step; [|vm_compute; reflexivity]).
    apply (reachable_owned_init _ _ example_heap 6%nat example_stats 4).
    reflexivity. }
  assert (Hret : r.1 = Return (Some 1%nat)) by (vm_compute; reflexivity).
  split; [exact Hret|].
  exact (proj1 (get_conn_releases example_errors example_server env
                  example_state 1%nat H0 eq_refl Hret)).
Defined.

(** ** A new manager *)

(** X16: [__init__] registers the listening socket and then the receiving
    end of the control pair, and nothing else: no client connection, empty
    queues, a count of zero.  It raises [ValueError] on a listening socket
    without a descriptor, with nothing registered, and [KeyError] when both
    descriptors are the same. *)
Theorem init_spec (server : HTTPServer) (ctrl_rx_fileno : Z) h n s :
  let st0 := empty_state h n s in
  let r := __init__ server ctrl_rx_fileno st0 in
  (0 <= server_fileno server -> 0 <= ctrl_rx_fileno ->
   ctrl_rx_fileno <> server_fileno server ->
   r.1 = Return tt
   /\ _selector r.2 !! server_fileno server = Some DServer
   /\ _selector r.2 !! ctrl_rx_fileno = Some DCtrlRx
   /\ (forall fd, fd <> server_fileno server -> fd <> ctrl_rx_fileno ->
                  _selector r.2 !! fd = None)
   /\ _get_selector_conns r.2 = []
   /\ _readable_conns r.2 = [] /\ _put_q r.2 = [] /\ _num_conns r.2 = 0
   /\ ctrl_chan r.2 = []
   /\ log r.2 = [EvRegister (server_fileno server) DServer;
                 EvRegister ctrl_rx_fileno DCtrlRx])
  /\ (server_fileno server < 0 -> r = (Raise ValueError, st0))
  /\ (0 <= server_fileno server -> ctrl_rx_fileno = server_fileno server ->
      r.1 = Raise KeyError /\ _selector r.2 !! ctrl_rx_fileno = Some DServer).
Proof.
  intros st0 r. split; [|split].
  - intros Hs Hc Hne.
    assert (E : r = (Return tt,
                     emit (EvRegister ctrl_rx_fileno DCtrlRx)
                       (set_selector
                          (<[ctrl_rx_fileno := DCtrlRx]>
                             (<[server_fileno server := DServer]> ∅))
                          (emit (EvRegister (server_fileno server) DServer)
                             (set_selector (<[server_fileno server := DServer]> ∅)
                                st0))))).
    { subst r. unfold __init__, bind, selector_register. simpl.
      rewrite (proj2 (Z.ltb_ge _ _) Hs), lookup_empty. simpl.
      rewrite (proj2 (Z.ltb_ge _ _) Hc), lookup_insert_ne by congruence.
      rewrite lookup_empty. reflexivity. }
    rewrite E. simpl.
    split; [reflexivity|].
    split; [rewrite lookup_insert_ne by congruence; apply lookup_insert_eq|].
    split; [apply lookup_insert_eq|].
    split.
    { intros fd H1 H2. rewrite !lookup_insert_ne by congruence.
      apply lookup_empty. }
    split; [|repeat split].
    unfold _get_selector_conns. simpl.
    destruct (omap selector_conn _) as [|[fd c] l] eqn:Hl; [reflexivity|].
    assert (Hin : (fd, c) ∈ omap selector_conn
                    (map_to_list
                       (<[ctrl_rx_fileno := DCtrlRx]>
                          (<[server_fileno server := DServer]>
                             (∅ : gmap Z key_data))))).
    { rewrite Hl. left. }
    apply elem_of_selector_conns in Hin.
    apply lookup_insert_Some in Hin as [[_ Hin]|[_ Hin]]; [discriminate|].
    apply lookup_insert_Some in Hin as [[_ Hin]|[_ Hin]]; [discriminate|].
    rewrite lookup_empty in Hin. discriminate.
  - intros Hs. subst r. unfold __init__, bind, selector_register.
    rewrite (proj2 (Z.ltb_lt _ _) Hs). reflexivity.
  - intros Hs ->. subst r. unfold __init__, bind, selector_register. simpl.
    rewrite (proj2 (Z.ltb_ge _ _) Hs), lookup_empty. simpl.
    rewrite lookup_insert_eq. simpl. split; [reflexivity|].
    apply lookup_insert_eq.
Qed.

Lemma init_spec_witness :
  _get_selector_conns example_init = []
  /\ _selector example_init !! 3 = Some DServer
  /\ _selector example_init !! 4 = Some DCtrlRx.
Proof.
  destruct (init_spec example_server 4 example_heap 6%nat example_stats)
    as [H _].
  destruct H as (_ & Hs & Hc & _ & Hnone & _); [simpl; lia | lia | discriminate|].
  split; [exact Hnone|]. split; [exact Hs | exact Hc].
Defined.

(** ** A descriptor that cannot be registered *)

Lemma process_ctrl_msg_fails rest conn q st :
  ctrl_chan st = x50 :: rest -> _put_q st = conn :: q ->
  conn_fileno (heap st conn) < 0
  \/ is_Some (_selector st !! conn_fileno (heap st conn)) ->
  _process_ctrl_msg st
  = (Raise (if conn_fileno (heap st conn) <? 0 then ValueError else KeyError),
     set_put_q q (after_recv rest st)).
Proof.
  intros Hc Hq Hbad.
  rewrite (process_ctrl_msg_register rest conn q st Hc Hq).
  unfold selector_register. simpl.
  destruct (conn_fileno (heap st conn) <? 0) eqn:Hneg; [reflexivity|].
  destruct Hbad as [Hlt|[d Hd]].
  - apply Z.ltb_ge in Hneg. lia.
  - rewrite Hd. reflexivity.
Qed.

(** X17: when the connection at the head of [_put_q] has a descriptor that
    is registered already, or none (a negative one), the [get_conn] that
    handles its control byte raises [KeyError], respectively [ValueError],
    to its caller.  The byte and the connection have been taken off their
    queues, the connection is not registered, not closed and not returned,
    and the count is not lowered: from then on it is one more than the
    connections held. *)
Theorem get_conn_registration_failure errors server env (st : state)
    (ctrl_key : SelectorKey) (post : list SelectorKey) (conn : conn_ref)
    (q : list conn_ref) (rest : list byte) :
  _readable_conns st = [] ->
  select_result env = Return (ctrl_key :: post) ->
  key_data_of ctrl_key = DCtrlRx ->
  ctrl_chan st = x50 :: rest -> _put_q st = conn :: q ->
  conn_fileno (heap st conn) < 0
  \/ is_Some (_selector st !! conn_fileno (heap st conn)) ->
  let r := get_conn errors server env st in
  r.1 = Raise (if conn_fileno (heap st conn) <? 0 then ValueError else KeyError)
  /\ _put_q r.2 = q /\ ctrl_chan r.2 = rest
  /\ _selector r.2 = _selector st /\ _readable_conns r.2 = []
  /\ heap r.2 = heap st
  /\ _num_conns r.2 = _num_conns st
  /\ (count_ok st -> _num_conns r.2 = managed_count r.2 + 1).
Proof.
  intros Hr Hsel Hctrl Hc Hq Hbad r.
  assert (E : r = (Raise (if conn_fileno (heap st conn) <? 0
                          then ValueError else KeyError),
                   set_put_q q (after_recv rest (emit EvSelect st)))).
  { subst r.
    unfold get_conn, catch at 1, bind at 1, _pop_readable_conn at 1.
    rewrite Hr. unfold get_conn_select.
    unfold bind at 1, catch at 1, bind at 1, modify at 1.
    unfold bind at 1, lift at 1. rewrite Hsel. unfold ret at 1.
    unfold bind at 1. cbn [get_conn_loop]. rewrite Hctrl.
    unfold bind at 1.
    rewrite (process_ctrl_msg_fails rest conn q (emit EvSelect st) Hc Hq Hbad).
    reflexivity. }
  rewrite E. simpl. repeat split; try assumption.
  intros Hcount. unfold count_ok, managed_count, _get_selector_conns in *.
  simpl. rewrite Hr, Hq in Hcount. rewrite Hr. simpl in *. lia.
Qed.

(** In the example manager, connection 5 waits in [_put_q]; had its
    descriptor been that of connection 1, already registered, its
    registration fails. *)
Lemma get_conn_registration_failure_witness :
  let clash (c : HTTPConnection) :=
    {| conn_socket := {| sock_fileno := 11; sock_has_settimeout := true |};
       conn_makefile := conn_makefile c; last_used := last_used c;
       rfile_has_data := rfile_has_data c; conn_closed := conn_closed c;
       remote_addr := remote_addr c; remote_port := remote_port c;
       ssl_env := ssl_env c |} in
  let st := set_heap (heap_update 5%nat clash (heap example_state))
              example_state in
  let env := example_env [ {| key_fd := 4; key_data_of := DCtrlRx |} ] in
  let r := get_conn example_errors example_server env st in
  r.1 = Raise KeyError /\ _put_q r.2 = [] /\ _num_conns r.2 = 3.
Proof.
  intros clash st env r.
  destruct (get_conn_registration_failure example_errors example_server env st
              {| key_fd := 4; key_data_of := DCtrlRx |} [] 5%nat [] [])
    as (H1 & H2 & _ & _ & _ & _ & H3 & _);
    try reflexivity.
  { right. exists (DConn 1%nat). reflexivity. }
  split; [exact H1|]. split; [exact H2 | exact H3].
Defined.

(** ** The readable queue, in order *)

Lemma put_each_has_data now conns :
  forall st,
    Forall (fun c => rfile_has_data (heap st c) = true) conns ->
    let s := put_each conns now st in
    _readable_conns s = _readable_conns st ++ conns
    /\ _num_conns s = _num_conns st + Z.of_nat (length conns)
    /\ log s = log st /\ _selector s = _selector st /\ _put_q s = _put_q st
    /\ ctrl_chan s = ctrl_chan st.
Proof.
  induction conns as [|c conns IH]; intros st Hall.
  { cbv zeta. simpl. rewrite app_nil_r. repeat split. lia. }
  apply Forall_cons in Hall as [Hc Hall].
  unfold put_each. cbn [fold_left].
  change (fold_left (fun s conn => (put conn now s).2) conns (put c now st).2)
    with (put_each conns now (put c now st).2).
  destruct (IH (put c now st).2) as (H1 & H2 & H3 & H4 & H5 & H6).
  { rewrite (put_has_data _ _ _ Hc). simpl.
    eapply Forall_impl; [exact Hall|]. simpl. intros c' Hc'.
    unfold heap_update. destruct (Nat.eqb c' c); simpl; exact Hc'. }
  rewrite (put_has_data _ _ _ Hc) in *. simpl in *.
  rewrite H1, H2, H3, H4, H5, H6, <- app_assoc. repeat split. lia.
Qed.

Lemma get_conn_each_readable errors server conns :
  forall envs st rest,
    _readable_conns st = conns ++ rest ->
    length envs = length conns ->
    let r := get_conn_each errors server envs st in
    r.1 = List.map (fun c => Return (Some c)) conns
    /\ _readable_conns r.2 = rest
    /\ _num_conns r.2 = _num_conns st - Z.of_nat (length conns)
    /\ log r.2 = log st /\ _selector r.2 = _selector st /\ _put_q r.2 = _put_q st
    /\ ctrl_chan r.2 = ctrl_chan st.
Proof.
  induction conns as [|c conns IH]; intros envs st rest Hr Hlen.
  { destruct envs; [|discriminate]. cbv zeta. simpl. repeat split.
    - exact Hr.
    - lia. }
  destruct envs as [|env envs]; [discriminate|].
  cbn [get_conn_each]. cbv zeta.
  assert (E : get_conn errors server env st
              = (Return (Some c),
                 set_num_conns (_num_conns st - 1)
                   (set_readable (conns ++ rest) st))).
  { unfold get_conn, catch, bind, _pop_readable_conn. rewrite Hr. reflexivity. }
  rewrite E. cbn [fst snd].
  destruct (IH envs (set_num_conns (_num_conns st - 1)
                       (set_readable (conns ++ rest) st)) rest)
    as (H1 & H2 & H3 & H4 & H5 & H6 & H7);
    [reflexivity | simpl in Hlen; lia|].
  cbv zeta in H1, H2, H3, H4, H5, H6, H7.
  rewrite H1, H2, H3, H4, H5, H6, H7. simpl. repeat split. lia.
Qed.

(** X18: connections with buffered input are handed back in the order they
    were [put]: after [put] of [conns] into a manager with an empty readable
    queue, the next [get_conn] calls return them one by one in that order,
    whatever [select] would report; no [select] call is made, and count,
    selector and log end as they were before the [put]s. *)
Theorem readable_queue_fifo errors server (conns : list conn_ref)
    (envs : list get_conn_env) (now : Q) (st : state) :
  _readable_conns st = [] ->
  Forall (fun c => rfile_has_data (heap st c) = true) conns ->
  length envs = length conns ->
  let r := get_conn_each errors server envs (put_each conns now st) in
  r.1 = List.map (fun c => Return (Some c)) conns
  /\ _readable_conns r.2 = []
  /\ _num_conns r.2 = _num_conns st
  /\ log r.2 = log st
  /\ _selector r.2 = _selector st
  /\ _put_q r.2 = _put_q st.
Proof.
  intros Hr Hall Hlen r.
  destruct (put_each_has_data now conns st Hall) as (P1 & P2 & P3 & P4 & P5 & _).
  cbv zeta in P1, P2, P3, P4, P5. rewrite Hr in P1. simpl in P1.
  destruct (get_conn_each_readable errors server conns envs
              (put_each conns now st) [])
    as (G1 & G2 & G3 & G4 & G5 & G6 & _);
    [rewrite app_nil_r; exact P1 | exact Hlen|].
  fold r in G1, G2, G3, G4, G5, G6.
  rewrite G1, G2, G3, G4, G5, G6, P2, P3, P4, P5. repeat split. lia.
Qed.

(** Two connections with buffered input, put into the new manager. *)
Lemma readable_queue_fifo_witness :
  let data (c : HTTPConnection) :=
    {| conn_socket := conn_socket c; conn_makefile := conn_makefile c;
       last_used := last_used c; rfile_has_data := true;
       conn_closed := conn_closed c; remote_addr := remote_addr c;
       remote_port := remote_port c; ssl_env := ssl_env c |} in
  let st := set_heap (fun c => data (heap example_init c)) example_init in
  let envs := [example_env []; example_env []] in
  (get_conn_each example_errors example_server envs
     (put_each [3%nat; 1%nat] 5%Q st)).1
  = [Return (Some 3%nat); Return (Some 1%nat)].
Proof.
  intros data st envs.
  refine (proj1 (readable_queue_fifo example_errors example_server
                   [3%nat; 1%nat] envs 5%Q st eq_refl _ eq_refl)).
  repeat constructor.
Defined.

(** ** The keep-alive flag and the connections held *)



(** ** An accepted socket that cannot be set up *)

(** X20: when [accept] succeeds and the inheritance guard then raises [ex],
    the accept has been counted already, [ex] is classified like an
    exception of [accept], and a socket error that is not a timeout is
    counted as well: one incoming connection then adds to both [Accepts] and
    [Socket Errors].  No timeout is set, and no object is created. *)
Theorem accept_guard_error errors server env (st : state) (s : socket_obj)
    addr (ex : exn) :
  accept_result env = Return (s, addr) ->
  inherit_result env = Raise ex ->
  let r := _from_server_socket errors server env st in
  r.1 = spec_accept_outcome errors ex
  /\ stats_Accepts (stats r.2)
     = stats_Accepts (stats st) + (if stats_Enabled (stats st) then 1 else 0)
  /\ stats_Socket_Errors (stats r.2)
     = stats_Socket_Errors (stats st)
       + (if stats_Enabled (stats st) && counts_as_socket_error ex
          then 1 else 0)
  /\ log r.2 = log st /\ heap r.2 = heap st /\ next_ref r.2 = next_ref st
  /\ same_manager st r.2.
Proof.
  intros Hacc Hinh r.
  set (st1 := if stats_Enabled (stats st)
              then set_stats (incr_Accepts (stats st)) st else st).
  assert (Hbody : _from_server_socket_body errors server env st = (Raise ex, st1)).
  { unfold _from_server_socket_body. unfold bind at 1, lift at 1.
    rewrite Hacc. unfold bind at 1, modify at 1. unfold bind at 1, lift at 1.
    rewrite Hinh. reflexivity. }
  assert (E : r = _from_server_socket errors server env st) by reflexivity.
  clearbody r. unfold _from_server_socket, catch in E. rewrite Hbody in E.
  assert (H1 : stats_Enabled (stats st1) = stats_Enabled (stats st)
               /\ stats_Accepts (stats st1)
                  = stats_Accepts (stats st)
                    + (if stats_Enabled (stats st) then 1 else 0)
               /\ stats_Socket_Errors (stats st1) = stats_Socket_Errors (stats st)
               /\ log st1 = log st /\ heap st1 = heap st
               /\ next_ref st1 = next_ref st /\ same_manager st st1).
  { subst st1. destruct (stats_Enabled (stats st)) eqn:He; simpl;
      rewrite ?He; repeat split; lia. }
  destruct H1 as (He & Ha & Hse & Hl & Hh & Hn & Hsame).
  destruct ex as [| | | | |tm arg0|];
    try (subst r; simpl; rewrite ?andb_false_r;
         repeat split; first [assumption | apply Hsame | lia]).
  destruct tm.
  { subst r. simpl. rewrite andb_false_r.
    repeat split; first [assumption | apply Hsame | lia]. }
  unfold bind, modify, spec_accept_outcome, counts_as_socket_error in *.
  rewrite andb_true_r. rewrite <- He in Ha |- *. revert Ha.
  destruct (py_in arg0 (socket_error_eintr errors));
    destruct (py_in arg0 (socket_errors_nonblocking errors));
    destruct (py_in arg0 (socket_errors_to_ignore errors));
    destruct (stats_Enabled (stats st1)); intros Ha; subst r; simpl in *;
    rewrite ?Hse; repeat split; first [assumption | apply Hsame | lia].
Qed.

(** The guard fails with [EBADF] on the accepted socket: the error
    propagates, and both counters have gone up. *)
Lemma accept_guard_error_witness :
  let env :=
    {| accept_result :=
         Return ({| sock_fileno := 20; sock_has_settimeout := true |}, None);
       inherit_result := Raise (SocketError false (Errno 9));
       settimeout_result := Return tt;
       wrap_result := Raise NoSSLError; write_result := Return tt;
       settimeout2_result := Return tt; getsockname_len := Return 2%nat;
       factory_last_used := 0%Q; factory_has_data := false |} in
  let r := _from_server_socket example_errors example_server env
             example_state in
  r.1 = Raise (SocketError false (Errno 9))
  /\ stats_Accepts (stats r.2) = 1 /\ stats_Socket_Errors (stats r.2) = 1.
Proof.
  intros env r.
  destruct (accept_guard_error example_errors example_server env example_state
              {| sock_fileno := 20; sock_has_settimeout := true |} None
              (SocketError false (Errno 9)) eq_refl eq_refl)
    as (H1 & H2 & H3 & _).
  split; [exact H1|]. split; [exact H2 | exact H3].
Defined.
